(** * pushbullet-cli: a shallow embedding of [pushbullet_cli/app.py]

    The program is a short sequential script around four kinds of effects:
    the file system (credential file, [os.path.isfile], [os.umask]), the
    terminal (prints and line prompts), the remote client object and the
    early exits of [main].  The embedding threads an explicit [world]
    through a small state-and-exception monad [M]; every effect is also
    appended to a chronological [log] so that statements of the form
    "nothing was dispatched" or "exactly one remote call" can be read off
    the final world. *)

From stdpp Require Import gmap strings list fin_maps pretty.
From Stdlib Require Import ZArith Ascii String.
Abbreviation length := List.length.

Local Open Scope Z_scope.
Local Open Scope string_scope.
Local Open Scope list_scope.

(** ** Byte strings (the script is Python 2: [str] is a byte string) *)

Definition newline : ascii := "010"%char.
Definition nl : string := String newline "".

(** [[a-zA-Z]] *)
Definition is_alpha (c : ascii) : bool :=
  let n := N_of_ascii c in
  ((65 <=? n) && (n <=? 90) || (97 <=? n) && (n <=? 122))%N.

(** [.] without [re.DOTALL]: every character but the newline *)
Definition is_dot (c : ascii) : bool := negb (bool_decide (c = newline)).

Fixpoint all_chars (p : ascii → bool) (s : string) : bool :=
  match s with
  | "" => true
  | String c s' => p c && all_chars p s'
  end.

(** [str.strip()]: removes leading and trailing ASCII white space *)
Fixpoint lstrip (s : string) : string :=
  match s with
  | "" => ""
  | String c s' => if Ascii.is_space c then lstrip s' else s
  end.
Definition rstrip (s : string) : string := String.rev (lstrip (String.rev s)).
Definition strip (s : string) : string := rstrip (lstrip s).

(** Removes the newline that ends a line, when there is one. *)
Definition chomp (line : string) : string :=
  match String.rev line with
  | String c r => if bool_decide (c = newline) then String.rev r else line
  | "" => ""
  end.

Definition is_digit (c : ascii) : bool :=
  match Ascii.is_nat c with
  | Some _ => true
  | None => false
  end.

(** [s.split(c, 1)] when [c] occurs in [s]: what precedes the first [c] and
    what follows it *)
Fixpoint split_at (c : ascii) (s : string) : option (string * string) :=
  match s with
  | "" => None
  | String c' s' =>
      if Ascii.eqb c' c then Some ("", s')
      else
        match split_at c s' with
        | Some (a, b) => Some (String c' a, b)
        | None => None
        end
  end.

(** [c in s] *)
Definition contains (c : ascii) (s : string) : bool :=
  match split_at c s with
  | Some _ => true
  | None => false
  end.

(** [sep.join(l)] *)
Fixpoint join (sep : string) (l : list string) : string :=
  match l with
  | [] => ""
  | [x] => x
  | x :: l' => x +:+ sep +:+ join sep l'
  end.

(** [int(s)] on a string: optional sign, then one or more decimal digits;
    [None] stands for [ValueError]. *)
Fixpoint digits_val (acc : Z) (s : string) : option Z :=
  match s with
  | "" => Some acc
  | String c s' =>
      match Ascii.is_nat c with
      | Some d => digits_val (10 * acc + Z.of_nat d) s'
      | None => None
      end
  end.

Definition unsigned_val (s : string) : option Z :=
  match s with
  | "" => None
  | _ => digits_val 0 s
  end.

Definition py_int (s : string) : option Z :=
  match strip s with
  | String "-" t => Z.opp <$> unsigned_val t
  | String "+" t => unsigned_val t
  | t => unsigned_val t
  end.

(** ** The regular expression [URL_RE]

    Only the constructs that occur in [r"^[a-zA-Z]+://.+$"] are modelled:
    the two anchors, a literal character and [+] over a character class.
    The matcher is the usual backtracking one; [bol] records whether the
    current position is the start of the subject, [$] succeeds at the end
    of the subject or just before a final newline (no [re.MULTILINE]). *)

Inductive re_item :=
  | ReBol
  | ReEol
  | ReChar (c : ascii)
  | RePlus (p : ascii → bool).

Definition at_eol (s : string) : bool :=
  bool_decide (s = "") || bool_decide (s = nl).

(** [class+] followed by the rest of the pattern, the latter given as the
    continuation [k] *)
Fixpoint match_plus (p : ascii → bool) (k : string → bool) (s : string) : bool :=
  match s with
  | String c s' => p c && (match_plus p k s' || k s')
  | "" => false
  end.

Fixpoint re_match (re : list re_item) (bol : bool) (s : string) {struct re} : bool :=
  match re with
  | [] => true
  | ReBol :: re' => bol && re_match re' bol s
  | ReEol :: re' => at_eol s && re_match re' bol s
  | ReChar c :: re' =>
      match s with
      | String c' s' => bool_decide (c = c') && re_match re' false s'
      | "" => false
      end
  | RePlus p :: re' => match_plus p (re_match re' false) s
  end.

(** [pattern.search(s)]: a match may start at any offset *)
Fixpoint re_search_from (re : list re_item) (bol : bool) (s : string) : bool :=
  re_match re bol s ||
  match s with
  | String _ s' => re_search_from re false s'
  | "" => false
  end.

Definition re_search (re : list re_item) (s : string) : bool :=
  re_search_from re true s.

Definition URL_RE : list re_item :=
  [ReBol; RePlus is_alpha; ReChar ":"; ReChar "/"; ReChar "/"; RePlus is_dot; ReEol].

(** ** Values, devices and the outside world *)

(** A device of the remote client; the script only ever reads [nickname]. *)
Record Device := { device_iden : string; nickname : string }.

(** Python values that travel through the remote calls. *)
Inductive pyval :=
  | PStr (s : string)
  | PDev (d : Device)
  | PFile (path : string) (content : string).

Inductive method := push_file | upload_file | push_link | push_note.

Definition method_name (m : method) : string :=
  match m with
  | push_file => "push_file"
  | upload_file => "upload_file"
  | push_link => "push_link"
  | push_note => "push_note"
  end.

(** What a path can name: a regular file, a directory, or a special file
    (a character device such as [/dev/null]): no regular file, yet it can be
    opened; reading it yields [content], what is written to it is not
    kept. *)
Inductive node :=
  | RegFile (content : string) (mode : Z)
  | Directory
  | Special (content : string) (mode : Z).

Inductive event :=
  | EPrint (line : string)
  | EPrompt (prompt : string)
  | EStdinRead
  | EIsFile (path : string)
  | EUmask (mask : Z)
  | EOpen (path : string) (mode : string)
  | EWrite (path : string) (data : string)
  | EConnect (api_key : string)
  | ECall (m : method) (args : list pyval) (kw : gmap string pyval).

Record world := {
  fs : gmap string node;
  umask : Z;
  stdin_pos : nat;
  log : list event
}.

(** What the script cannot control: the user's home directory, the lines
    that will arrive on standard input (each with its terminating newline,
    [None] from the end of input on), the answers of the remote service,
    whether the disk accepts a write, and how Python renders the client
    object and a payload in a message. *)
Record Env := {
  home : string;
  stdin : nat → option string;
  devices : list Device;
  remote : method → list pyval → gmap string pyval → bool * gmap string pyval;
  write_ok : string → string → bool;
  obj_repr : string;
  payload_str : gmap string pyval → string
}.

Inductive exn :=
  | EOFError
  | IndexError
  | IOError (path : string)
  | PushbulletException (msg : string)
  | SystemExit (code : Z).

Inductive outcome (A : Type) :=
  | Ret (a : A)
  | Raise (e : exn)
  | OutOfFuel.
Arguments Ret {A} a.
Arguments Raise {A} e.
Arguments OutOfFuel {A}.

Definition M (A : Type) : Type := world → outcome A * world.

Definition ret {A} (a : A) : M A := λ w, (Ret a, w).
Definition raise {A} (e : exn) : M A := λ w, (Raise e, w).
Definition bind {A B} (m : M A) (k : A → M B) : M B := λ w,
  match m w with
  | (Ret a, w') => k a w'
  | (Raise e, w') => (Raise e, w')
  | (OutOfFuel, w') => (OutOfFuel, w')
  end.

Notation "'let*' x := m 'in' k" := (bind m (λ x, k))
  (at level 10, x name, m at level 100, k at level 200).
Notation "m ;;; k" := (bind m (λ _, k))
  (at level 100, k at level 200, right associativity).

(** [try: body finally: cleanup] *)
Definition try_finally {A} (body : M A) (cleanup : M unit) : M A := λ w,
  match body w with
  | (OutOfFuel, w') => (OutOfFuel, w')
  | (r, w') =>
      match cleanup w' with
      | (Ret _, w'') => (r, w'')
      | (Raise e, w'') => (Raise e, w'')
      | (OutOfFuel, w'') => (OutOfFuel, w'')
      end
  end.

(** The world after the events [evs] have been appended to its log. *)
Definition logged (w : world) (evs : list event) : world :=
  {| fs := fs w; umask := umask w; stdin_pos := stdin_pos w;
     log := log w ++ evs |}.

Definition emit (e : event) : M unit := λ w, (Ret (), logged w [e]).

Definition print (s : string) : M unit := emit (EPrint s).

Definition out_of_fuel {A} : M A := λ w, (OutOfFuel, w).

(** ** The command line

    [_parse_args] only declares the parser: a positional list [msg] with
    [nargs="*"] and a mutually exclusive group of two [store_true] flags and
    one string option; [argparse] adds [-h/--help] to every parser.  The
    parsing itself is [ArgumentParser.parse_args], followed here on the
    argument strings for this parser: the classification of each string
    ([_parse_optional], [_get_option_tuples]), then the loop that consumes
    positionals and optionals in turn ([consume_positionals],
    [consume_optional], [take_action] in [_parse_known_args]).  What
    [argparse] itself writes (the usage message on standard error, the help
    text) is not recorded in the log. *)

Abbreviation cli_arg := string (only parsing).

Inductive flag := FAll | FInteractive | FDevice.

Global Instance flag_eq_dec : EqDecision flag.
Proof. solve_decision. Defined.

(** The actions behind the option strings: the help action and the three
    options of the group. *)
Inductive action := AHelp | AFlag (f : flag).

Definition option_strings : list (string * action) :=
  [("-h", AHelp); ("--help", AHelp);
   ("-a", AFlag FAll); ("--all", AFlag FAll);
   ("-i", AFlag FInteractive); ("--interactive", AFlag FInteractive);
   ("-d", AFlag FDevice); ("--device", AFlag FDevice)].

(** [self._option_string_actions[s]] *)
Fixpoint option_action_in (table : list (string * action)) (s : string) : option action :=
  match table with
  | [] => None
  | (o, a) :: table' => if String.eqb o s then Some a else option_action_in table' s
  end.

Definition option_action (s : string) : option action :=
  option_action_in option_strings s.

(** How [_parse_known_args] sees an argument string: ['A'], ['-'] (the
    first [--]) or ['O'] with the tuple of [_parse_optional], whose action
    is [None] for a string that looks like an option the parser does not
    have.  [CAmbiguous] is the error that [_parse_optional] reports for an
    abbreviation that fits several options. *)
Inductive arg_class :=
  | CPos
  | CSep
  | COpt (a : option action) (option_string : string) (explicit_arg : option string)
  | CAmbiguous.

(** [_negative_number_matcher], [^-\d+$|^-\d*\.\d+$] with the ASCII digits *)
Definition negative_number (s : string) : bool :=
  match s with
  | String "-" t =>
      let t := chomp t in
      negb (String.eqb t "") && all_chars is_digit t
      || match split_at "." t with
         | Some (a, b) =>
             all_chars is_digit a && negb (String.eqb b "") && all_chars is_digit b
         | None => false
         end
  | _ => false
  end.

(** [_get_option_tuples]: a string starting with two dashes may abbreviate
    a long option (up to its [=], when there is one); one starting with a
    single dash is a short option with the rest of the string attached, or
    abbreviates an option as a whole. *)
Definition get_option_tuples (s : string) : list (action * string * option string) :=
  match s with
  | String "-" (String "-" _) =>
      let '(option_prefix, explicit_arg) :=
        match split_at "=" s with
        | Some (p, e) => (p, Some e)
        | None => (s, None)
        end in
      omap (λ '(o, a),
              if String.prefix option_prefix o then Some (a, o, explicit_arg) else None)
           option_strings
  | String "-" (String c rest) =>
      omap (λ '(o, a),
              if String.eqb o (String "-" (String c "")) then Some (a, o, Some rest)
              else if String.prefix s o then Some (a, o, None)
              else None)
           option_strings
  | _ => []
  end.

(** The option string before an [=], when it is one of the parser's. *)
Definition explicit_option (s : string) : option (action * string * string) :=
  match split_at "=" s with
  | Some (o, e) =>
      match option_action o with
      | Some a => Some (a, o, e)
      | None => None
      end
  | None => None
  end.

(** [_parse_optional] *)
Definition parse_optional (s : string) : arg_class :=
  match s with
  | "" => CPos
  | String c _ =>
      if negb (Ascii.eqb c "-") then CPos
      else
        match option_action s with
        | Some a => COpt (Some a) s None
        | None =>
            if String.eqb s "-" then CPos
            else
              match explicit_option s with
              | Some (a, o, e) => COpt (Some a) o (Some e)
              | None =>
                  match get_option_tuples s with
                  | _ :: _ :: _ => CAmbiguous
                  | [(a, o, e)] => COpt (Some a) o e
                  | [] =>
                      if negative_number s then CPos
                      else if contains " " s then CPos
                      else COpt None s None
                  end
              end
        end
  end.

(** The pattern of the whole command line: after the first [--] every
    string is an argument. *)
Fixpoint classify (argv : list cli_arg) : list (cli_arg * arg_class) :=
  match argv with
  | [] => []
  | s :: rest =>
      if String.eqb s "--" then (s, CSep) :: ((λ s', (s', CPos)) <$> rest)
      else (s, parse_optional s) :: classify rest
  end.

Definition is_ambiguous (t : cli_arg * arg_class) : bool :=
  match snd t with
  | CAmbiguous => true
  | _ => false
  end.

Record Namespace := {
  msg : list string;
  all_ : bool;
  interactive : bool;
  device : option string
}.

(** The state of the consumption loop: the namespace under construction,
    the options of the group seen so far, whether strings were left over
    ([extras], reported by [parse_args] at the very end), and whether the
    run of arguments that fills the positional [msg] is still open ([msg]
    is filled once, by the first run of arguments met). *)
Inductive msg_state := MsgUnseen | MsgOpen | MsgClosed.

Definition close_msg (s : msg_state) : msg_state :=
  match s with
  | MsgUnseen => MsgUnseen
  | _ => MsgClosed
  end.

Definition conflicts (f : flag) (seen : list flag) : bool :=
  bool_decide (Exists (λ g, g ≠ f) seen).

Definition take_action (f : flag) (value : option string) (ns : Namespace) : Namespace :=
  match f with
  | FAll => {| msg := msg ns; all_ := true; interactive := interactive ns; device := device ns |}
  | FInteractive => {| msg := msg ns; all_ := all_ ns; interactive := true; device := device ns |}
  | FDevice => {| msg := msg ns; all_ := all_ ns; interactive := interactive ns; device := value |}
  end.

Definition add_word (w : string) (ns : Namespace) : Namespace :=
  {| msg := msg ns ++ [w]; all_ := all_ ns; interactive := interactive ns; device := device ns |}.

(** Options that take no argument ([nargs=0]): all but [--device]. *)
Definition zero_args (a : action) : bool :=
  match a with
  | AFlag FDevice => false
  | _ => true
  end.

(** What one option string stands for, as the loop of [consume_optional]
    works it out before taking any action: the options without argument
    that it names, in order, and whether [--device] closes it, with the
    value attached to it or ([None]) taking the next argument string. *)
Inductive expansion :=
  | ExpandFails (e : exn)
  | Expanded (taken : list action) (then_device : option (option string)).

Definition prepend (a : action) (x : expansion) : expansion :=
  match x with
  | Expanded taken d => Expanded (a :: taken) d
  | ExpandFails e => ExpandFails e
  end.

(** The rest [e] of a cluster of short options such as [-ai] or [-adNAME],
    after an option without argument.  (For an empty rest, as in [-a=],
    Python 3 reports the usage error modelled here, Python 2.7 stops with
    an [IndexError]; parsing fails either way.) *)
Fixpoint cluster (e : string) : expansion :=
  match e with
  | "" => ExpandFails (SystemExit 2)
  | String c e' =>
      match option_action (String "-" (String c "")) with
      | None => ExpandFails (SystemExit 2)       (* ignored explicit argument *)
      | Some a =>
          match e' with
          | "" => if zero_args a then Expanded [a] None else Expanded [] (Some None)
          | _ => if zero_args a then prepend a (cluster e') else Expanded [] (Some (Some e'))
          end
      end
  end.

Definition single_dash (option_string : string) : bool :=
  match option_string with
  | String _ (String c _) => negb (Ascii.eqb c "-")
  | _ => false
  end.

Definition expand (a : action) (option_string : string) (explicit_arg : option string)
    : expansion :=
  match explicit_arg with
  | None => if zero_args a then Expanded [a] None else Expanded [] (Some None)
  | Some e =>
      if zero_args a then
        if single_dash option_string then prepend a (cluster e)
        else ExpandFails (SystemExit 2)          (* ignored explicit argument *)
      else Expanded [] (Some (Some e))
  end.

(** [take_action] on the options without argument: the help action prints
    the help and exits with status 0; an option of the group is refused
    after a different one. *)
Fixpoint take_actions (l : list action) (seen : list flag) (ns : Namespace)
    : exn + list flag * Namespace :=
  match l with
  | [] => inr (seen, ns)
  | AHelp :: _ => inl (SystemExit 0)
  | AFlag f :: l' =>
      if conflicts f seen then inl (SystemExit 2)  (* not allowed with argument *)
      else take_actions l' (f :: seen) (take_action f None ns)
  end.

(** [_get_values] strips the first [--] from the strings of an action: the
    only value of [--device] that this touches is [--] itself, attached as
    in [--device=--], for which [argparse] stores the empty list.  The
    empty string stands for it: both are false, and the truth of the value
    is all that [main] looks at there. *)
Definition device_value (v : string) : string :=
  if String.eqb v "--" then "" else v.

Definition take_device (v : string) (seen : list flag) (ns : Namespace)
    : exn + list flag * Namespace :=
  if conflicts FDevice seen then inl (SystemExit 2)
  else inr (FDevice :: seen, take_action FDevice (Some (device_value v)) ns).

(** The loop of [_parse_known_args] and the final check of [parse_args].
    [Raise (SystemExit 2)] is [parser.error(...)]. *)
Fixpoint consume (toks : list (cli_arg * arg_class)) (st : msg_state) (extras : bool)
    (seen : list flag) (ns : Namespace) : outcome Namespace :=
  match toks with
  | [] => if extras then Raise (SystemExit 2) else Ret ns   (* unrecognized arguments *)
  | (s, CPos) :: rest =>
      match st with
      | MsgClosed => consume rest MsgClosed true seen ns
      | _ => consume rest MsgOpen extras seen (add_word s ns)
      end
  | (s, CSep) :: rest =>
      match st with
      | MsgClosed => consume rest MsgClosed true seen ns
      | _ => consume rest MsgOpen extras seen ns
      end
  | (s, CAmbiguous) :: _ => Raise (SystemExit 2)
  | (s, COpt None _ _) :: rest => consume rest (close_msg st) true seen ns
  | (s, COpt (Some a) option_string explicit_arg) :: rest =>
      match expand a option_string explicit_arg with
      | ExpandFails e => Raise e
      | Expanded taken None =>
          match take_actions taken seen ns with
          | inl e => Raise e
          | inr (seen', ns') => consume rest (close_msg st) extras seen' ns'
          end
      | Expanded taken (Some (Some v)) =>
          match take_actions taken seen ns with
          | inl e => Raise e
          | inr (seen', ns') =>
              match take_device v seen' ns' with
              | inl e => Raise e
              | inr (seen'', ns'') => consume rest (close_msg st) extras seen'' ns''
              end
          end
      | Expanded taken (Some None) =>
          match rest with
          | (v, CPos) :: rest' =>
              match take_actions taken seen ns with
              | inl e => Raise e
              | inr (seen', ns') =>
                  match take_device v seen' ns' with
                  | inl e => Raise e
                  | inr (seen'', ns'') => consume rest' (close_msg st) extras seen'' ns''
                  end
              end
          | _ => Raise (SystemExit 2)               (* expected one argument *)
          end
      end
  end.

Definition default_namespace : Namespace :=
  {| msg := []; all_ := false; interactive := false; device := None |}.

Definition _parse_args (argv : list cli_arg) : M Namespace := λ w,
  let toks := classify argv in
  if existsb is_ambiguous toks then (Raise (SystemExit 2), w)
  else (consume toks MsgUnseen false [] default_namespace, w).

(** The options that an argument string stands for, once classified (the
    one it names, or all those of a cluster of short options), and those
    that a command line specifies. *)
Definition token_actions (t : cli_arg * arg_class) : list action :=
  match snd t with
  | COpt (Some a) option_string explicit_arg =>
      match expand a option_string explicit_arg with
      | Expanded taken None => taken
      | Expanded taken (Some _) => taken ++ [AFlag FDevice]
      | ExpandFails _ => []
      end
  | _ => []
  end.

Definition specified (argv : list cli_arg) : list action :=
  List.concat (token_actions <$> classify argv).

(** The command lines on which the parser is used as intended: at most one
    of the three options, in its short or long spelling, [--device]
    together with its NAME (as the next argument, or attached to the option
    with [=]). *)
Inductive choice :=
  | ChooseNothing
  | ChooseAll
  | ChooseInteractive
  | ChooseDevice (name : string) (glued : bool).

Definition choice_args (short : bool) (c : choice) : list cli_arg :=
  match c with
  | ChooseNothing => []
  | ChooseAll => [if short then "-a" else "--all"]
  | ChooseInteractive => [if short then "-i" else "--interactive"]
  | ChooseDevice name false => [if short then "-d" else "--device"; name]
  | ChooseDevice name true => [(if short then "-d=" else "--device=") +:+ name]
  end.

Definition choice_namespace (words : list string) (c : choice) : Namespace :=
  {| msg := words;
     all_ := match c with ChooseAll => true | _ => false end;
     interactive := match c with ChooseInteractive => true | _ => false end;
     device := match c with ChooseDevice name _ => Some name | _ => None end |}.

(** A message word as one types it: an argument that does not start with
    a dash. *)
Definition plain (s : string) : bool :=
  match s with
  | String "-" _ => false
  | _ => true
  end.

(** A NAME that [--device] takes as it stands: as the next argument it
    must not look like an option; attached, anything but [--]. *)
Definition name_taken (c : choice) : bool :=
  match c with
  | ChooseDevice name false => plain name
  | ChooseDevice name true => negb (String.eqb name "--")
  | _ => true
  end.

(** The option of the group that an argument spells out in full. *)
Definition flag_of (s : string) : option flag :=
  match option_action s with
  | Some (AFlag f) => Some f
  | _ => None
  end.

(** Arguments as one types them when nothing is abbreviated or clustered:
    a word, or one of the six option strings in full; and how such an
    argument is classified. *)
Definition spelled (s : string) : bool :=
  plain s || bool_decide (is_Some (flag_of s)).

Definition spelled_class (s : string) : arg_class :=
  match flag_of s with
  | Some f => COpt (Some (AFlag f)) s None
  | None => CPos
  end.

(** The options seen are all the same one. *)
Definition agree (seen : list flag) : Prop := ∀ f g, f ∈ seen → g ∈ seen → f = g.

(** The modes switched on in a namespace are among the options seen, and
    the options seen are all the same one. *)
Definition modes_seen (seen : list flag) (ns : Namespace) : Prop :=
  (all_ ns = true → FAll ∈ seen) ∧
  (interactive ns = true → FInteractive ∈ seen) ∧
  (is_Some (device ns) → FDevice ∈ seen) ∧
  (∀ f g, f ∈ seen → g ∈ seen → f = g).

(** [if args.device:] -- the truth value of an optional string *)
Definition truthy (o : option string) : bool :=
  match o with
  | Some s => negb (bool_decide (s = ""))
  | None => false
  end.

(** ** Dictionaries

    A dictionary from names to devices, with its entries in the order in
    which their keys were first inserted: assigning to a key that is
    present replaces the value and leaves the key where it is.  This is the
    order in which a [dict] is iterated (and joined) from Python 3.7 on;
    the hash order of earlier versions permutes it. *)

Record pydict := PyDict { items : list (string * Device) }.

Fixpoint items_get (k : string) (l : list (string * Device)) : option Device :=
  match l with
  | [] => None
  | (k', v) :: l' => if decide (k' = k) then Some v else items_get k l'
  end.

Fixpoint items_set (k : string) (v : Device) (l : list (string * Device))
    : list (string * Device) :=
  match l with
  | [] => [(k, v)]
  | (k', v') :: l' => if decide (k' = k) then (k, v) :: l' else (k', v') :: items_set k v l'
  end.

(** [m[k]], [None] standing for a missing key ([k not in m]) *)
Global Instance pydict_lookup : Lookup string Device pydict :=
  λ k m, items_get k (items m).

(** [m[k] = v] *)
Definition dict_setitem (k : string) (v : Device) (m : pydict) : pydict :=
  PyDict (items_set k v (items m)).

(** ** Callables and the client object *)

(** A callable: what [str] shows of it, its [__name__], and its effect. *)
Record pyfunc (R : Type) := {
  func_str : string;
  func_name : string;
  func_call : list pyval → gmap string pyval → M R
}.
Arguments func_str {R} _.
Arguments func_name {R} _.
Arguments func_call {R} _ _ _.

(** The four attributes of the client object that [main] rebinds. *)
Record client (R : Type) := {
  c_push_file : pyfunc R;
  c_upload_file : pyfunc R;
  c_push_link : pyfunc R;
  c_push_note : pyfunc R
}.
Arguments c_push_file {R} _.
Arguments c_upload_file {R} _.
Arguments c_push_link {R} _.
Arguments c_push_note {R} _.

(** ** The script *)

Section Script.
Variable env : Env.

(** [KEY_PATH = os.path.expanduser("~/.pushbulletkey")] *)
Definition KEY_PATH : string := home env +:+ "/.pushbulletkey".

(** *** Operating system *)

Definition isfile (files : gmap string node) (path : string) : bool :=
  match files !! path with
  | Some (RegFile _ _) => true
  | _ => false
  end.

Definition os_path_isfile (path : string) : M bool := λ w,
  (emit (EIsFile path) ;;; ret (isfile (fs w) path)) w.

(** [os.umask(mask)] installs [mask] and returns the previous one. *)
Definition os_umask (mask : Z) : M Z := λ w,
  (Ret (umask w),
   {| fs := fs w; umask := mask; stdin_pos := stdin_pos w;
      log := log w ++ [EUmask mask] |}).

Definition owner_read : Z := 4 * 64.
Definition owner_write : Z := 2 * 64.
Definition mode_0666 : Z := 6 * 64 + 6 * 8 + 6.
Definition mask_077 : Z := 7 * 8 + 7.
Definition mode_0600 : Z := 6 * 64.

Definition set_node (path : string) (n : node) : M unit := λ w,
  (Ret (), {| fs := <[path := n]> (fs w); umask := umask w;
              stdin_pos := stdin_pos w; log := log w |}).

(** [open(path, mode)] for the three modes the script uses.  Writing
    creates the file with mode [0666 & ~umask] or truncates an existing
    regular file (a special file stays as it is); a directory cannot be
    opened.  The result is the file object, here the path and the content
    at opening time. *)
Definition open_ (path mode : string) : M (string * string) := λ w,
  (emit (EOpen path mode) ;;;
   match fs w !! path with
   | Some Directory => raise (IOError path)
   | Some (RegFile content perm) =>
       if bool_decide (mode = "w") then
         if Z.eqb (Z.land perm owner_write) 0 then raise (IOError path)
         else set_node path (RegFile "" perm) ;;; ret (path, "")
       else
         if Z.eqb (Z.land perm owner_read) 0 then raise (IOError path)
         else ret (path, content)
   | Some (Special content perm) =>
       if bool_decide (mode = "w") then
         if Z.eqb (Z.land perm owner_write) 0 then raise (IOError path)
         else ret (path, "")
       else
         if Z.eqb (Z.land perm owner_read) 0 then raise (IOError path)
         else ret (path, content)
   | None =>
       if bool_decide (mode = "w") then
         set_node path (RegFile "" (Z.land mode_0666 (Z.lnot (umask w)))) ;;;
         ret (path, "")
       else raise (IOError path)
   end) w.

Definition file_read (f : string * string) : M string := ret (snd f).

Definition file_write (f : string * string) (data : string) : M unit := λ w,
  (emit (EWrite (fst f) data) ;;;
   if write_ok env (fst f) data then
     match fs w !! fst f with
     | Some (RegFile content perm) => set_node (fst f) (RegFile (content +:+ data) perm)
     | Some (Special _ _) => ret ()
     | _ => raise (IOError (fst f))
     end
   else raise (IOError (fst f))) w.

(** [with open(path, mode) as f: body] *)
Definition with_open {A} (path mode : string) (body : string * string → M A) : M A :=
  let* f := open_ path mode in try_finally (body f) (ret ()).

(** *** Terminal *)

(** [raw_input(prompt)]: the next line without its newline, [EOFError] at
    the end of input. *)
Definition raw_input (prompt : string) : M string := λ w,
  (emit (EPrompt prompt) ;;;
   match stdin env (stdin_pos w) with
   | Some line =>
       (λ w', (Ret (chomp line),
               {| fs := fs w'; umask := umask w'; stdin_pos := S (stdin_pos w');
                  log := log w' |}))
   | None => raise EOFError
   end) w.

(** Modelled from the spec: [read_line] of the module [_compat], which is
    not part of the sources at hand.  The specification says that the key
    is obtained by prompting "interactively for one line of input" and that
    a prompt that "cannot read a line (e.g., end of input)" is a fatal
    error; this is [raw_input]. *)
Definition read_line (prompt : string) : M string := raw_input prompt.

(** [sys.stdin.read()]: everything up to the end of input. *)
Fixpoint read_lines (fuel pos : nat) : option (string * nat) :=
  match fuel with
  | O => None
  | S fuel' =>
      match stdin env pos with
      | None => Some ("", pos)
      | Some line =>
          match read_lines fuel' (S pos) with
          | Some (text, pos') => Some (line +:+ text, pos')
          | None => None
          end
      end
  end.

Definition sys_stdin_read (fuel : nat) : M string := λ w,
  (emit EStdinRead ;;;
   match read_lines fuel (stdin_pos w) with
   | Some (text, pos') =>
       (λ w', (Ret text, {| fs := fs w'; umask := umask w'; stdin_pos := pos';
                            log := log w' |}))
   | None => out_of_fuel
   end) w.

(** *** [private_files] and [_get_api_key] *)

Definition private_files {A} (body : M A) : M A :=
  let* oldmask := os_umask mask_077 in
  try_finally body (os_umask oldmask ;;; ret ()).

Definition _get_api_key : M string :=
  let* there := os_path_isfile KEY_PATH in
  if negb there then
    print "What's your API key?" ;;;
    print "Find it at <https://www.pushbullet.com/account>." ;;;
    let* line := read_line "> " in
    let api_key := strip line in
    private_files
      (with_open KEY_PATH "w" (λ api_file, file_write api_file api_key)) ;;;
    ret api_key
  else
    with_open KEY_PATH "r" (λ api_file, file_read api_file).

(** *** [_prompt_device] *)

(** [for i, device in enumerate(devices): print("[{0}] {1}".format(...))] *)
Fixpoint print_menu (i : nat) (devs : list Device) : M unit :=
  match devs with
  | [] => ret ()
  | d :: devs' =>
      print ("[" +:+ pretty i +:+ "] " +:+ nickname d) ;;;
      print_menu (S i) devs'
  end.

Definition in_range (choice : Z) (devs : list Device) : bool :=
  ((0 <=? choice) && (choice <? Z.of_nat (length devs)))%Z.

(** The [while True] loop; [fuel] bounds the number of prompts. *)
Fixpoint prompt_loop (fuel : nat) (devs : list Device) : M Device :=
  match fuel with
  | O => out_of_fuel
  | S fuel' =>
      let* line := raw_input "Push to which device? " in
      let input := strip line in
      match py_int input with
      | None => prompt_loop fuel' devs
      | Some choice =>
          if in_range choice devs then
            match devs !! Z.to_nat choice with
            | Some d => ret d
            | None => raise IndexError
            end
          else prompt_loop fuel' devs
      end
  end.

Definition _prompt_device (fuel : nat) (devs : list Device) : M Device :=
  print_menu 0 devs ;;; prompt_loop fuel devs.

(** *** The remote client and [raise_for_status] *)

Definition bound_method (m : method) : pyfunc (bool * gmap string pyval) :=
  {| func_str := "<bound method PushBullet." +:+ method_name m +:+ " of "
                 +:+ obj_repr env +:+ ">";
     func_name := method_name m;
     func_call := λ args kw, emit (ECall m args kw) ;;; ret (remote env m args kw) |}.

Definition raw_client : client (bool * gmap string pyval) :=
  {| c_push_file := bound_method push_file;
     c_upload_file := bound_method upload_file;
     c_push_link := bound_method push_link;
     c_push_note := bound_method push_note |}.

(** [PushBullet(api_key)] *)
Definition PushBullet (api_key : string) : M (client (bool * gmap string pyval)) :=
  emit (EConnect api_key) ;;; ret raw_client.

Definition raise_for_status (f : pyfunc (bool * gmap string pyval))
    : pyfunc (gmap string pyval) :=
  {| func_str := "<function " +:+ func_name f +:+ ">";
     func_name := func_name f;
     func_call := λ args kwargs,
       let* r := func_call f args kwargs in
       if negb (fst r) then
         raise (PushbulletException (func_str f +:+ " failed: " +:+ payload_str env (snd r)))
       else ret (snd r) |}.

(** The [for method in [...]: setattr(pb, method, raise_for_status(...))]
    loop of [main]. *)
Definition decorate (pb : client (bool * gmap string pyval)) : client (gmap string pyval) :=
  {| c_push_file := raise_for_status (c_push_file pb);
     c_upload_file := raise_for_status (c_upload_file pb);
     c_push_link := raise_for_status (c_push_link pb);
     c_push_note := raise_for_status (c_push_note pb) |}.

(** *** [_push] and [_data_type] *)

Definition _push (pb : client (gmap string pyval)) (device : option pyval)
    (raw_data data_type : string) : M unit :=
  let data : gmap string pyval :=
    match device with
    | Some d => <["device" := d]> ∅
    | None => ∅
    end in
  if bool_decide (data_type = "file") then
    let* file_data :=
      with_open raw_data "rb" (λ f,
        func_call (c_upload_file pb) [PFile (fst f) (snd f); PStr raw_data] ∅) in
    func_call (c_push_file pb) [] (file_data ∪ data) ;;; ret ()
  else if bool_decide (data_type = "url") then
    func_call (c_push_link pb) []
      (<["title" := PStr raw_data]> (<["url" := PStr raw_data]> data)) ;;; ret ()
  else
    func_call (c_push_note pb) []
      (<["title" := PStr "Note"]> (<["body" := PStr raw_data]> data)) ;;; ret ().

Definition _data_type (argument : string) : M string :=
  let* is_file := os_path_isfile argument in
  if is_file then ret "file"
  else if re_search URL_RE argument then ret "url"
  else ret "text".

(** *** [main] *)

(** [{d.nickname: d for d in pb.devices}]: later devices overwrite earlier
    ones with the same nickname. *)
Definition devices_by_names (devs : list Device) : pydict :=
  fold_left (λ m d, dict_setitem (nickname d) d m) devs (PyDict []).

(** The keys in the order in which the dictionary yields them. *)
Definition dict_keys (m : pydict) : list string := (items m).*1.

(** Lines 143-153: the message, its classification and the push. *)
Definition main_dispatch (fuel : nat) (pb : client (gmap string pyval))
    (args : Namespace) (device : option Device) : M Z :=
  let* content :=
    match msg args with
    | [] =>
        print "Enter your message: " ;;;
        let* arg := sys_stdin_read fuel in
        ret (arg, "text")
    | _ =>
        let arg := join " " (msg args) in
        let* data_type := _data_type arg in
        ret (arg, data_type)
    end in
  _push pb (PDev <$> device) (fst content) (snd content) ;;;
  ret 0.

Definition main (fuel : nat) (argv : list cli_arg) : M Z :=
  let* args := _parse_args argv in
  let* api_key := _get_api_key in
  let* pb0 := PushBullet api_key in
  let pb := decorate pb0 in
  if negb (all_ args) then
    if (length (devices env) <? 1)%nat then
      print "You don't have any devices!" ;;;
      print "Add one at <https://www.pushbullet.com/>." ;;;
      ret 1
    else if interactive args then
      let* d := _prompt_device fuel (devices env) in
      main_dispatch fuel pb args (Some d)
    else if truthy (device args) then
      let name := default "" (device args) in
      let by_names := devices_by_names (devices env) in
      match by_names !! name with
      | None =>
          print ("Unknown device " +:+ name +:+ ". Available devices: "
                 +:+ join ", " (dict_keys by_names)) ;;;
          ret 1
      | Some d => main_dispatch fuel pb args (Some d)
      end
    else main_dispatch fuel pb args None
  else main_dispatch fuel pb args None.

End Script.

(** ** The specification's reading of the URL pattern

    "one or more alphabetic characters followed by [://] and a non-empty
    remainder", word for word. *)
Definition url_shape_spec (s : string) : Prop :=
  ∃ scheme rest,
    s = scheme +:+ "://" +:+ rest ∧
    scheme ≠ "" ∧ all_chars is_alpha scheme = true ∧ rest ≠ "".

(** What [URL_RE] accepts: the remainder is a non-empty run of characters
    other than the newline, after which the string ends, possibly with one
    final newline. *)
Definition url_shape (s : string) : Prop :=
  ∃ scheme rest tail,
    s = scheme +:+ "://" +:+ rest +:+ tail ∧
    scheme ≠ "" ∧ all_chars is_alpha scheme = true ∧
    rest ≠ "" ∧ all_chars is_dot rest = true ∧
    (tail = "" ∨ tail = nl).

(** ** Sample data used in the examples *)

Definition lines (l : list string) : nat → option string := λ n, l !! n.

Definition phone : Device := {| device_iden := "dev1"; nickname := "Phone" |}.
Definition tablet : Device := {| device_iden := "dev2"; nickname := "Tablet" |}.
Definition old_phone : Device := {| device_iden := "dev0"; nickname := "Phone" |}.

Definition sample_env (input : list string) (devs : list Device) (ok : bool) : Env :=
  {| home := "/home/u";
     stdin := lines input;
     devices := devs;
     remote := λ _ _ _, (ok, {["iden" := PStr "p1"]});
     write_ok := λ _ _, true;
     obj_repr := "<pushbullet.PushBullet object>";
     payload_str := λ _, "{...}" |}.

(** The same, on a disk that refuses every write. *)
Definition full_disk_env (input : list string) : Env :=
  {| home := "/home/u";
     stdin := lines input;
     devices := [];
     remote := λ _ _ _, (true, ∅);
     write_ok := λ _ _, false;
     obj_repr := "<pushbullet.PushBullet object>";
     payload_str := λ _, "{...}" |}.

Definition fresh_world : world :=
  {| fs := ∅; umask := 2 * 8 + 2; stdin_pos := 0; log := [] |}.

Definition key_line : string := "ABC123" +:+ nl.

(** First run on an account without devices, with two devices, with two
    devices of the same nickname, and on a service that refuses pushes. *)
Definition no_devices_env : Env := sample_env [key_line] [] true.
Definition two_devices_env : Env := sample_env [key_line] [phone; tablet] true.
Definition twin_devices_env : Env :=
  sample_env [key_line] [old_phone; tablet; phone] true.
Definition failing_env : Env := sample_env [key_line] [phone] false.

(** Somebody who types two useless answers and then [1]; somebody who
    never types anything useful. *)
Definition hesitant_env : Env :=
  sample_env ["x" +:+ nl; "7" +:+ nl; " 1 " +:+ nl] [phone; tablet] true.
Definition stubborn_env : Env :=
  {| home := "/home/u";
     stdin := λ _, Some ("oops" +:+ nl);
     devices := [phone; tablet];
     remote := λ _ _ _, (true, ∅);
     write_ok := λ _ _, true;
     obj_repr := "<pushbullet.PushBullet object>";
     payload_str := λ _, "{...}" |}.

(** A world with a picture in the current directory; an account whose
    owner answers the device prompt with [x] and then [1]; input that ends
    after one useless answer; a message of two lines on standard input. *)
Definition picture_world : world :=
  {| fs := {["photo.jpg" := RegFile "JFIF" (6 * 64 + 4 * 8 + 4)]};
     umask := 2 * 8 + 2; stdin_pos := 0; log := [] |}.
Definition choosing_env : Env :=
  sample_env [key_line; "x" +:+ nl; " 1 " +:+ nl] [phone; tablet] true.
Definition short_input_env : Env :=
  sample_env ["x" +:+ nl] [phone; tablet] true.
Definition piped_env : Env :=
  sample_env ["hello" +:+ nl; "world" +:+ nl] [phone] true.

(** A world in which [/dev/null] is what it is. *)
Definition null_world : world :=
  {| fs := {["/dev/null" := Special "" (6 * 64 + 6 * 8 + 6)]};
     umask := 2 * 8 + 2; stdin_pos := 0; log := [] |}.

(** A key file that an editor saved with a final newline, readable by
    everybody. *)
Definition edited_key_world : world :=
  {| fs := {["/home/u/.pushbulletkey" := RegFile ("ABC123" +:+ nl) (6 * 64 + 4 * 8 + 4)]};
     umask := 0; stdin_pos := 0; log := [] |}.

(** The world once the key ["ABC123"] has been stored. *)
Definition keyed_world : world :=
  {| fs := {["/home/u/.pushbulletkey" := RegFile "ABC123" (6 * 64)]};
     umask := 2 * 8 + 2;
     stdin_pos := 1;
     log := [EIsFile "/home/u/.pushbulletkey";
             EPrint "What's your API key?";
             EPrint "Find it at <https://www.pushbullet.com/account>.";
             EPrompt "> ";
             EUmask (7 * 8 + 7);
             EOpen "/home/u/.pushbulletkey" "w";
             EWrite "/home/u/.pushbulletkey" "ABC123";
             EUmask (2 * 8 + 2)] |}.

Definition with_umask (mask : Z) (w : world) : world :=
  {| fs := fs w; umask := mask; stdin_pos := stdin_pos w; log := log w |}.

Definition is_umask (e : event) : bool :=
  match e with
  | EUmask _ => true
  | _ => false
  end.

(** ** Interactive selection, as seen from outside *)

(** The menu: one line per device, the index counted from zero. *)
Definition menu_lines (devs : list Device) : list event :=
  imap (λ i d, EPrint ("[" +:+ pretty i +:+ "] " +:+ nickname d)) devs.

(** The device a typed line selects, if it selects one: the line, without
    its newline and surrounding blanks, reads as an integer that is an index
    of the list. *)
Definition selection (devs : list Device) (line : string) : option Device :=
  match py_int (strip (chomp line)) with
  | Some choice => if in_range choice devs then devs !! Z.to_nat choice else None
  | None => None
  end.

(** The world after [n] prompts have been answered. *)
Definition prompted (n : nat) (w : world) : world :=
  {| fs := fs w; umask := umask w; stdin_pos := stdin_pos w + n;
     log := log w ++ replicate n (EPrompt "Push to which device? ") |}.

(** The text made of the lines [ls], one after the other. *)
Definition whole_text (ls : list string) : string := foldr String.app "" ls.

(** The routing option [_push] builds from its [device] argument. *)
Definition routing (device : option pyval) : gmap string pyval :=
  match device with
  | Some d => <["device" := d]> ∅
  | None => ∅
  end.

(** ** Predicates on runs *)

Definition is_call (e : event) : bool :=
  match e with
  | ECall _ _ _ => true
  | _ => false
  end.

(** The message of the [PushbulletException] raised for a failed call. *)
Definition failure_message (env : Env) (m : method) (args : list pyval)
    (kw : gmap string pyval) : string :=
  "<bound method PushBullet." +:+ method_name m +:+ " of " +:+ obj_repr env
  +:+ "> failed: " +:+ payload_str env (snd (remote env m args kw)).

(** A computation that never talks to the remote service. *)
Definition quiet {A} (c : M A) : Prop :=
  ∀ w, ∃ evs, log (snd (c w)) = log w ++ evs ∧ Forall (λ e, is_call e = false) evs.

(** A computation in which a remote call that reports failure is the last
    thing that happens, and ends it with the corresponding exception. *)
Definition aborts_on_failure (env : Env) {A} (c : M A) : Prop :=
  ∀ w, ∃ evs, log (snd (c w)) = log w ++ evs ∧
    ∀ m args kw, ECall m args kw ∈ evs → fst (remote env m args kw) = false →
      fst (c w) = Raise (PushbulletException (failure_message env m args kw)) ∧
      last evs = Some (ECall m args kw).

(** ** The shape of a push and of a whole run *)

(** What a decorated call of [m] yields. *)
Definition call_outcome (env : Env) (m : method) (args : list pyval)
    (kw : gmap string pyval) : outcome unit :=
  if fst (remote env m args kw) then Ret ()
  else Raise (PushbulletException
    ("<bound method PushBullet." +:+ method_name m +:+ " of " +:+ obj_repr env
     +:+ "> failed: " +:+ payload_str env (snd (remote env m args kw)))).

(** The events of one [_push] and its outcome: a single push call; or a
    file that cannot be opened; or an upload that fails; or an upload that
    succeeds followed by the push of the file. *)
Definition push_shape (env : Env) (evs : list event) (o : outcome unit) : Prop :=
  (∃ m kw, m ≠ upload_file ∧ m ≠ push_file ∧
     evs = [ECall m [] kw] ∧ o = call_outcome env m [] kw) ∨
  (∃ path, evs = [EOpen path "rb"] ∧ o = Raise (IOError path)) ∨
  (∃ path args,
     evs = [EOpen path "rb"; ECall upload_file args ∅] ∧
     fst (remote env upload_file args ∅) = false ∧
     o = call_outcome env upload_file args ∅) ∨
  (∃ path args kw,
     evs = [EOpen path "rb"; ECall upload_file args ∅; ECall push_file [] kw] ∧
     fst (remote env upload_file args ∅) = true ∧
     o = call_outcome env push_file [] kw).

(** The exit of [main] after a push. *)
Definition exit_after (o : outcome unit) : outcome Z :=
  match o with
  | Ret _ => Ret 0
  | Raise e => Raise e
  | OutOfFuel => OutOfFuel
  end.

(** A run is a stretch without remote calls followed by at most one push;
    without a push it cannot return anything but 1. *)
Definition run_shape (env : Env) (c : M Z) : Prop :=
  ∀ w, ∃ before push,
    log (snd (c w)) = log w ++ before ++ push ∧
    Forall (λ e, is_call e = false) before ∧
    ((push = [] ∧ ∀ z, fst (c w) = Ret z → z = 1) ∨
     (∃ o, push_shape env push o ∧ fst (c w) = exit_after o)).

(** A computation that leaves the files and the mask alone. *)
Definition untouched {A} (c : M A) : Prop :=
  ∀ w, fs (snd (c w)) = fs w ∧ umask (snd (c w)) = umask w.

(** * Properties *)

(** ** Strings and the URL pattern *)

Lemma str_app_cons c s t : String c s +:+ t = String c (s +:+ t).
Proof. reflexivity. Qed.

Lemma str_app_nil_l t : "" +:+ t = t.
Proof. reflexivity. Qed.

Lemma str_app_nil_r s : s +:+ "" = s.
Proof. induction s as [|c s IH]; [done|]. by rewrite str_app_cons, IH. Qed.

Lemma str_app_assoc s t u : (s +:+ t) +:+ u = s +:+ t +:+ u.
Proof. induction s as [|c s IH]; [done|]. by rewrite !str_app_cons, IH. Qed.

Lemma match_plus_spec p k s :
  match_plus p k s = true ↔
  ∃ pre post, s = pre +:+ post ∧ pre ≠ "" ∧ all_chars p pre = true ∧ k post = true.
Proof.
  induction s as [|c s IH]; simpl.
  - split; [done|]. intros (pre & post & Hs & Hne & _).
    destruct pre; [done|]. by rewrite str_app_cons in Hs.
  - rewrite andb_true_iff, orb_true_iff, IH. split.
    + intros [Hc [(pre & post & -> & _ & Hall & Hk)|Hk]].
      * exists (String c pre), post. rewrite str_app_cons. simpl. rewrite Hc, Hall. done.
      * exists (String c ""), s. simpl. rewrite Hc. done.
    + intros (pre & post & Hs & Hne & Hall & Hk).
      destruct pre as [|c' pre]; [done|].
      rewrite str_app_cons in Hs. simplify_eq. simpl in Hall.
      apply andb_true_iff in Hall as [Hc Hall]. split; [done|].
      destruct pre as [|c'' pre].
      * right. by rewrite str_app_nil_l.
      * left. exists (String c'' pre), post. done.
Qed.

Lemma at_eol_spec s : at_eol s = true ↔ s = "" ∨ s = nl.
Proof.
  unfold at_eol. rewrite orb_true_iff, !bool_decide_eq_true. done.
Qed.

Lemma URL_RE_not_later s : re_search_from URL_RE false s = false.
Proof. induction s as [|c s IH]; simpl; [done|]. by rewrite IH. Qed.

Lemma URL_RE_search_anchored s : re_search URL_RE s = re_match URL_RE true s.
Proof.
  unfold re_search. destruct s as [|c s]; [done|].
  cbn [re_search_from]. by rewrite URL_RE_not_later, orb_false_r.
Qed.

(** The matcher accepts exactly the strings of [url_shape]. *)
Lemma URL_RE_search_iff s : re_search URL_RE s = true ↔ url_shape s.
Proof.
  rewrite URL_RE_search_anchored. unfold URL_RE, url_shape.
  cbn [re_match andb]. rewrite match_plus_spec. split.
  - intros (scheme & post & -> & Hne & Halpha & Hpost).
    destruct post as [|c1 [|c2 [|c3 post]]]; try done;
      try (by repeat (case_bool_decide; simpl in Hpost; try done)).
    repeat (case_bool_decide; [|done]). simpl in Hpost. subst.
    apply match_plus_spec in Hpost as (rest & tail & -> & Hr & Hdots & Htail).
    rewrite andb_true_r in Htail. apply at_eol_spec in Htail.
    exists scheme, rest, tail. done.
  - intros (scheme & rest & tail & -> & Hne & Halpha & Hr & Hdots & Htail).
    exists scheme, ("://" +:+ rest +:+ tail). repeat split; try done.
    rewrite !str_app_cons, str_app_nil_l. rewrite !bool_decide_eq_true_2 by done. simpl.
    apply match_plus_spec. exists rest, tail. repeat split; try done.
    rewrite andb_true_r. by apply at_eol_spec.
Qed.

(** ** Classification *)

(** C1, as amended.  [_data_type] checks in a fixed order: an existing
    regular file is ["file"] whatever its name looks like; otherwise a
    string made of one or more letters, [://] and a remainder that is a
    non-empty run of characters other than the newline (optionally followed
    by one final newline) is ["url"]; everything else is ["text"]. *)
Theorem data_type_order (w : world) (argument : string) :
  ∃ kind,
    _data_type argument w = (Ret kind, logged w [EIsFile argument]) ∧
    (kind = "file" ↔ isfile (fs w) argument = true) ∧
    (kind = "url" ↔ isfile (fs w) argument = false ∧ url_shape argument) ∧
    (kind = "text" ↔ isfile (fs w) argument = false ∧ ¬ url_shape argument).
Proof.
  unfold _data_type, os_path_isfile, bind, emit, ret. simpl.
  destruct (isfile (fs w) argument) eqn:Hfile.
  - exists "file". split; [done|]. split_and!; split; try done; by intros [? _].
  - destruct (re_search URL_RE argument) eqn:Hre.
    + apply URL_RE_search_iff in Hre. exists "url". split; [done|].
      split_and!; split; try done. by intros [_ ?].
    + assert (¬ url_shape argument).
      { intros H%URL_RE_search_iff. congruence. }
      exists "text". split; [done|]. split_and!; split; try done.
      by intros [_ ?].
Qed.

(** The specification's wording is too generous on the remainder: a
    newline is a non-empty remainder for the specification and not for
    [.+]. *)
Lemma data_type_newline_remainder :
  isfile (fs fresh_world) ("a://" +:+ nl +:+ "b") = false ∧
  url_shape_spec ("a://" +:+ nl +:+ "b") ∧
  fst (_data_type ("a://" +:+ nl +:+ "b") fresh_world) = Ret "text".
Proof.
  split; [reflexivity|]. split; [|reflexivity].
  exists "a", (nl +:+ "b"). repeat split; done.
Qed.

Example data_type_link :
  fst (_data_type "http://example.com" fresh_world) = Ret "url".
Proof. reflexivity. Qed.

Example data_type_note :
  fst (_data_type "hello world" fresh_world) = Ret "text".
Proof. reflexivity. Qed.

Example data_type_file_named_like_url :
  fst (_data_type "http://example.com"
         {| fs := {["http://example.com" := RegFile "x" mode_0600]};
            umask := 0; stdin_pos := 0; log := [] |}) = Ret "file".
Proof. reflexivity. Qed.

(** ** Runs without remote calls *)

Lemma quiet_pointwise {A} (c : M A) :
  (∀ w, ∃ c' : M A, c w = c' w ∧ quiet c') → quiet c.
Proof. intros H w. destruct (H w) as (c' & -> & Hq). apply Hq. Qed.

Lemma quiet_ret {A} (a : A) : quiet (ret a).
Proof. intros w. exists []. by rewrite app_nil_r. Qed.

Lemma quiet_raise {A} (e : exn) : quiet (raise (A:=A) e).
Proof. intros w. exists []. by rewrite app_nil_r. Qed.

Lemma quiet_out_of_fuel {A} : quiet (out_of_fuel (A:=A)).
Proof. intros w. exists []. by rewrite app_nil_r. Qed.

Lemma quiet_emit (e : event) : is_call e = false → quiet (emit e).
Proof. intros He w. exists [e]. split; [done|]. by constructor. Qed.

Lemma quiet_bind {A B} (c : M A) (k : A → M B) :
  quiet c → (∀ a, quiet (k a)) → quiet (bind c k).
Proof.
  intros Hc Hk w. unfold bind. destruct (Hc w) as (evs1 & H1 & F1).
  destruct (c w) as [[a|e|] w1]; simpl in *.
  - destruct (Hk a w1) as (evs2 & H2 & F2). exists (evs1 ++ evs2).
    split; [by rewrite H2, H1, (assoc_L (++))|by apply Forall_app].
  - by exists evs1.
  - by exists evs1.
Qed.

Lemma quiet_try_finally {A} (body : M A) (cleanup : M unit) :
  quiet body → quiet cleanup → quiet (try_finally body cleanup).
Proof.
  intros Hb Hc w. unfold try_finally. destruct (Hb w) as (evs1 & H1 & F1).
  destruct (body w) as [[a|e|] w1]; simpl in *; [| |by exists evs1];
    destruct (Hc w1) as (evs2 & H2 & F2);
    destruct (cleanup w1) as [[[]|e'|] w2]; simpl in *;
    exists (evs1 ++ evs2);
    (split; [by rewrite H2, H1, (assoc_L (++))|by apply Forall_app]).
Qed.

Create HintDb quiet discriminated.
#[local] Hint Resolve quiet_ret quiet_raise quiet_out_of_fuel : quiet.
#[local] Hint Extern 1 (quiet (emit _)) => apply quiet_emit; reflexivity : quiet.
#[local] Hint Extern 1 (quiet (print _)) => apply quiet_emit; reflexivity : quiet.
#[local] Hint Extern 2 (quiet (bind _ _)) => apply quiet_bind; [|intros ?] : quiet.
#[local] Hint Extern 2 (quiet (try_finally _ _)) => apply quiet_try_finally : quiet.
#[local] Hint Extern 3 (quiet (if ?b then _ else _)) => destruct b : quiet.
#[local] Hint Extern 3 (quiet (match ?x with Some _ => _ | None => _ end)) =>
  destruct x : quiet.

(** Opens a definition of the form [λ w, body w] at the current world. *)
Ltac quiet_at_world f :=
  apply quiet_pointwise; intros ?w; eexists; split; [unfold f; reflexivity|].

Lemma quiet_os_path_isfile path : quiet (os_path_isfile path).
Proof. quiet_at_world os_path_isfile. auto with quiet. Qed.

Lemma quiet_os_umask mask : quiet (os_umask mask).
Proof. intros w. exists [EUmask mask]. split; [done|]. by constructor. Qed.

Lemma quiet_set_node path n : quiet (set_node path n).
Proof. intros w. exists []. by rewrite app_nil_r. Qed.
#[local] Hint Resolve quiet_os_path_isfile quiet_os_umask quiet_set_node : quiet.

Lemma quiet_open path mode : quiet (open_ path mode).
Proof.
  quiet_at_world open_. apply quiet_bind; [auto with quiet|intros _].
  destruct (fs w !! path) as [[content perm| |content perm]|]; auto 7 with quiet.
Qed.

Lemma quiet_file_read f : quiet (file_read f).
Proof. apply quiet_ret. Qed.

Lemma quiet_file_write env f data : quiet (file_write env f data).
Proof.
  quiet_at_world file_write. apply quiet_bind; [auto with quiet|intros _].
  destruct (write_ok env (f.1) data); [|auto with quiet].
  destruct (fs w !! f.1) as [[content perm| |content perm]|]; auto with quiet.
Qed.
#[local] Hint Resolve quiet_open quiet_file_read quiet_file_write : quiet.

Lemma quiet_with_open {A} path mode (body : string * string → M A) :
  (∀ f, quiet (body f)) → quiet (with_open path mode body).
Proof. intros H. unfold with_open. auto with quiet. Qed.

Lemma quiet_raw_input env prompt : quiet (raw_input env prompt).
Proof.
  quiet_at_world raw_input. apply quiet_bind; [auto with quiet|intros _].
  destruct (stdin env (stdin_pos w)); [|auto with quiet].
  intros w'. exists []. by rewrite app_nil_r.
Qed.

Lemma quiet_sys_stdin_read env fuel : quiet (sys_stdin_read env fuel).
Proof.
  quiet_at_world sys_stdin_read. apply quiet_bind; [auto with quiet|intros _].
  destruct (read_lines env fuel (stdin_pos w)) as [[text pos]|]; [|auto with quiet].
  intros w'. exists []. by rewrite app_nil_r.
Qed.
#[local] Hint Resolve quiet_raw_input quiet_sys_stdin_read : quiet.

Lemma quiet_private_files {A} (body : M A) : quiet body → quiet (private_files body).
Proof. intros H. unfold private_files. auto 6 with quiet. Qed.

Lemma quiet_get_api_key env : quiet (_get_api_key env).
Proof.
  unfold _get_api_key, read_line. apply quiet_bind; [auto with quiet|intros there].
  destruct there; simpl.
  - apply quiet_with_open. auto with quiet.
  - do 3 (apply quiet_bind; [auto with quiet|intros ?]).
    apply quiet_bind; [|auto with quiet].
    apply quiet_private_files, quiet_with_open. auto with quiet.
Qed.

Lemma quiet_print_menu i devs : quiet (print_menu i devs).
Proof. revert i. induction devs as [|d devs IH]; intros i; simpl; auto with quiet. Qed.

Lemma quiet_prompt_loop env fuel devs : quiet (prompt_loop env fuel devs).
Proof.
  induction fuel as [|fuel IH]; simpl; [auto with quiet|].
  apply quiet_bind; [auto with quiet|intros line].
  destruct (py_int (strip line)) as [choice|]; [|done].
  destruct (in_range choice devs); [|done].
  destruct (devs !! Z.to_nat choice); auto with quiet.
Qed.

Lemma quiet_prompt_device env fuel devs : quiet (_prompt_device env fuel devs).
Proof.
  unfold _prompt_device. apply quiet_bind; [apply quiet_print_menu|intros _].
  apply quiet_prompt_loop.
Qed.

Lemma quiet_parse_args argv : quiet (_parse_args argv).
Proof. intros w. exists []. rewrite app_nil_r. unfold _parse_args. by destruct (existsb _ _). Qed.

Lemma quiet_PushBullet env api_key : quiet (PushBullet env api_key).
Proof. unfold PushBullet. auto with quiet. Qed.

Lemma quiet_data_type argument : quiet (_data_type argument).
Proof.
  unfold _data_type. apply quiet_bind; [auto with quiet|intros b].
  destruct b; [auto with quiet|]. destruct (re_search _ _); auto with quiet.
Qed.
#[local] Hint Resolve quiet_get_api_key quiet_prompt_device quiet_parse_args
  quiet_PushBullet quiet_data_type : quiet.

(** ** Remote failures *)

Section Failure.
Context (env : Env).

Lemma aborts_pointwise {A} (c : M A) :
  (∀ w, ∃ c' : M A, c w = c' w ∧ aborts_on_failure env c') → aborts_on_failure env c.
Proof. intros H w. destruct (H w) as (c' & -> & Hq). apply Hq. Qed.

Lemma aborts_of_quiet {A} (c : M A) : quiet c → aborts_on_failure env c.
Proof.
  intros H w. destruct (H w) as (evs & Hl & F). exists evs. split; [done|].
  intros m args kw Hin _. rewrite Forall_forall in F. by apply F in Hin.
Qed.

Lemma aborts_bind {A B} (c : M A) (k : A → M B) :
  aborts_on_failure env c → (∀ a, aborts_on_failure env (k a)) →
  aborts_on_failure env (bind c k).
Proof.
  intros Hc Hk w. unfold bind. destruct (Hc w) as (evs1 & H1 & F1).
  destruct (c w) as [[a|e|] w1] eqn:Hcw; simpl in *;
    [|exists evs1; split; [done|]; intros m args kw Hin Hfail;
      destruct (F1 m args kw Hin Hfail) as [Ho Hlast]; by simplify_eq..].
  destruct (Hk a w1) as (evs2 & H2 & F2). exists (evs1 ++ evs2).
  split; [by rewrite H2, H1, (assoc_L (++))|].
  intros m args kw [Hin|Hin]%elem_of_app Hfail.
  - by destruct (F1 m args kw Hin Hfail).
  - destruct (F2 m args kw Hin Hfail) as [Ho Hlast]. split; [done|].
    rewrite last_app, Hlast. done.
Qed.

Lemma try_finally_skip {A} (c : M A) w : try_finally c (ret ()) w = c w.
Proof. unfold try_finally, ret. by destruct (c w) as [[a|e|] w1]. Qed.

Lemma aborts_with_open {A} path mode (body : string * string → M A) :
  (∀ f, aborts_on_failure env (body f)) →
  aborts_on_failure env (with_open path mode body).
Proof.
  intros H. unfold with_open. apply aborts_bind.
  - apply aborts_of_quiet, quiet_open.
  - intros f. apply aborts_pointwise. intros w. exists (body f).
    split; [apply try_finally_skip|apply H].
Qed.

(** What a decorated method of the client does. *)
Lemma wrapped_call m args kw w :
  func_call (raise_for_status env (bound_method env m)) args kw w =
  (if fst (remote env m args kw) then Ret (snd (remote env m args kw))
   else Raise (PushbulletException (failure_message env m args kw)),
   logged w [ECall m args kw]).
Proof.
  unfold raise_for_status, bound_method, failure_message; simpl.
  unfold bind, emit, ret, raise; simpl.
  destruct (remote env m args kw) as [[] data]; simpl; [done|].
  by rewrite !str_app_assoc.
Qed.

Lemma aborts_wrapped_call m args kw :
  aborts_on_failure env (func_call (raise_for_status env (bound_method env m)) args kw).
Proof.
  intros w. rewrite wrapped_call. exists [ECall m args kw]. split; [done|].
  intros m' args' kw' Hin%list_elem_of_singleton Hfail. simplify_eq.
  by rewrite Hfail.
Qed.

Lemma aborts_push device raw_data data_type :
  aborts_on_failure env
    (_push (decorate env (raw_client env)) device raw_data data_type).
Proof.
  unfold _push. repeat case_bool_decide.
  - apply aborts_bind.
    + apply aborts_with_open. intros f. apply aborts_wrapped_call.
    + intros file_data. apply aborts_bind; [apply aborts_wrapped_call|].
      intros _. apply aborts_of_quiet, quiet_ret.
  - apply aborts_bind; [apply aborts_wrapped_call|].
    intros _. apply aborts_of_quiet, quiet_ret.
  - apply aborts_bind; [apply aborts_wrapped_call|].
    intros _. apply aborts_of_quiet, quiet_ret.
Qed.

Lemma aborts_main_dispatch fuel args device :
  aborts_on_failure env
    (main_dispatch env fuel (decorate env (raw_client env)) args device).
Proof.
  unfold main_dispatch. apply aborts_bind.
  - apply aborts_of_quiet. destruct (msg args); auto 6 with quiet.
  - intros content. apply aborts_bind; [apply aborts_push|].
    intros _. apply aborts_of_quiet, quiet_ret.
Qed.

(** [main] once the command line is parsed, the key is known and the client
    object is built. *)
Lemma main_unfold fuel argv w :
  main env fuel argv w =
  (let* args := _parse_args argv in
   let* api_key := _get_api_key env in
   emit (EConnect api_key) ;;;
   let pb := decorate env (raw_client env) in
   if negb (all_ args) then
     if (length (devices env) <? 1)%nat then
       print "You don't have any devices!" ;;;
       print "Add one at <https://www.pushbullet.com/>." ;;;
       ret 1
     else if interactive args then
       let* d := _prompt_device env fuel (devices env) in
       main_dispatch env fuel pb args (Some d)
     else if truthy (device args) then
       match devices_by_names (devices env) !! default "" (device args) with
       | None =>
           print ("Unknown device " +:+ default "" (device args)
                  +:+ ". Available devices: "
                  +:+ join ", " (dict_keys (devices_by_names (devices env)))) ;;;
           ret 1
       | Some d => main_dispatch env fuel pb args (Some d)
       end
     else main_dispatch env fuel pb args None
   else main_dispatch env fuel pb args None) w.
Proof.
  unfold main, PushBullet, bind, emit, ret.
  destruct (_parse_args argv w) as [[args|e|] w1]; [|done..].
  by destruct (_get_api_key env w1) as [[key|e|] w2].
Qed.

Lemma aborts_main fuel argv : aborts_on_failure env (main env fuel argv).
Proof.
  apply aborts_pointwise. intros w. eexists. split; [apply main_unfold|].
  apply aborts_bind; [apply aborts_of_quiet; auto with quiet|intros args].
  apply aborts_bind; [apply aborts_of_quiet; auto with quiet|intros key].
  apply aborts_bind; [apply aborts_of_quiet; auto with quiet|intros _].
  cbv zeta.
  destruct (negb (all_ args)); [|apply aborts_main_dispatch].
  destruct (length (devices env) <? 1)%nat; [apply aborts_of_quiet; auto with quiet|].
  destruct (interactive args).
  { apply aborts_bind; [apply aborts_of_quiet; auto with quiet|intros d].
    apply aborts_main_dispatch. }
  destruct (truthy (device args)); [|apply aborts_main_dispatch].
  destruct (devices_by_names (devices env) !! default "" (device args)).
  - apply aborts_main_dispatch.
  - apply aborts_of_quiet; auto with quiet.
Qed.

(** C3.  Each of the four decorated operations logs its call and then
    either hands back the payload unchanged (success) or raises the single
    exception type of the script, whose message names the operation and
    carries the rendering of the failure payload.  In a whole run, a call
    that reports failure is the last event, and the run ends with that
    exception. *)
Theorem remote_failure_is_fatal :
  (∀ m args kw w,
     func_call (raise_for_status env (bound_method env m)) args kw w =
     (if fst (remote env m args kw) then Ret (snd (remote env m args kw))
      else Raise (PushbulletException
             ("<bound method PushBullet." +:+ method_name m +:+ " of "
              +:+ obj_repr env +:+ "> failed: "
              +:+ payload_str env (snd (remote env m args kw)))),
      logged w [ECall m args kw])) ∧
  (∀ fuel argv w, ∃ evs,
     log (snd (main env fuel argv w)) = log w ++ evs ∧
     ∀ m args kw, ECall m args kw ∈ evs → fst (remote env m args kw) = false →
       fst (main env fuel argv w) =
         Raise (PushbulletException
           ("<bound method PushBullet." +:+ method_name m +:+ " of "
            +:+ obj_repr env +:+ "> failed: "
            +:+ payload_str env (snd (remote env m args kw)))) ∧
       last evs = Some (ECall m args kw)).
Proof.
  split.
  - intros. apply wrapped_call.
  - intros fuel argv w. apply aborts_main.
Qed.

End Failure.

(** ** The credential store *)

Section Credential.
Context (env : Env).

Ltac run :=
  unfold _get_api_key, read_line, private_files, with_open, try_finally,
    os_path_isfile, os_umask, open_, file_write, file_read, raw_input,
    set_node, print, bind, emit, ret, raise, logged, isfile; simpl.

Lemma restrictive_mode : Z.land mode_0666 (Z.lnot mask_077) = mode_0600.
Proof. reflexivity. Qed.

(** First run: the key is asked for, written and returned. *)
Lemma get_api_key_first_run w line :
  fs w !! KEY_PATH env = None →
  stdin env (stdin_pos w) = Some line →
  write_ok env (KEY_PATH env) (strip (chomp line)) = true →
  _get_api_key env w =
    (Ret (strip (chomp line)),
     {| fs := <[KEY_PATH env := RegFile (strip (chomp line)) mode_0600]> (fs w);
        umask := umask w;
        stdin_pos := S (stdin_pos w);
        log := log w ++
          [EIsFile (KEY_PATH env);
           EPrint "What's your API key?";
           EPrint "Find it at <https://www.pushbullet.com/account>.";
           EPrompt "> ";
           EUmask mask_077;
           EOpen (KEY_PATH env) "w";
           EWrite (KEY_PATH env) (strip (chomp line));
           EUmask (umask w)] |}).
Proof.
  intros Hnone Hline Hok. run. rewrite Hnone. simpl. rewrite Hline. simpl.
  rewrite Hnone. simpl. rewrite Hok. rewrite lookup_insert_eq. simpl.
  rewrite insert_insert_eq, restrictive_mode.
  repeat rewrite <- (assoc_L (++)). done.
Qed.

(** Later runs: the file is read back, nothing is asked. *)
Lemma get_api_key_existing w content perm :
  fs w !! KEY_PATH env = Some (RegFile content perm) →
  Z.land perm owner_read ≠ 0 →
  _get_api_key env w =
    (Ret content, logged w [EIsFile (KEY_PATH env); EOpen (KEY_PATH env) "r"]).
Proof.
  intros Hfile Hperm. run. rewrite Hfile. simpl. rewrite Hfile.
  apply Z.eqb_neq in Hperm. rewrite Hperm. simpl.
  by rewrite <- (assoc_L (++)).
Qed.

(** C4.  Without a credential file and with ["ABC123\n"] typed at the
    prompt, [_get_api_key] returns ["ABC123"] and leaves a file that holds
    exactly ["ABC123"] with mode 0600 (no bit for group or others); run
    again in the resulting world it returns ["ABC123"] again, and all it
    does is test for the file and open it for reading. *)
Theorem credential_round_trip (w : world) :
  fs w !! KEY_PATH env = None →
  stdin env (stdin_pos w) = Some ("ABC123" +:+ nl) →
  write_ok env (KEY_PATH env) "ABC123" = true →
  let first := _get_api_key env w in
  let second := _get_api_key env (snd first) in
  fst first = Ret "ABC123" ∧
  fs (snd first) !! KEY_PATH env = Some (RegFile "ABC123" mode_0600) ∧
  Z.land mode_0600 mask_077 = 0 ∧
  umask (snd first) = umask w ∧
  fst second = Ret "ABC123" ∧
  snd second = logged (snd first) [EIsFile (KEY_PATH env); EOpen (KEY_PATH env) "r"].
Proof.
  intros Hnone Hline Hok first second.
  assert (Hfirst := get_api_key_first_run w _ Hnone Hline Hok).
  change (strip (chomp ("ABC123" +:+ nl))) with "ABC123" in Hfirst.
  subst second first. rewrite Hfirst. simpl.
  rewrite (get_api_key_existing _ "ABC123" mode_0600);
    [|by simpl; rewrite lookup_insert_eq|done].
  simpl. rewrite lookup_insert_eq. done.
Qed.

(** What [private_files] does around any body: the body runs under the
    mask 077, and whether it returns or raises, the previous mask is put
    back. *)
Lemma private_files_run {A} (body : M A) (w : world) :
  private_files body w =
  match body (with_umask mask_077 (logged w [EUmask mask_077])) with
  | (OutOfFuel, w') => (OutOfFuel, w')
  | (r, w') => (r, with_umask (umask w) (logged w' [EUmask (umask w)]))
  end.
Proof.
  unfold private_files, try_finally, os_umask, bind, ret, with_umask, logged; simpl.
  by destruct (body _) as [[a|e|] w'].
Qed.

(** C8.  [private_files] runs its body under the mask 077 and puts the
    previous mask back when the body returns and when it raises.  In
    [_get_api_key] the mask is the same after the call as before on every
    path.  It is changed on one path only, the one on which the key is
    written: after the line has been read, 077 is installed, the credential
    file is opened and written, and the old mask is restored, with nothing
    else in between; a credential file created there has mode 0600.  With a
    key file in place, or without a line to read, the mask is never
    touched.  When the write fails the call raises, and the last thing it
    did was to restore the old mask. *)
Theorem umask_restored :
  (∀ A (body : M A) (w : world),
     private_files body w =
     match body (with_umask mask_077 (logged w [EUmask mask_077])) with
     | (OutOfFuel, w') => (OutOfFuel, w')
     | (r, w') => (r, with_umask (umask w) (logged w' [EUmask (umask w)]))
     end) ∧
  (∀ w : world,
     let w' := snd (_get_api_key env w) in
     umask w' = umask w ∧
     (isfile (fs w) (KEY_PATH env) = true →
      log w' = log w ++ [EIsFile (KEY_PATH env); EOpen (KEY_PATH env) "r"]) ∧
     (isfile (fs w) (KEY_PATH env) = false →
      stdin env (stdin_pos w) = None →
      log w' = log w ++
        [EIsFile (KEY_PATH env);
         EPrint "What's your API key?";
         EPrint "Find it at <https://www.pushbullet.com/account>.";
         EPrompt "> "]) ∧
     (∀ line,
        isfile (fs w) (KEY_PATH env) = false →
        stdin env (stdin_pos w) = Some line →
        ∃ written,
          log w' = log w ++
            [EIsFile (KEY_PATH env);
             EPrint "What's your API key?";
             EPrint "Find it at <https://www.pushbullet.com/account>.";
             EPrompt "> ";
             EUmask mask_077;
             EOpen (KEY_PATH env) "w"] ++ written ++ [EUmask (umask w)] ∧
          (written = [] ∨ written = [EWrite (KEY_PATH env) (strip (chomp line))]) ∧
          (fs w !! KEY_PATH env = None →
           written = [EWrite (KEY_PATH env) (strip (chomp line))] ∧
           ∃ content, fs w' !! KEY_PATH env = Some (RegFile content mode_0600)))) ∧
  (∀ (w : world) (line : string),
     fs w !! KEY_PATH env = None →
     stdin env (stdin_pos w) = Some line →
     write_ok env (KEY_PATH env) (strip (chomp line)) = false →
     fst (_get_api_key env w) = Raise (IOError (KEY_PATH env)) ∧
     umask (snd (_get_api_key env w)) = umask w ∧
     last (log (snd (_get_api_key env w))) = Some (EUmask (umask w))).
Proof.
  split_and!.
  - apply @private_files_run.
  - intros w. run.
    destruct (fs w !! KEY_PATH env) as [[content perm| |content perm]|] eqn:Hfile; simpl.
    + rewrite Hfile.
      destruct (Z.land perm owner_read =? 0)%Z; simpl;
        rewrite <- !(assoc_L (++)); simpl; split_and!; done.
    + destruct (stdin env (stdin_pos w)) as [line|]; simpl.
      * rewrite Hfile. simpl. rewrite <- !(assoc_L (++)); simpl.
        split_and!; [done..|]. intros ? _ [= <-]. exists [].
        split_and!; [done|by left|done].
      * rewrite <- !(assoc_L (++)); simpl. split_and!; done.
    + destruct (stdin env (stdin_pos w)) as [line|]; simpl.
      * rewrite Hfile. simpl.
        destruct (Z.land perm owner_write =? 0)%Z; simpl.
        -- rewrite <- !(assoc_L (++)); simpl.
           split_and!; [done..|]. intros ? _ [= <-]. exists [].
           split_and!; [done|by left|done].
        -- destruct (write_ok env (KEY_PATH env) (strip (chomp line))); simpl;
             rewrite ?Hfile; simpl; rewrite <- !(assoc_L (++)); simpl;
             (split_and!; [done..|]); intros ? _ [= <-]; eexists [_];
             (split_and!; [done|by right|done]).
      * rewrite <- !(assoc_L (++)); simpl. split_and!; done.
    + destruct (stdin env (stdin_pos w)) as [line|]; simpl.
      * rewrite Hfile. simpl.
        destruct (write_ok env (KEY_PATH env) (strip (chomp line))); simpl;
          rewrite ?lookup_insert_eq; simpl; rewrite <- !(assoc_L (++)); simpl;
          (split_and!; [done..|]); intros ? _ [= <-]; eexists [_];
          (split_and!; [done|by right|]); intros _; (split; [done|]);
          rewrite ?insert_insert_eq, ?lookup_insert_eq, restrictive_mode; by eexists.
      * rewrite <- !(assoc_L (++)); simpl. split_and!; done.
  - intros w line Hnone Hline Hfail. run. rewrite Hnone. simpl.
    rewrite Hline. simpl. rewrite Hnone. simpl. rewrite Hfail. simpl.
    split_and!; [done..|]. by rewrite !last_snoc.
Qed.

End Credential.

(** ** The command line *)

Lemma conflicts_false f seen : conflicts f seen = false → ∀ g, g ∈ seen → g = f.
Proof.
  unfold conflicts. intros H%bool_decide_eq_false g Hg.
  destruct (decide (g = f)) as [|Hne]; [done|].
  destruct H. apply Exists_exists. eauto.
Qed.

Lemma modes_seen_take f value seen ns :
  conflicts f seen = false →
  modes_seen seen ns → modes_seen (f :: seen) (take_action f value ns).
Proof.
  intros Hconf' (Ha & Hi & Hd & Hsame).
  pose proof (conflicts_false _ _ Hconf') as Hconf.
  split_and!.
  - destruct f; simpl; intros H; [by left|right; auto..].
  - destruct f; simpl; intros H; [right; auto|by left|right; auto].
  - destruct f; simpl; intros H; [right; auto..|by left].
  - intros g1 g2 [->|H1]%elem_of_cons [->|H2]%elem_of_cons; auto.
    symmetry; auto.
Qed.

Lemma take_actions_modes l :
  ∀ seen ns seen' ns', take_actions l seen ns = inr (seen', ns') →
    modes_seen seen ns → modes_seen seen' ns'.
Proof.
  induction l as [|[|f] l IH]; intros seen ns seen' ns' Ht Hinv; simpl in Ht.
  - by simplify_eq.
  - done.
  - destruct (conflicts f seen) eqn:Hconf; [done|].
    apply (IH _ _ _ _ Ht). by apply modes_seen_take.
Qed.

Lemma take_device_modes v seen ns seen' ns' :
  take_device v seen ns = inr (seen', ns') →
  modes_seen seen ns → modes_seen seen' ns'.
Proof.
  unfold take_device. destruct (conflicts FDevice seen) eqn:Hconf; [done|].
  intros [= <- <-] Hinv. by apply (modes_seen_take FDevice).
Qed.

Lemma modes_seen_add_word s seen ns : modes_seen seen ns → modes_seen seen (add_word s ns).
Proof. by intros (Ha & Hi & Hd & Hsame). Qed.

(** The namespace of a successful parse has at most one mode switched on. *)
Lemma consume_modes n :
  ∀ toks st extras seen ns ns', (length toks ≤ n)%nat →
    consume toks st extras seen ns = Ret ns' →
    modes_seen seen ns → ∃ seen', modes_seen seen' ns'.
Proof.
  induction n as [|n IH]; intros toks st extras seen ns ns' Hlen Hc Hinv.
  { destruct toks; [|simpl in Hlen; lia]. simpl in Hc.
    destruct extras; simplify_eq. eauto. }
  destruct toks as [|[s [| |[a|] o e|]] rest]; simpl in Hc, Hlen.
  - destruct extras; simplify_eq. eauto.
  - assert (Hl : (length rest ≤ n)%nat) by lia.
    destruct st; apply (IH _ _ _ _ _ _ Hl Hc); auto using modes_seen_add_word.
  - assert (Hl : (length rest ≤ n)%nat) by lia.
    destruct st; by apply (IH _ _ _ _ _ _ Hl Hc).
  - assert (Hl : (length rest ≤ n)%nat) by lia.
    destruct (expand a o e) as [x|taken [[v|]|]]; [done|..].
    + destruct (take_actions taken seen ns) as [x|[seen1 ns1]] eqn:Ht; [done|].
      destruct (take_device v seen1 ns1) as [x|[seen2 ns2]] eqn:Hd; [done|].
      apply (IH _ _ _ _ _ _ Hl Hc).
      eauto using take_actions_modes, take_device_modes.
    + destruct rest as [|[v [| | |]] rest]; try done.
      destruct (take_actions taken seen ns) as [x|[seen1 ns1]] eqn:Ht; [done|].
      destruct (take_device v seen1 ns1) as [x|[seen2 ns2]] eqn:Hd; [done|].
      simpl in Hl. assert (Hl' : (length rest ≤ n)%nat) by lia.
      apply (IH _ _ _ _ _ _ Hl' Hc).
      eauto using take_actions_modes, take_device_modes.
    + destruct (take_actions taken seen ns) as [x|[seen1 ns1]] eqn:Ht; [done|].
      apply (IH _ _ _ _ _ _ Hl Hc). eauto using take_actions_modes.
  - assert (Hl : (length rest ≤ n)%nat) by lia.
    by apply (IH _ _ _ _ _ _ Hl Hc).
  - done.
Qed.

Lemma parse_args_consume argv w args :
  fst (_parse_args argv w) = Ret args →
  consume (classify argv) MsgUnseen false [] default_namespace = Ret args.
Proof. unfold _parse_args. by destruct (existsb _ _). Qed.

Lemma parse_args_world argv w : snd (_parse_args argv w) = w.
Proof. unfold _parse_args. by destruct (existsb _ _). Qed.

Lemma modes_seen_default : modes_seen [] default_namespace.
Proof.
  split_and!; simpl; try done; try (by intros [? ?]).
  by intros ?? ?%elem_of_nil.
Qed.

Lemma parse_args_device_only argv w args :
  fst (_parse_args argv w) = Ret args → is_Some (device args) →
  all_ args = false ∧ interactive args = false.
Proof.
  intros Hc%parse_args_consume Hdev.
  destruct (consume_modes _ _ _ _ _ _ _ (reflexivity _) Hc modes_seen_default)
    as (seen & Ha & Hi & Hd & Hsame).
  specialize (Hd Hdev). split.
  - destruct (all_ args); [|done]. by specialize (Hsame _ _ (Ha eq_refl) Hd).
  - destruct (interactive args); [|done]. by specialize (Hsame _ _ (Hi eq_refl) Hd).
Qed.

(** *** Two different options *)

Lemma agree_cons f seen : conflicts f seen = false → agree (f :: seen).
Proof.
  intros Hconf g1 g2. pose proof (conflicts_false _ _ Hconf) as Hseen.
  intros [->|H1]%elem_of_cons [->|H2]%elem_of_cons; [done|symmetry; auto|auto|].
  by rewrite (Hseen g1), (Hseen g2).
Qed.

Lemma cluster_fails e x : cluster e = ExpandFails x → x = SystemExit 2.
Proof.
  induction e as [|c e IH]; simpl; [by intros [= <-]|].
  destruct (option_action _) as [a|]; [|by intros [= <-]].
  destruct e as [|c' e'].
  - by destruct (zero_args a).
  - destruct (zero_args a); [|done].
    destruct (cluster (String c' e')) as [y|taken d]; [|done].
    simpl. intros [= <-]. by apply IH.
Qed.

Lemma expand_fails a o e x : expand a o e = ExpandFails x → x = SystemExit 2.
Proof.
  unfold expand. destruct e as [e|]; [|by destruct (zero_args a)].
  destruct (zero_args a); [|done].
  destruct (single_dash o); [|by intros [= <-]].
  destruct (cluster e) as [y|taken d] eqn:Hc; [|done].
  simpl. intros [= <-]. by eapply cluster_fails.
Qed.

(** Taking a list of actions: a failure is a conflict, or the exit of the
    help action; after a success every option taken has been seen. *)
Lemma take_actions_result l :
  ∀ seen ns, agree seen →
    match take_actions l seen ns with
    | inl e => e = SystemExit 2 ∨ (e = SystemExit 0 ∧ AHelp ∈ l)
    | inr (seen', ns') =>
        agree seen' ∧ (∀ f, f ∈ seen → f ∈ seen') ∧ (∀ f, AFlag f ∈ l → f ∈ seen')
    end.
Proof.
  induction l as [|[|f] l IH]; intros seen ns Hagree; simpl.
  - split_and!; [done..|]. by intros f ?%elem_of_nil.
  - right. split; [done|]. by left.
  - destruct (conflicts f seen) eqn:Hconf; [by left|].
    specialize (IH (f :: seen) (take_action f None ns) (agree_cons _ _ Hconf)).
    destruct (take_actions l _ _) as [e|[seen' ns']].
    + destruct IH as [->|[-> Hh]]; [by left|]. right. split; [done|]. by right.
    + destruct IH as (Ha & Hs & Hl). split_and!; [done| |].
      * intros g Hg. apply Hs. by right.
      * intros g [[= ->]|Hg]%elem_of_cons; [apply Hs; by left|by apply Hl].
Qed.

Lemma take_device_result v seen ns :
  match take_device v seen ns with
  | inl e => e = SystemExit 2
  | inr (seen', ns') => agree seen' ∧ (∀ f, f ∈ seen → f ∈ seen') ∧ FDevice ∈ seen'
  end.
Proof.
  unfold take_device. destruct (conflicts FDevice seen) eqn:Hconf; [done|].
  split_and!; [by apply agree_cons|by right|by left].
Qed.

(** The parse ends in a usage error, or with the help when the command
    line asks for it, or in a namespace; in the last case all the options
    that the command line specifies are the same one. *)
Lemma consume_specified n :
  ∀ toks st extras seen ns, (length toks ≤ n)%nat → agree seen →
    match consume toks st extras seen ns with
    | Ret _ =>
        ∃ seen', agree seen' ∧ (∀ f, f ∈ seen → f ∈ seen') ∧
          ∀ f, AFlag f ∈ List.concat (token_actions <$> toks) → f ∈ seen'
    | Raise e =>
        e = SystemExit 2 ∨
        (e = SystemExit 0 ∧ AHelp ∈ List.concat (token_actions <$> toks))
    | OutOfFuel => False
    end.
Proof.
  induction n as [|n IH]; intros toks st extras seen ns Hlen Hagree.
  { destruct toks; [|simpl in Hlen; lia]. simpl.
    destruct extras; [by left|]. exists seen. split_and!; [done..|].
    by intros f ?%elem_of_nil. }
  (* what remains once the first string, and the options it stands for,
     are dealt with *)
  assert (Hrest : ∀ (t : string * arg_class) rest st' extras' seen1 ns1,
    (length rest ≤ n)%nat → agree seen1 → (∀ f, f ∈ seen → f ∈ seen1) →
    (∀ f, AFlag f ∈ token_actions t → f ∈ seen1) →
    match consume rest st' extras' seen1 ns1 with
    | Ret _ =>
        ∃ seen', agree seen' ∧ (∀ f, f ∈ seen → f ∈ seen') ∧
          ∀ f, AFlag f ∈ token_actions t ++ List.concat (token_actions <$> rest) → f ∈ seen'
    | Raise e =>
        e = SystemExit 2 ∨
        (e = SystemExit 0 ∧ AHelp ∈ token_actions t ++ List.concat (token_actions <$> rest))
    | OutOfFuel => False
    end).
  { intros t rest st' extras' seen1 ns1 Hl Ha1 Hs1 Ht.
    specialize (IH rest st' extras' seen1 ns1 Hl Ha1).
    destruct (consume rest st' extras' seen1 ns1) as [ns'|e|]; [| |done].
    - destruct IH as (seen' & Ha & Hs & Hf). exists seen'. split_and!; [done|auto|].
      intros f [Hin|Hin]%elem_of_app; auto.
    - destruct IH as [->|[-> Hh]]; [by left|]. right. split; [done|].
      apply elem_of_app. by right. }
  destruct toks as [|[s cls] rest]; simpl in Hlen.
  { simpl. destruct extras; [by left|]. exists seen. split_and!; [done..|].
    by intros f ?%elem_of_nil. }
  assert (Hl : (length rest ≤ n)%nat) by lia.
  rewrite fmap_cons. cbn [List.concat].
  destruct cls as [| |[a|] o e|].
  - (* an argument *)
    specialize (Hrest (s, CPos) rest).
    simpl. destruct st; apply Hrest; try done; by intros f ?%elem_of_nil.
  - (* the separator *)
    specialize (Hrest (s, CSep) rest).
    simpl. destruct st; apply Hrest; try done; by intros f ?%elem_of_nil.
  - (* an option of the parser *)
    cbn [consume].
    assert (Hta : token_actions (s, COpt (Some a) o e) =
                  match expand a o e with
                  | Expanded taken None => taken
                  | Expanded taken (Some _) => taken ++ [AFlag FDevice]
                  | ExpandFails _ => []
                  end) by done.
    specialize (Hrest (s, COpt (Some a) o e)).
    destruct (expand a o e) as [x|taken [[v|]|]] eqn:Hexp; rewrite Hta in *.
    + left. by eapply expand_fails.
    + (* --device with its value attached *)
      pose proof (take_actions_result taken seen ns Hagree) as Ht.
      destruct (take_actions taken seen ns) as [x|[seen1 ns1]].
      { destruct Ht as [->|[-> Hh]]; [by left|]. right. split; [done|].
        rewrite !elem_of_app. auto. }
      destruct Ht as (Ha1 & Hs1 & Hf1).
      pose proof (take_device_result v seen1 ns1) as Hd.
      destruct (take_device v seen1 ns1) as [x|[seen2 ns2]]; [by left|].
      destruct Hd as (Ha2 & Hs2 & Hd2).
      apply Hrest; [done|done|auto|].
      intros f [Hin|[= ->]%list_elem_of_singleton]%elem_of_app; auto.
    + (* --device taking the next argument *)
      destruct rest as [|[v [| | |]] rest']; try (by left).
      pose proof (take_actions_result taken seen ns Hagree) as Ht.
      destruct (take_actions taken seen ns) as [x|[seen1 ns1]].
      { destruct Ht as [->|[-> Hh]]; [by left|]. right. split; [done|].
        rewrite !elem_of_app. auto. }
      destruct Ht as (Ha1 & Hs1 & Hf1).
      pose proof (take_device_result v seen1 ns1) as Hd.
      destruct (take_device v seen1 ns1) as [x|[seen2 ns2]]; [by left|].
      destruct Hd as (Ha2 & Hs2 & Hd2).
      simpl in Hl. assert (Hl' : (length rest' ≤ n)%nat) by lia.
      rewrite fmap_cons. cbn [List.concat].
      change (token_actions (v, CPos)) with (@nil action). cbn [app].
      apply Hrest; [done|done|auto|].
      intros f [Hin|[= ->]%list_elem_of_singleton]%elem_of_app; auto.
    + (* options without argument *)
      pose proof (take_actions_result taken seen ns Hagree) as Ht.
      destruct (take_actions taken seen ns) as [x|[seen1 ns1]].
      { destruct Ht as [->|[-> Hh]]; [by left|]. right. split; [done|].
        rewrite !elem_of_app. auto. }
      destruct Ht as (Ha1 & Hs1 & Hf1).
      by apply Hrest.
  - (* an unknown option *)
    specialize (Hrest (s, COpt None o e) rest).
    simpl. apply Hrest; try done. by intros f ?%elem_of_nil.
  - by left.
Qed.

Lemma agree_nil : agree [].
Proof. by intros f g ?%elem_of_nil. Qed.

Lemma parse_args_two_specified argv f g w :
  AFlag f ∈ specified argv → AFlag g ∈ specified argv → f ≠ g →
  AHelp ∉ specified argv →
  _parse_args argv w = (Raise (SystemExit 2), w).
Proof.
  intros Hf Hg Hne Hhelp. unfold _parse_args.
  destruct (existsb is_ambiguous (classify argv)); [done|].
  pose proof (consume_specified _ (classify argv) MsgUnseen false [] default_namespace
                (reflexivity _) agree_nil) as H.
  destruct (consume _ _ _ _ _) as [ns|e|]; [| |done].
  - destruct H as (seen' & Ha & _ & Hin). destruct Hne. apply Ha; by apply Hin.
  - by destruct H as [->|[_ ?]].
Qed.

(** *** Command lines of plain words and options spelled in full *)

Lemma option_action_spelling s a :
  option_action s = Some a →
  s ∈ ["-h"; "--help"; "-a"; "--all"; "-i"; "--interactive"; "-d"; "--device"].
Proof.
  unfold option_action, option_strings; cbn [option_action_in].
  repeat match goal with
  | |- context [String.eqb ?o s] =>
      destruct (String.eqb_spec o s) as [<-|_]; [intros _; by repeat constructor|]
  end.
  done.
Qed.

Lemma plain_positional s : plain s = true → parse_optional s = CPos ∧ String.eqb s "--" = false.
Proof.
  destruct s as [|c s]; [done|]. unfold plain, parse_optional.
  destruct (Ascii.eqb_spec c "-") as [->|Hc]; [done|]. intros _. split; [done|].
  apply String.eqb_neq. by intros [= -> _].
Qed.

Lemma flag_of_spelling s f :
  flag_of s = Some f →
  plain s = false ∧ String.eqb s "--" = false ∧
  parse_optional s = COpt (Some (AFlag f)) s None.
Proof.
  unfold flag_of. destruct (option_action s) as [[|g]|] eqn:Ha; try done.
  intros [= ->]. pose proof (option_action_spelling _ _ Ha) as Hs.
  repeat (apply elem_of_cons in Hs as [->|Hs];
          [vm_compute in Ha; simplify_eq; by vm_compute|]).
  by apply elem_of_nil in Hs.
Qed.

Lemma classify_words ws rest :
  Forall (λ s, plain s = true) ws →
  classify (ws ++ rest) = ((λ s, (s, CPos)) <$> ws) ++ classify rest.
Proof.
  induction 1 as [|s ws Hs _ IH]; [done|]. simpl.
  destruct (plain_positional s Hs) as [-> ->]. by rewrite IH.
Qed.

Lemma classify_spelled argv :
  Forall (λ s, spelled s = true) argv →
  classify argv = (λ s, (s, spelled_class s)) <$> argv.
Proof.
  induction 1 as [|s argv Hs _ IH]; [done|]. simpl. unfold spelled_class at 1.
  destruct (flag_of s) as [f|] eqn:Hf.
  - destruct (flag_of_spelling _ _ Hf) as (_ & -> & ->). by rewrite IH.
  - unfold spelled in Hs. rewrite Hf in Hs.
    rewrite orb_false_r in Hs. destruct (plain_positional s Hs) as [-> ->]. by rewrite IH.
Qed.

Lemma spelled_not_ambiguous argv :
  existsb is_ambiguous ((λ s, (s, spelled_class s)) <$> argv) = false.
Proof.
  induction argv as [|s argv IH]; [done|]. rewrite fmap_cons. cbn [existsb].
  rewrite IH. unfold is_ambiguous, spelled_class; simpl. by destruct (flag_of s).
Qed.

Lemma specified_spelled argv :
  Forall (λ s, spelled s = true) argv →
  specified argv = omap (λ s, AFlag <$> flag_of s) argv.
Proof.
  intros Hsp. unfold specified. rewrite (classify_spelled _ Hsp). clear Hsp.
  induction argv as [|s argv IH]; [done|].
  rewrite !fmap_cons. cbn [List.concat]. rewrite IH.
  unfold token_actions, spelled_class. cbn [omap list_omap].
  destruct (flag_of s) as [[| |]|]; done.
Qed.

(** On such a command line the parse ends in a namespace or in a usage
    error; when it ends in a namespace, every option on the line is the
    one seen before, if any. *)
Lemma consume_spelled n :
  ∀ argv st extras seen ns, (length argv ≤ n)%nat →
    match consume ((λ s, (s, spelled_class s)) <$> argv) st extras seen ns with
    | Ret _ =>
        ∀ s f, s ∈ argv → flag_of s = Some f →
          (∀ g, g ∈ seen → g = f) ∧ (∀ s' g, s' ∈ argv → flag_of s' = Some g → g = f)
    | Raise e => e = SystemExit 2
    | OutOfFuel => False
    end.
Proof.
  induction n as [|n IH]; intros argv st extras seen ns Hlen.
  { destruct argv; [|simpl in Hlen; lia]. simpl.
    destruct extras; [done|]. by intros s f ?%elem_of_nil. }
  assert (Hstep : ∀ (rest : list string) st' extras' f0 ns0 (s0 : string),
    (length rest ≤ n)%nat →
    conflicts f0 seen = false →
    flag_of s0 = Some f0 →
    match consume ((λ s, (s, spelled_class s)) <$> rest) st' extras' (f0 :: seen) ns0 with
    | Ret _ =>
        ∀ s f, s = s0 ∨ s ∈ rest → flag_of s = Some f →
          (∀ g, g ∈ seen → g = f) ∧
          (∀ s' g, s' = s0 ∨ s' ∈ rest → flag_of s' = Some g → g = f)
    | Raise e => e = SystemExit 2
    | OutOfFuel => False
    end).
  { intros rest st' extras' f0 ns0 s0 Hl Hconf Hs0.
    pose proof (conflicts_false _ _ Hconf) as Hseen.
    specialize (IH rest st' extras' (f0 :: seen) ns0 Hl).
    destruct (consume _ st' extras' (f0 :: seen) ns0) as [ns'| |]; [|done..].
    intros s f Hs Hf.
    assert (f0 = f) as ->.
    { destruct Hs as [->|Hs]; [congruence|].
      destruct (IH s f Hs Hf) as [H _]. apply H. by left. }
    split; [done|]. intros s' g [->|Hs'] Hg; [congruence|].
    destruct (IH s' g Hs' Hg) as [H _]. symmetry. apply H. by left. }
  destruct argv as [|s rest]; simpl in Hlen |- *.
  { destruct extras; [done|]. by intros s f ?%elem_of_nil. }
  assert (Hl : (length rest ≤ n)%nat) by lia.
  unfold spelled_class at 1. destruct (flag_of s) as [f0|] eqn:Hf0.
  - destruct f0; simpl.
    + destruct (conflicts FAll seen) eqn:Hconf; [done|].
      specialize (Hstep rest (close_msg st) extras FAll (take_action FAll None ns) s Hl Hconf Hf0).
      destruct (consume _ _ _ _ _); [|done..].
      intros s1 f1 Hs1%elem_of_cons Hf1. destruct (Hstep s1 f1 Hs1 Hf1) as [H1 H2].
      split; [done|]. intros s' g Hs'%elem_of_cons. by apply H2.
    + destruct (conflicts FInteractive seen) eqn:Hconf; [done|].
      specialize (Hstep rest (close_msg st) extras FInteractive
                    (take_action FInteractive None ns) s Hl Hconf Hf0).
      destruct (consume _ _ _ _ _); [|done..].
      intros s1 f1 Hs1%elem_of_cons Hf1. destruct (Hstep s1 f1 Hs1 Hf1) as [H1 H2].
      split; [done|]. intros s' g Hs'%elem_of_cons. by apply H2.
    + destruct rest as [|v rest]; [done|]. simpl.
      unfold spelled_class at 1. destruct (flag_of v) as [fv|] eqn:Hfv; [done|].
      unfold take_device. destruct (conflicts FDevice seen) eqn:Hconf; [done|].
      simpl in Hl. assert (Hl' : (length rest ≤ n)%nat) by lia.
      specialize (Hstep rest (close_msg st) extras FDevice
                    (take_action FDevice (Some (device_value v)) ns) s Hl' Hconf Hf0).
      destruct (consume _ _ _ _ _); [|done..].
      intros s1 f1 Hs1 Hf1.
      assert (∀ s' g, s' ∈ s :: v :: rest → flag_of s' = Some g → s' = s ∨ s' ∈ rest) as Hin.
      { intros s' g [->|[->|?]%elem_of_cons]%elem_of_cons Hg; [by left|congruence|by right]. }
      destruct (Hstep s1 f1 (Hin _ _ Hs1 Hf1) Hf1) as [H1 H2].
      split; [done|]. intros s' g Hs' Hg. apply (H2 s' g); [|done]. by eapply Hin.
  - specialize (IH rest). destruct st.
    + specialize (IH MsgOpen extras seen (add_word s ns) Hl).
      destruct (consume _ _ _ _ _); [|done..].
      intros s1 f1 [->|Hs1]%elem_of_cons Hf1; [congruence|].
      destruct (IH s1 f1 Hs1 Hf1) as [H1 H2]. split; [done|].
      intros s' g [->|Hs']%elem_of_cons Hg; [congruence|]. by eapply H2.
    + specialize (IH MsgOpen extras seen (add_word s ns) Hl).
      destruct (consume _ _ _ _ _); [|done..].
      intros s1 f1 [->|Hs1]%elem_of_cons Hf1; [congruence|].
      destruct (IH s1 f1 Hs1 Hf1) as [H1 H2]. split; [done|].
      intros s' g [->|Hs']%elem_of_cons Hg; [congruence|]. by eapply H2.
    + specialize (IH MsgClosed true seen ns Hl).
      destruct (consume _ _ _ _ _); [|done..].
      intros s1 f1 [->|Hs1]%elem_of_cons Hf1; [congruence|].
      destruct (IH s1 f1 Hs1 Hf1) as [H1 H2]. split; [done|].
      intros s' g [->|Hs']%elem_of_cons Hg; [congruence|]. by eapply H2.
Qed.

Lemma parse_args_two_options argv a b f g w :
  Forall (λ s, spelled s = true) argv →
  a ∈ argv → b ∈ argv → flag_of a = Some f → flag_of b = Some g → f ≠ g →
  _parse_args argv w = (Raise (SystemExit 2), w).
Proof.
  intros Hsp Ha Hb Hf Hg Hne. unfold _parse_args.
  rewrite (classify_spelled _ Hsp), spelled_not_ambiguous.
  pose proof (consume_spelled _ argv MsgUnseen false [] default_namespace (reflexivity _)) as H.
  destruct (consume _ _ _ _ _) as [ns|e|]; [|by subst|done].
  destruct (H a f Ha Hf) as [_ H2]. destruct Hne. symmetry. by eapply H2.
Qed.

(** A run of words in front of the rest of the command line. *)
Lemma consume_words ws rest st extras seen ns :
  st ≠ MsgClosed →
  consume (((λ s, (s, CPos)) <$> ws) ++ rest) st extras seen ns =
  consume rest (match ws with [] => st | _ => MsgOpen end) extras seen
    {| msg := msg ns ++ ws; all_ := all_ ns; interactive := interactive ns;
       device := device ns |}.
Proof.
  revert st ns. induction ws as [|w ws IH]; intros st ns Hst; simpl.
  - rewrite app_nil_r. by destruct ns.
  - destruct st; [| |done]; rewrite IH by done; simpl;
      rewrite <- (assoc_L (++)); by destruct ws.
Qed.

Lemma classify_choice short c :
  name_taken c = true →
  ∃ toks,
    (∀ rest, classify (choice_args short c ++ rest) = toks ++ classify rest) ∧
    existsb is_ambiguous toks = false ∧
    (∀ st ns rest, device ns = None → all_ ns = false → interactive ns = false →
       consume (toks ++ rest) st false [] ns =
       consume rest (match c with ChooseNothing => st | _ => close_msg st end) false
         (match c with
          | ChooseNothing => []
          | ChooseAll => [FAll]
          | ChooseInteractive => [FInteractive]
          | ChooseDevice _ _ => [FDevice]
          end)
         (choice_namespace (msg ns) c)).
Proof.
  intros Hname. destruct c as [| | |name [|]]; simpl in Hname.
  - exists []. split_and!; [done..|]. intros st [m a i d] rest; simpl. by intros -> -> ->.
  - exists [(if short then "-a" else "--all", COpt (Some (AFlag FAll)) (if short then "-a" else "--all") None)].
    split_and!; [by destruct short|done|].
    intros st [m a i d] rest; simpl. intros -> -> ->. by destruct short.
  - exists [(if short then "-i" else "--interactive",
             COpt (Some (AFlag FInteractive)) (if short then "-i" else "--interactive") None)].
    split_and!; [by destruct short|done|].
    intros st [m a i d] rest; simpl. intros -> -> ->. by destruct short.
  - exists [((if short then "-d=" else "--device=") +:+ name,
             COpt (Some (AFlag FDevice)) (if short then "-d" else "--device") (Some name))].
    split_and!; [by destruct short|done|].
    intros st [m a i d] rest; simpl. intros -> -> ->.
    unfold take_device, device_value; simpl.
    apply negb_true_iff in Hname. rewrite Hname. by destruct short.
  - destruct (plain_positional name Hname) as [Hp Hsep].
    exists [(if short then "-d" else "--device",
             COpt (Some (AFlag FDevice)) (if short then "-d" else "--device") None);
            (name, CPos)].
    split_and!; [|done|].
    + intros rest. destruct short; simpl; by rewrite Hsep, Hp.
    + intros st [m a i d] rest; simpl. intros -> -> ->.
      unfold take_device, device_value; simpl. rewrite Hsep. by destruct short.
Qed.

Lemma parse_words_then_option short ws c w :
  Forall (λ s, plain s = true) ws → name_taken c = true →
  _parse_args (ws ++ choice_args short c) w = (Ret (choice_namespace ws c), w).
Proof.
  intros Hws Hname. destruct (classify_choice short c Hname) as (toks & Hcl & Hamb & Hrun).
  unfold _parse_args. rewrite (classify_words _ _ Hws).
  rewrite <- (app_nil_r (choice_args short c)), Hcl. simpl.
  rewrite !existsb_app, Hamb, !orb_false_r.
  replace (existsb is_ambiguous ((λ s, (s, CPos)) <$> ws)) with false
    by (clear; induction ws; simpl; auto).
  rewrite consume_words by done. by rewrite Hrun.
Qed.

Lemma parse_option_then_words short ws c w :
  Forall (λ s, plain s = true) ws → name_taken c = true →
  _parse_args (choice_args short c ++ ws) w = (Ret (choice_namespace ws c), w).
Proof.
  intros Hws Hname. destruct (classify_choice short c Hname) as (toks & Hcl & Hamb & Hrun).
  unfold _parse_args. rewrite Hcl.
  rewrite <- (app_nil_r ws), (classify_words _ _ Hws). simpl.
  rewrite !existsb_app, Hamb, !orb_false_r. simpl.
  replace (existsb is_ambiguous ((λ s, (s, CPos)) <$> ws)) with false
    by (clear; induction ws; simpl; auto).
  rewrite Hrun by done.
  rewrite consume_words by (by destruct c). simpl.
  by rewrite app_nil_r.
Qed.

(** C5, as amended.  A command line made of message words (arguments that
    do not start with a dash) and at most one of the three options, in its
    short or long spelling, placed before or after the words and, for
    [--device], given with a NAME that it takes as it stands, parses into
    the corresponding namespace, without any effect on the world.  A
    command line that specifies two different options of the three, however
    they are written (in full, abbreviated, or in a cluster of short
    options), and does not ask for the help, is rejected: [main] ends with
    exit status 2 in an unchanged world, before the key is looked for and
    before anything is sent.  On a command line made of words and of the
    six option strings in full, the options specified are those that occur
    on it, so that two different ones among them are enough. *)
Theorem parse_args_exclusive (env : Env) :
  (∀ (short : bool) (ws : list string) (c : choice) (w : world),
     Forall (λ s, plain s = true) ws → name_taken c = true →
     _parse_args (ws ++ choice_args short c) w = (Ret (choice_namespace ws c), w) ∧
     _parse_args (choice_args short c ++ ws) w = (Ret (choice_namespace ws c), w)) ∧
  (∀ (fuel : nat) (argv : list cli_arg) (f g : flag) (w : world),
     AFlag f ∈ specified argv → AFlag g ∈ specified argv → f ≠ g →
     AHelp ∉ specified argv →
     main env fuel argv w = (Raise (SystemExit 2), w)) ∧
  (∀ argv : list cli_arg,
     Forall (λ s, spelled s = true) argv →
     specified argv = omap (λ s, AFlag <$> flag_of s) argv) ∧
  (∀ (fuel : nat) (argv : list cli_arg) (a b : cli_arg) (f g : flag) (w : world),
     Forall (λ s, spelled s = true) argv →
     a ∈ argv → b ∈ argv → flag_of a = Some f → flag_of b = Some g → f ≠ g →
     main env fuel argv w = (Raise (SystemExit 2), w)).
Proof.
  split_and!.
  - intros short ws c w Hws Hname.
    by rewrite parse_words_then_option, parse_option_then_words.
  - intros fuel argv f g w Hf Hg Hne Hhelp. unfold main, bind.
    by rewrite (parse_args_two_specified argv f g).
  - apply specified_spelled.
  - intros fuel argv a b f g w Hsp Ha Hb Hf Hg Hne. unfold main, bind.
    by rewrite (parse_args_two_options argv a b f g).
Qed.

(** The specification's wording forgets that [--device] needs its NAME:
    here only one of the three options is given, and the command line is
    rejected. *)
Lemma parse_args_device_without_name :
  flag_of "--device" = Some FDevice ∧
  _parse_args ["--device"] fresh_world = (Raise (SystemExit 2), fresh_world).
Proof. split; reflexivity. Qed.

(** It also forgets [-h/--help], which every parser of [argparse] has: met
    before the second option, it ends the process with status 0. *)
Example parse_args_help_between_options :
  _parse_args ["-a"; "-h"; "-i"] fresh_world = (Raise (SystemExit 0), fresh_world) ∧
  _parse_args ["-a"; "-i"; "-h"] fresh_world = (Raise (SystemExit 2), fresh_world).
Proof. split; reflexivity. Qed.

(** A NAME that looks like an option is not taken, unless it is attached. *)
Example parse_args_device_dash_name :
  _parse_args ["--device"; "-x"] fresh_world = (Raise (SystemExit 2), fresh_world) ∧
  _parse_args ["--device"; "--"; "-x"] fresh_world = (Raise (SystemExit 2), fresh_world) ∧
  _parse_args ["--device=-x"] fresh_world
  = (Ret {| msg := []; all_ := false; interactive := false; device := Some "-x" |},
     fresh_world).
Proof. split_and!; reflexivity. Qed.

(** Short options in one cluster, an abbreviated long option, and words
    after [--]. *)
Example parse_args_cluster_and_abbreviation :
  _parse_args ["-ai"] fresh_world = (Raise (SystemExit 2), fresh_world) ∧
  _parse_args ["--dev"; "Phone"; "hi"] fresh_world
  = (Ret {| msg := ["hi"]; all_ := false; interactive := false; device := Some "Phone" |},
     fresh_world) ∧
  _parse_args ["-a"; "--"; "-i"] fresh_world
  = (Ret {| msg := ["-i"]; all_ := true; interactive := false; device := None |},
     fresh_world).
Proof. split_and!; reflexivity. Qed.

(** [argparse] fills [msg] from one run of words: words on both sides of
    an option are rejected as well. *)
Example parse_args_words_on_both_sides :
  _parse_args ["hello"; "--all"; "world"] fresh_world
  = (Raise (SystemExit 2), fresh_world).
Proof. reflexivity. Qed.

(** ** Device resolution *)

Lemma logged_logged w evs evs' : logged (logged w evs) evs' = logged w (evs ++ evs').
Proof. unfold logged; simpl. by rewrite (assoc_L (++)). Qed.

Lemma items_get_set k v l k' :
  items_get k' (items_set k v l) = if decide (k = k') then Some v else items_get k' l.
Proof.
  induction l as [|[k0 v0] l IH]; simpl.
  - by destruct (decide (k = k')).
  - destruct (decide (k0 = k)) as [->|Hne]; simpl.
    + by destruct (decide (k = k')).
    + destruct (decide (k0 = k')) as [->|Hne'].
      * by rewrite decide_False.
      * done.
Qed.

Lemma items_set_keys k v l :
  (items_set k v l).*1 = if decide (k ∈ l.*1) then l.*1 else l.*1 ++ [k].
Proof.
  induction l as [|[k0 v0] l IH]; cbn [items_set].
  - destruct (decide (k ∈ [].*1)) as [Hin|_]; [|done]. by apply elem_of_nil in Hin.
  - rewrite fmap_cons. cbn [fst].
    destruct (decide (k0 = k)) as [->|Hne]; rewrite fmap_cons; cbn [fst].
    + destruct (decide (k ∈ k :: l.*1)) as [_|Hnotin]; [done|]. destruct Hnotin. by left.
    + rewrite IH. destruct (decide (k ∈ l.*1)) as [Hin|Hnotin];
        destruct (decide (k ∈ k0 :: l.*1)) as [Hin'|Hnotin']; try done.
      * destruct Hnotin'. by right.
      * apply elem_of_cons in Hin' as [?|?]; [by subst|done].
Qed.

Lemma items_get_keys k l : is_Some (items_get k l) ↔ k ∈ l.*1.
Proof.
  induction l as [|[k0 v0] l IH]; cbn [items_get]; rewrite ?fmap_cons; cbn [fst].
  - split; [by intros [? ?]|by intros ?%elem_of_nil].
  - destruct (decide (k0 = k)) as [->|Hne].
    + split; [intros _; by left|by eexists].
    + rewrite IH. split; [by right|].
      intros [?|?]%elem_of_cons; [by subst|done].
Qed.

Lemma devices_by_names_snoc devs d :
  devices_by_names (devs ++ [d]) = dict_setitem (nickname d) d (devices_by_names devs).
Proof. unfold devices_by_names. by rewrite fold_left_app. Qed.

(** The dictionary maps a nickname to the last device that bears it. *)
Lemma devices_by_names_lookup devs name :
  devices_by_names devs !! name = last (filter (λ d, nickname d = name) devs).
Proof.
  induction devs as [|d devs IH] using rev_ind; [done|].
  rewrite devices_by_names_snoc, filter_app.
  unfold lookup, pydict_lookup, dict_setitem in *; simpl. rewrite items_get_set.
  destruct (decide (nickname d = name)) as [<-|Hne].
  - rewrite filter_cons_True, filter_nil by done. by rewrite last_snoc.
  - rewrite filter_cons_False, filter_nil by done. by rewrite app_nil_r.
Qed.

Lemma devices_by_names_Some devs name d :
  devices_by_names devs !! name = Some d → d ∈ devs ∧ nickname d = name.
Proof.
  rewrite devices_by_names_lookup. intros H%last_Some_elem_of.
  by apply list_elem_of_filter in H as [? ?].
Qed.

Lemma devices_by_names_None devs name :
  devices_by_names devs !! name = None ↔ ∀ d, d ∈ devs → nickname d ≠ name.
Proof.
  rewrite devices_by_names_lookup, last_None. split.
  - intros Hnil d Hd Hname.
    assert (d ∈ filter (λ d, nickname d = name) devs) as Hin
      by by apply list_elem_of_filter.
    rewrite Hnil in Hin. by apply elem_of_nil in Hin.
  - intros Hall. destruct (filter _ devs) as [|d l] eqn:Hf; [done|].
    assert (d ∈ filter (λ d, nickname d = name) devs) as Hin
      by (rewrite Hf; by left).
    apply list_elem_of_filter in Hin as [Hname Hd]. by destruct (Hall d Hd).
Qed.

(** The keys are the nicknames in the order of their first occurrence: a
    device whose nickname is already a key adds nothing to them, a new
    nickname goes to the end. *)
Lemma dict_keys_snoc devs d :
  dict_keys (devices_by_names (devs ++ [d])) =
  if decide (nickname d ∈ dict_keys (devices_by_names devs))
  then dict_keys (devices_by_names devs)
  else dict_keys (devices_by_names devs) ++ [nickname d].
Proof. rewrite devices_by_names_snoc. unfold dict_keys, dict_setitem; simpl. apply items_set_keys. Qed.

Lemma dict_keys_spec devs n :
  n ∈ dict_keys (devices_by_names devs) ↔ ∃ d, d ∈ devs ∧ nickname d = n.
Proof.
  unfold dict_keys. rewrite <- items_get_keys.
  change (items_get n (items (devices_by_names devs))) with (devices_by_names devs !! n).
  split.
  - intros [d Hd]. apply devices_by_names_Some in Hd. eauto.
  - intros (d & Hd & Hn).
    destruct (devices_by_names devs !! n) as [d'|] eqn:Hl; [by eexists|].
    rewrite devices_by_names_None in Hl. by destruct (Hl d Hd).
Qed.

Lemma dict_keys_NoDup devs : NoDup (dict_keys (devices_by_names devs)).
Proof.
  induction devs as [|d devs IH] using rev_ind; [constructor|].
  rewrite dict_keys_snoc. destruct (decide _) as [Hin|Hnotin]; [done|].
  apply NoDup_app. split_and!; [done| |apply NoDup_singleton].
  intros n Hn ->%list_elem_of_singleton. done.
Qed.

Section Resolution.
Context (env : Env).

Lemma parse_args_Ret argv w args :
  fst (_parse_args argv w) = Ret args → _parse_args argv w = (Ret args, w).
Proof.
  intros H. pose proof (parse_args_world argv w) as Hw.
  destruct (_parse_args argv w) as [r w']. simpl in *. by subst.
Qed.

(** [main] from the point where the options are known and the client is
    connected. *)
Lemma main_resolution fuel argv args w key w1 :
  fst (_parse_args argv w) = Ret args →
  _get_api_key env w = (Ret key, w1) →
  main env fuel argv w =
  (let pb := decorate env (raw_client env) in
   if negb (all_ args) then
     if (length (devices env) <? 1)%nat then
       print "You don't have any devices!" ;;;
       print "Add one at <https://www.pushbullet.com/>." ;;;
       ret 1
     else if interactive args then
       let* d := _prompt_device env fuel (devices env) in
       main_dispatch env fuel pb args (Some d)
     else if truthy (device args) then
       match devices_by_names (devices env) !! default "" (device args) with
       | None =>
           print ("Unknown device " +:+ default "" (device args)
                  +:+ ". Available devices: "
                  +:+ join ", " (dict_keys (devices_by_names (devices env)))) ;;;
           ret 1
       | Some d => main_dispatch env fuel pb args (Some d)
       end
     else main_dispatch env fuel pb args None
   else main_dispatch env fuel pb args None) (logged w1 [EConnect key]).
Proof.
  intros Hparse%parse_args_Ret Hkey. rewrite main_unfold.
  unfold bind at 1. rewrite Hparse. unfold bind at 1. rewrite Hkey.
  reflexivity.
Qed.

Lemma main_named_device fuel argv args name w key w1 :
  fst (_parse_args argv w) = Ret args →
  device args = Some name →
  name ≠ "" → devices env ≠ [] →
  _get_api_key env w = (Ret key, w1) →
  main env fuel argv w =
  match devices_by_names (devices env) !! name with
  | Some d =>
      main_dispatch env fuel (decorate env (raw_client env)) args (Some d)
        (logged w1 [EConnect key])
  | None =>
      (Ret 1,
       logged w1
         [EConnect key;
          EPrint ("Unknown device " +:+ name +:+ ". Available devices: "
                  +:+ join ", " (dict_keys (devices_by_names (devices env))))])
  end.
Proof.
  intros Hparse Hdev Hname Hdevs Hkey.
  destruct (parse_args_device_only _ _ _ Hparse) as [Hall Hint];
    [by rewrite Hdev|].
  rewrite (main_resolution _ _ _ _ _ _ Hparse Hkey).
  rewrite Hall, Hint, Hdev. simpl.
  rewrite bool_decide_eq_false_2 by done. simpl.
  destruct (devices env) as [|d0 devs] eqn:Hd; [done|]. simpl.
  destruct (devices_by_names (d0 :: devs) !! name); [done|].
  unfold print, bind, emit, ret. by rewrite logged_logged.
Qed.

(** A NAME that is not empty, on an account with devices: if no device has
    exactly that nickname, [main] prints the message that lists the known
    nicknames and returns 1, with no remote call; otherwise it dispatches
    to a device of the list whose nickname is equal to NAME.  The known
    nicknames are exactly the nicknames of the devices. *)
Lemma device_lookup_by_name fuel argv args name w key w1 :
  fst (_parse_args argv w) = Ret args →
  device args = Some name →
  name ≠ "" → devices env ≠ [] →
  _get_api_key env w = (Ret key, w1) →
  ((∀ d, d ∈ devices env → nickname d ≠ name) →
     main env fuel argv w =
       (Ret 1,
        logged w1
          [EConnect key;
           EPrint ("Unknown device " +:+ name +:+ ". Available devices: "
                   +:+ join ", " (dict_keys (devices_by_names (devices env))))])) ∧
  ((∃ d, d ∈ devices env ∧ nickname d = name) →
     ∃ d, d ∈ devices env ∧ nickname d = name ∧
       main env fuel argv w =
         main_dispatch env fuel (decorate env (raw_client env)) args (Some d)
           (logged w1 [EConnect key])) ∧
  (∀ n, n ∈ dict_keys (devices_by_names (devices env)) ↔
        ∃ d, d ∈ devices env ∧ nickname d = n).
Proof.
  intros Hparse Hdev Hname Hdevs Hkey.
  rewrite (main_named_device _ _ _ _ _ _ _ Hparse Hdev Hname Hdevs Hkey).
  split_and!.
  - intros Hmiss%devices_by_names_None. by rewrite Hmiss.
  - intros (d & Hd & Hn).
    destruct (devices_by_names (devices env) !! name) as [d'|] eqn:Hl.
    + apply devices_by_names_Some in Hl as [? ?]. by exists d'.
    + rewrite devices_by_names_None in Hl. by destruct (Hl d Hd).
  - apply dict_keys_spec.
Qed.

(** The empty NAME is never looked up: [if args.device:] takes
    [--device ""] for no option at all, and [main] dispatches without a
    device, whatever the nicknames are. *)
Lemma device_empty_name_skipped fuel argv args w key w1 :
  fst (_parse_args argv w) = Ret args →
  device args = Some "" →
  devices env ≠ [] →
  _get_api_key env w = (Ret key, w1) →
  main env fuel argv w =
    main_dispatch env fuel (decorate env (raw_client env)) args None
      (logged w1 [EConnect key]).
Proof.
  intros Hparse Hdev Hdevs Hkey.
  destruct (parse_args_device_only _ _ _ Hparse) as [Hall Hint];
    [by rewrite Hdev|].
  rewrite (main_resolution _ _ _ _ _ _ Hparse Hkey).
  rewrite Hall, Hint, Hdev. simpl.
  by destruct (devices env) as [|d0 devs] eqn:Hd.
Qed.

(** C10.  A nickname borne by several devices resolves to the last of them
    in listing order.  The known nicknames hold no nickname twice: they are
    the nicknames of the devices, each at the place of its first
    occurrence (a device whose nickname is already known adds nothing to
    them, a new nickname goes to the end), and they are what the message
    for an unknown name lists, in that order. *)
Theorem duplicate_nicknames fuel argv args name w key w1 :
  devices_by_names (devices env) !! name
    = last (filter (λ d, nickname d = name) (devices env)) ∧
  NoDup (dict_keys (devices_by_names (devices env))) ∧
  (∀ n, n ∈ dict_keys (devices_by_names (devices env)) ↔
        ∃ d, d ∈ devices env ∧ nickname d = n) ∧
  (∀ devs d,
     dict_keys (devices_by_names (devs ++ [d])) =
     if decide (nickname d ∈ dict_keys (devices_by_names devs))
     then dict_keys (devices_by_names devs)
     else dict_keys (devices_by_names devs) ++ [nickname d]) ∧
  (fst (_parse_args argv w) = Ret args →
   device args = Some name →
   name ≠ "" → devices env ≠ [] →
   _get_api_key env w = (Ret key, w1) →
   main env fuel argv w =
   match last (filter (λ d, nickname d = name) (devices env)) with
   | Some d =>
       main_dispatch env fuel (decorate env (raw_client env)) args (Some d)
         (logged w1 [EConnect key])
   | None =>
       (Ret 1,
        logged w1
          [EConnect key;
           EPrint ("Unknown device " +:+ name +:+ ". Available devices: "
                   +:+ join ", " (dict_keys (devices_by_names (devices env))))])
   end).
Proof.
  split_and!.
  - apply devices_by_names_lookup.
  - apply dict_keys_NoDup.
  - apply dict_keys_spec.
  - apply dict_keys_snoc.
  - intros Hparse Hdev Hname Hdevs Hkey.
    rewrite <- devices_by_names_lookup.
    by apply main_named_device.
Qed.

End Resolution.

(** Lookup is exact: [phone] is not [Phone], and the message lists the
    nicknames in the order of the listing. *)
Example device_lookup_lower_case :
  main two_devices_env 1 ["hi"; "--device"; "phone"] fresh_world =
    (Ret 1,
     logged keyed_world
       [EConnect "ABC123";
        EPrint "Unknown device phone. Available devices: Phone, Tablet"]).
Proof.
  assert (Hmiss : ∀ d, d ∈ devices two_devices_env → nickname d ≠ "phone").
  { intros d Hd. simpl in Hd.
    apply elem_of_cons in Hd as [->|Hd]; [discriminate|].
    apply elem_of_cons in Hd as [->|Hd]; [discriminate|].
    by apply elem_of_nil in Hd. }
  exact (proj1 (device_lookup_by_name two_devices_env 1%nat
                  ["hi"; "--device"; "phone"]
                  (choice_namespace ["hi"] (ChooseDevice "phone" false))
                  "phone" fresh_world "ABC123" keyed_world
                  eq_refl eq_refl
                  ltac:(discriminate) ltac:(discriminate) eq_refl) Hmiss).
Qed.

(** C7.  Lookup by name misses the empty NAME.  On an account with the
    devices [Phone] and [Tablet], [--device "" hi] names a device that does
    not exist: no nickname is empty.  A NAME that no device bears is to be
    answered with the list of the known nicknames and exit status 1, as
    happens for [phone]; but [if args.device:] takes the empty NAME for no
    option at all: nothing is printed, the note is pushed without a device,
    and [main] returns 0. *)
Lemma device_lookup_empty_name :
  fst (_parse_args ["--device"; ""; "hi"] fresh_world)
    = Ret {| msg := ["hi"]; all_ := false; interactive := false; device := Some "" |} ∧
  devices two_devices_env = [phone; tablet] ∧
  (∀ d, d ∈ devices two_devices_env → nickname d ≠ "") ∧
  main two_devices_env 1 ["--device"; ""; "hi"] fresh_world =
    (Ret 0,
     logged keyed_world
       [EConnect "ABC123";
        EIsFile "hi";
        ECall push_note [] (<["title" := PStr "Note"]> (<["body" := PStr "hi"]> ∅))]) ∧
  main two_devices_env 1 ["--device"; "phone"; "hi"] fresh_world =
    (Ret 1,
     logged keyed_world
       [EConnect "ABC123";
        EPrint "Unknown device phone. Available devices: Phone, Tablet"]).
Proof.
  split_and!; try reflexivity.
  intros d Hd. simpl in Hd.
  apply elem_of_cons in Hd as [->|Hd]; [discriminate|].
  apply elem_of_cons in Hd as [->|Hd]; [discriminate|].
  by apply elem_of_nil in Hd.
Qed.

(** ** Interactive selection *)

Section Prompt.
Context (env : Env).

Lemma print_menu_run i devs w :
  print_menu i devs w =
  (Ret (), logged w (imap (λ j d, EPrint ("[" +:+ pretty (i + j)%nat +:+ "] "
                                           +:+ nickname d)) devs)).
Proof.
  revert i w. induction devs as [|d devs IH]; intros i w; simpl.
  - unfold ret, logged. rewrite app_nil_r. by destruct w.
  - unfold print, bind, emit. rewrite IH, logged_logged. simpl.
    rewrite Nat.add_0_r. do 3 f_equal. apply imap_ext. intros j d' _. simpl.
    by rewrite Nat.add_succ_r.
Qed.

Lemma prompt_device_menu fuel devs w :
  _prompt_device env fuel devs w = prompt_loop env fuel devs (logged w (menu_lines devs)).
Proof. unfold _prompt_device, bind. by rewrite print_menu_run. Qed.

Lemma in_range_lookup choice (devs : list Device) :
  in_range choice devs = true → is_Some (devs !! Z.to_nat choice).
Proof.
  unfold in_range. intros [H1%Z.leb_le H2%Z.ltb_lt]%andb_true_iff.
  apply lookup_lt_is_Some. lia.
Qed.

Lemma selection_Some devs line d :
  selection devs line = Some d ↔
  ∃ i, py_int (strip (chomp line)) = Some i ∧
       (0 ≤ i < Z.of_nat (length devs))%Z ∧ devs !! Z.to_nat i = Some d.
Proof.
  unfold selection. split.
  - destruct (py_int _) as [i|]; [|done].
    destruct (in_range i devs) eqn:Hr; [|done]. intros Hd. exists i.
    unfold in_range in Hr. apply andb_true_iff in Hr as [H1%Z.leb_le H2%Z.ltb_lt].
    done.
  - intros (i & -> & [H1 H2] & Hd). unfold in_range.
    apply Z.leb_le in H1. apply Z.ltb_lt in H2. by rewrite H1, H2.
Qed.

Lemma prompted_1 w : prompted 1 w =
  {| fs := fs w; umask := umask w; stdin_pos := S (stdin_pos w);
     log := log w ++ [EPrompt "Push to which device? "] |}.
Proof. unfold prompted. simpl. by rewrite Nat.add_1_r. Qed.

Lemma prompted_S k w : prompted 1 (prompted k w) = prompted (S k) w.
Proof.
  unfold prompted; simpl. rewrite <- (assoc_L (++)), <- Nat.add_assoc.
  replace (k + 1)%nat with (S k) by lia.
  by rewrite <- replicate_cons_app.
Qed.

(** One round of the loop on a line that selects nothing. *)
Lemma prompt_loop_retry fuel devs w line :
  stdin env (stdin_pos w) = Some line →
  selection devs line = None →
  prompt_loop env (S fuel) devs w = prompt_loop env fuel devs (prompted 1 w).
Proof.
  intros Hline Hsel. rewrite prompted_1. simpl.
  unfold bind, raw_input, emit, bind; simpl. rewrite Hline. simpl.
  unfold selection in Hsel.
  destruct (py_int (strip (chomp line))) as [choice|]; [|done].
  destruct (in_range choice devs) eqn:Hr; [|done].
  apply in_range_lookup in Hr as [d Hd]. congruence.
Qed.

(** One round of the loop on a line that selects a device. *)
Lemma prompt_loop_return fuel devs w line d :
  stdin env (stdin_pos w) = Some line →
  selection devs line = Some d →
  prompt_loop env (S fuel) devs w = (Ret d, prompted 1 w).
Proof.
  intros Hline Hsel. rewrite prompted_1. simpl.
  unfold bind, raw_input, emit, bind; simpl. rewrite Hline. simpl.
  unfold selection in Hsel.
  destruct (py_int (strip (chomp line))) as [choice|]; [|done].
  destruct (in_range choice devs); [|done]. by rewrite Hsel.
Qed.

(** At the end of input [raw_input] raises and the loop ends with it. *)
Lemma prompt_loop_eof fuel devs w :
  stdin env (stdin_pos w) = None →
  prompt_loop env (S fuel) devs w
    = (Raise EOFError, logged w [EPrompt "Push to which device? "]).
Proof.
  intros Hline. simpl. unfold bind, raw_input, emit, bind; simpl.
  by rewrite Hline.
Qed.

Lemma prompt_loop_skip k fuel devs w :
  (∀ j, (j < k)%nat → ∃ line,
     stdin env (stdin_pos w + j) = Some line ∧ selection devs line = None) →
  prompt_loop env (k + fuel) devs w = prompt_loop env fuel devs (prompted k w).
Proof.
  revert w. induction k as [|k IH]; intros w Hbad.
  - unfold prompted. simpl. rewrite app_nil_r, Nat.add_0_r. by destruct w.
  - destruct (Hbad 0%nat ltac:(lia)) as (line & Hline & Hsel).
    rewrite Nat.add_0_r in Hline.
    change (S k + fuel)%nat with (S (k + fuel)).
    rewrite (prompt_loop_retry _ _ _ line) by done.
    rewrite IH.
    + f_equal. unfold prompted; simpl.
      rewrite <- (assoc_L (++)), <- Nat.add_assoc. done.
    + intros j Hj. destruct (Hbad (S j) ltac:(lia)) as (l & Hl & Hs).
      exists l. split; [|done]. simpl.
      by replace (stdin_pos w + 1 + j)%nat with (stdin_pos w + S j)%nat by lia.
Qed.

Lemma prompt_loop_only_valid fuel devs w d w' :
  prompt_loop env fuel devs w = (Ret d, w') →
  ∃ line, stdin env (pred (stdin_pos w')) = Some line ∧ selection devs line = Some d.
Proof.
  revert w. induction fuel as [|fuel IH]; intros w; [done|].
  destruct (stdin env (stdin_pos w)) as [line|] eqn:Hline.
  - destruct (selection devs line) as [d'|] eqn:Hsel.
    + rewrite (prompt_loop_return _ _ _ line d') by done.
      intros [= -> <-]. exists line. simpl.
      by replace (pred (stdin_pos w + 1)) with (stdin_pos w) by lia.
    + rewrite (prompt_loop_retry _ _ _ line) by done. apply IH.
  - simpl. unfold bind, raw_input, emit, bind; simpl. by rewrite Hline.
Qed.

Lemma prompt_loop_diverges fuel devs w :
  (∀ n, (stdin_pos w ≤ n)%nat → ∃ line,
     stdin env n = Some line ∧ selection devs line = None) →
  fst (prompt_loop env fuel devs w) = OutOfFuel.
Proof.
  revert w. induction fuel as [|fuel IH]; intros w Hbad; [done|].
  destruct (Hbad (stdin_pos w) ltac:(lia)) as (line & Hline & Hsel).
  rewrite (prompt_loop_retry _ _ _ line) by done. apply IH.
  intros n Hn. apply Hbad. simpl in Hn. lia.
Qed.

(** C9.  [_prompt_device] first prints the menu, one line [[i] nickname]
    per device with [i] counted from zero, and then prompts.  If the first
    [k] answers select nothing (not an integer, or an integer outside
    [0 .. len-1]) and the next one selects a device, that device is
    returned after [k+1] prompts and nothing else has been printed.  A
    returned device is always the one at the index typed on the last line
    read, an index within the list.  If every line to come selects nothing,
    no number of rounds is enough: the loop is still running after any
    [fuel] rounds. *)
Theorem prompt_device_loop (devs : list Device) (w : world) :
  (∀ fuel,
     _prompt_device env fuel devs w
       = prompt_loop env fuel devs (logged w (menu_lines devs))) ∧
  (∀ k d,
     (∀ j, (j < k)%nat → ∃ line,
        stdin env (stdin_pos w + j) = Some line ∧ selection devs line = None) →
     (∃ line,
        stdin env (stdin_pos w + k) = Some line ∧ selection devs line = Some d) →
     ∀ fuel, (k < fuel)%nat →
       _prompt_device env fuel devs w
         = (Ret d, prompted (S k) (logged w (menu_lines devs)))) ∧
  (∀ fuel d w',
     _prompt_device env fuel devs w = (Ret d, w') →
     ∃ line i,
       stdin env (pred (stdin_pos w')) = Some line ∧
       py_int (strip (chomp line)) = Some i ∧
       (0 ≤ i < Z.of_nat (length devs))%Z ∧
       devs !! Z.to_nat i = Some d) ∧
  ((∀ n, (stdin_pos w ≤ n)%nat → ∃ line,
      stdin env n = Some line ∧ selection devs line = None) →
   ∀ fuel, fst (_prompt_device env fuel devs w) = OutOfFuel).
Proof.
  split_and!.
  - intros fuel. apply prompt_device_menu.
  - intros k d Hbad (line & Hline & Hsel) fuel Hfuel.
    rewrite prompt_device_menu.
    replace fuel with (k + S (fuel - S k))%nat by lia.
    rewrite prompt_loop_skip by done.
    rewrite (prompt_loop_return _ _ _ line d), ?prompted_S; done.
  - intros fuel d w'. rewrite prompt_device_menu.
    intros (line & Hline & Hsel)%prompt_loop_only_valid.
    apply selection_Some in Hsel as (i & ? & ? & ?). by exists line, i.
  - intros Hbad fuel. rewrite prompt_device_menu. by apply prompt_loop_diverges.
Qed.

End Prompt.

(** * Instances on sample data *)

Lemma credential_round_trip_witness :
  (fs fresh_world !! KEY_PATH no_devices_env = None ∧
   stdin no_devices_env (stdin_pos fresh_world) = Some ("ABC123" +:+ nl) ∧
   write_ok no_devices_env (KEY_PATH no_devices_env) "ABC123" = true) ∧
  fst (_get_api_key no_devices_env fresh_world) = Ret "ABC123" ∧
  fs (snd (_get_api_key no_devices_env fresh_world)) !! KEY_PATH no_devices_env
    = Some (RegFile "ABC123" mode_0600) ∧
  fst (_get_api_key no_devices_env (snd (_get_api_key no_devices_env fresh_world)))
    = Ret "ABC123".
Proof.
  split; [repeat split|].
  destruct (credential_round_trip no_devices_env fresh_world)
    as (H1 & H2 & _ & _ & H3 & _); [reflexivity..|].
  exact (conj H1 (conj H2 H3)).
Defined.

Lemma remote_failure_is_fatal_witness :
  fst (remote failing_env push_note []
         (<["title" := PStr "Note"]> (<["body" := PStr "hi"]> ∅))) = false ∧
  fst (main failing_env 1 ["hi"] fresh_world) =
    Raise (PushbulletException
      "<bound method PushBullet.push_note of <pushbullet.PushBullet object>> failed: {...}").
Proof.
  split; [reflexivity|].
  destruct (remote_failure_is_fatal failing_env) as [_ H].
  destruct (H 1%nat ["hi"] fresh_world) as (evs & Hlog & Hfail).
  change (log fresh_world ++ evs) with evs in Hlog. subst evs.
  refine (proj1 (Hfail push_note []
    (<["title" := PStr "Note"]> (<["body" := PStr "hi"]> ∅)) _ _)).
  - vm_compute. repeat constructor.
  - reflexivity.
Defined.

Lemma parse_args_exclusive_witness :
  (Forall (λ s, spelled s = true) ["-a"; "hi"; "--interactive"] ∧
   "-a" ∈ ["-a"; "hi"; "--interactive"] ∧
   "--interactive" ∈ ["-a"; "hi"; "--interactive"] ∧
   flag_of "-a" = Some FAll ∧ flag_of "--interactive" = Some FInteractive ∧
   FAll ≠ FInteractive) ∧
  main two_devices_env 1 ["-a"; "hi"; "--interactive"] fresh_world
    = (Raise (SystemExit 2), fresh_world) ∧
  (specified ["hi"; "--dev"; "Phone"; "-ia"] = [AFlag FDevice; AFlag FInteractive; AFlag FAll] ∧
   FDevice ≠ FAll) ∧
  main two_devices_env 1 ["hi"; "--dev"; "Phone"; "-ia"] fresh_world
    = (Raise (SystemExit 2), fresh_world) ∧
  (Forall (λ s, plain s = true) ["hi"; "there"] ∧
   name_taken (ChooseDevice "Phone" false) = true) ∧
  _parse_args ["hi"; "there"; "--device"; "Phone"] fresh_world
    = (Ret {| msg := ["hi"; "there"]; all_ := false; interactive := false;
              device := Some "Phone" |}, fresh_world) ∧
  _parse_args ["-d"; "Phone"; "hi"; "there"] fresh_world
    = (Ret {| msg := ["hi"; "there"]; all_ := false; interactive := false;
              device := Some "Phone" |}, fresh_world).
Proof.
  assert (H1 : Forall (λ s, spelled s = true) ["-a"; "hi"; "--interactive"])
    by (repeat constructor).
  assert (H2 : "-a" ∈ ["-a"; "hi"; "--interactive"]) by repeat constructor.
  assert (H3 : "--interactive" ∈ ["-a"; "hi"; "--interactive"]) by repeat constructor.
  assert (H4 : FAll ≠ FInteractive) by discriminate.
  assert (H5 : Forall (λ s, plain s = true) ["hi"; "there"]) by (repeat constructor).
  assert (H6 : specified ["hi"; "--dev"; "Phone"; "-ia"]
               = [AFlag FDevice; AFlag FInteractive; AFlag FAll]) by reflexivity.
  assert (H7 : FDevice ≠ FAll) by discriminate.
  split; [done|]. split.
  { exact (proj2 (proj2 (proj2 (parse_args_exclusive two_devices_env))) 1%nat _
             "-a" "--interactive" FAll FInteractive fresh_world H1 H2 H3 eq_refl eq_refl H4). }
  split; [done|]. split.
  { refine (proj1 (proj2 (parse_args_exclusive two_devices_env)) 1%nat
              ["hi"; "--dev"; "Phone"; "-ia"] FDevice FAll fresh_world _ _ H7 _);
      rewrite H6.
    - repeat constructor.
    - repeat constructor.
    - intros H. repeat (apply elem_of_cons in H as [H|H]; [discriminate|]).
      by apply elem_of_nil in H. }
  split; [done|]. split.
  - exact (proj1 (proj1 (parse_args_exclusive two_devices_env) false ["hi"; "there"]
                    (ChooseDevice "Phone" false) fresh_world H5 eq_refl)).
  - exact (proj2 (proj1 (parse_args_exclusive two_devices_env) true ["hi"; "there"]
                    (ChooseDevice "Phone" false) fresh_world H5 eq_refl)).
Defined.

Lemma umask_restored_witness :
  (isfile (fs fresh_world) (KEY_PATH no_devices_env) = false ∧
   fs fresh_world !! KEY_PATH no_devices_env = None ∧
   stdin no_devices_env (stdin_pos fresh_world) = Some key_line) ∧
  log (snd (_get_api_key no_devices_env fresh_world)) =
    [EIsFile "/home/u/.pushbulletkey";
     EPrint "What's your API key?";
     EPrint "Find it at <https://www.pushbullet.com/account>.";
     EPrompt "> ";
     EUmask mask_077;
     EOpen "/home/u/.pushbulletkey" "w";
     EWrite "/home/u/.pushbulletkey" "ABC123";
     EUmask (umask fresh_world)] ∧
  (∃ content,
     fs (snd (_get_api_key no_devices_env fresh_world)) !! KEY_PATH no_devices_env
     = Some (RegFile content mode_0600)) ∧
  (isfile (fs keyed_world) (KEY_PATH no_devices_env) = true) ∧
  log (snd (_get_api_key no_devices_env keyed_world)) =
    log keyed_world ++
    [EIsFile "/home/u/.pushbulletkey"; EOpen "/home/u/.pushbulletkey" "r"] ∧
  (write_ok (full_disk_env [key_line]) (KEY_PATH (full_disk_env [key_line]))
     (strip (chomp key_line)) = false) ∧
  fst (_get_api_key (full_disk_env [key_line]) fresh_world)
    = Raise (IOError "/home/u/.pushbulletkey") ∧
  umask (snd (_get_api_key (full_disk_env [key_line]) fresh_world))
    = umask fresh_world ∧
  last (log (snd (_get_api_key (full_disk_env [key_line]) fresh_world)))
    = Some (EUmask (umask fresh_world)).
Proof.
  split; [repeat split|].
  destruct (umask_restored no_devices_env) as (_ & Hkey & _).
  destruct (Hkey fresh_world) as (_ & _ & _ & Hwrite).
  destruct (Hwrite key_line eq_refl eq_refl) as (written & Hlog & _ & Hnone).
  destruct (Hnone eq_refl) as [-> Hmode].
  split; [exact Hlog|]. split; [exact Hmode|]. split; [reflexivity|].
  destruct (Hkey keyed_world) as (_ & Hthere & _).
  split; [exact (Hthere eq_refl)|]. split; [reflexivity|].
  destruct (umask_restored (full_disk_env [key_line])) as (_ & _ & Hfail).
  exact (Hfail fresh_world key_line eq_refl eq_refl eq_refl).
Defined.

Lemma prompt_device_loop_witness :
  ((∀ j, (j < 2)%nat → ∃ line,
      stdin hesitant_env (stdin_pos fresh_world + j) = Some line ∧
      selection [phone; tablet] line = None) ∧
   (∃ line, stdin hesitant_env (stdin_pos fresh_world + 2) = Some line ∧
            selection [phone; tablet] line = Some tablet) ∧
   (∀ n, (stdin_pos fresh_world ≤ n)%nat → ∃ line,
      stdin stubborn_env n = Some line ∧ selection [phone; tablet] line = None)) ∧
  _prompt_device hesitant_env 3 [phone; tablet] fresh_world =
    (Ret tablet,
     {| fs := ∅; umask := 2 * 8 + 2; stdin_pos := 3;
        log := [EPrint "[0] Phone"; EPrint "[1] Tablet";
                EPrompt "Push to which device? ";
                EPrompt "Push to which device? ";
                EPrompt "Push to which device? "] |}) ∧
  fst (_prompt_device stubborn_env 1000 [phone; tablet] fresh_world) = OutOfFuel.
Proof.
  assert (Hbad : ∀ j, (j < 2)%nat → ∃ line,
            stdin hesitant_env (stdin_pos fresh_world + j) = Some line ∧
            selection [phone; tablet] line = None).
  { intros [|[|j]] Hj; [eexists; split; reflexivity..|lia]. }
  assert (Hgood : ∃ line,
            stdin hesitant_env (stdin_pos fresh_world + 2) = Some line ∧
            selection [phone; tablet] line = Some tablet).
  { eexists; split; reflexivity. }
  assert (Hnever : ∀ n, (stdin_pos fresh_world ≤ n)%nat → ∃ line,
            stdin stubborn_env n = Some line ∧
            selection [phone; tablet] line = None).
  { intros n _. eexists; split; reflexivity. }
  split; [done|]. split.
  - exact (proj1 (proj2 (prompt_device_loop hesitant_env [phone; tablet] fresh_world))
             2%nat tablet Hbad Hgood 3%nat ltac:(lia)).
  - exact (proj2 (proj2 (proj2
             (prompt_device_loop stubborn_env [phone; tablet] fresh_world)))
             Hnever 1000%nat).
Defined.

Lemma duplicate_nicknames_witness :
  (fst (_parse_args ["hi"; "--device"; "Phone"] fresh_world)
     = Ret (choice_namespace ["hi"] (ChooseDevice "Phone" false)) ∧
   "Phone" ≠ "" ∧ devices twin_devices_env ≠ [] ∧
   _get_api_key twin_devices_env fresh_world = (Ret "ABC123", keyed_world)) ∧
  devices_by_names [old_phone; tablet; phone] !! "Phone" = Some phone ∧
  main twin_devices_env 1 ["hi"; "--device"; "Phone"] fresh_world =
    main_dispatch twin_devices_env 1
      (decorate twin_devices_env (raw_client twin_devices_env))
      (choice_namespace ["hi"] (ChooseDevice "Phone" false)) (Some phone)
      (logged keyed_world [EConnect "ABC123"]) ∧
  (fst (_parse_args ["hi"; "--device"; "Desktop"] fresh_world)
     = Ret (choice_namespace ["hi"] (ChooseDevice "Desktop" false)) ∧
   "Desktop" ≠ "") ∧
  main twin_devices_env 1 ["hi"; "--device"; "Desktop"] fresh_world =
    (Ret 1,
     logged keyed_world
       [EConnect "ABC123";
        EPrint "Unknown device Desktop. Available devices: Phone, Tablet"]).
Proof.
  split; [repeat split; try done; discriminate|].
  destruct (duplicate_nicknames twin_devices_env 1%nat
              ["hi"; "--device"; "Phone"]
              (choice_namespace ["hi"] (ChooseDevice "Phone" false))
              "Phone" fresh_world "ABC123" keyed_world) as (Hlast & _ & _ & _ & Hmain).
  split; [exact Hlast|].
  split; [exact (Hmain eq_refl eq_refl
                   ltac:(discriminate) ltac:(discriminate) eq_refl)|].
  split; [split; [reflexivity|discriminate]|].
  destruct (duplicate_nicknames twin_devices_env 1%nat
              ["hi"; "--device"; "Desktop"]
              (choice_namespace ["hi"] (ChooseDevice "Desktop" false))
              "Desktop" fresh_world "ABC123" keyed_world) as (_ & _ & _ & _ & Hmiss).
  exact (Hmiss eq_refl eq_refl
           ltac:(discriminate) ltac:(discriminate) eq_refl).
Defined.

(** * Further properties of the script *)

(** ** Running a sequence step by step *)

Lemma bind_Ret {A B} (m : M A) (k : A → M B) w a w' :
  m w = (Ret a, w') → bind m k w = k a w'.
Proof. intros H. unfold bind. by rewrite H. Qed.

Lemma bind_Raise {A B} (m : M A) (k : A → M B) w e w' :
  m w = (Raise e, w') → bind m k w = (Raise e, w').
Proof. intros H. unfold bind. by rewrite H. Qed.

Lemma bind_OutOfFuel {A B} (m : M A) (k : A → M B) w w' :
  m w = (OutOfFuel, w') → bind m k w = (OutOfFuel, w').
Proof. intros H. unfold bind. by rewrite H. Qed.

Lemma emit_run e w : emit e w = (Ret (), logged w [e]).
Proof. done. Qed.

Lemma open_for_reading path mode w content perm :
  mode ≠ "w" →
  fs w !! path = Some (RegFile content perm) →
  Z.land perm owner_read ≠ 0 →
  open_ path mode w = (Ret (path, content), logged w [EOpen path mode]).
Proof.
  intros Hmode Hfile Hperm%Z.eqb_neq. unfold open_.
  rewrite (bind_Ret _ _ _ _ _ (emit_run _ _)). rewrite Hfile.
  by rewrite bool_decide_eq_false_2, Hperm.
Qed.

Lemma open_special_for_reading path mode w content perm :
  mode ≠ "w" →
  fs w !! path = Some (Special content perm) →
  Z.land perm owner_read ≠ 0 →
  open_ path mode w = (Ret (path, content), logged w [EOpen path mode]).
Proof.
  intros Hmode Hfile Hperm%Z.eqb_neq. unfold open_.
  rewrite (bind_Ret _ _ _ _ _ (emit_run _ _)). rewrite Hfile.
  by rewrite bool_decide_eq_false_2, Hperm.
Qed.

Lemma open_for_reading_fails path mode w :
  mode ≠ "w" → fs w !! path = None ∨ fs w !! path = Some Directory →
  open_ path mode w = (Raise (IOError path), logged w [EOpen path mode]).
Proof.
  intros Hmode Hnot. unfold open_.
  rewrite (bind_Ret _ _ _ _ _ (emit_run _ _)).
  destruct Hnot as [-> | ->]; [|done].
  by rewrite bool_decide_eq_false_2.
Qed.

(** ** The other two kinds of push *)

Section MoreDispatch.
Context (env : Env).

(** Shows which decorated method a field of the client is. *)
Ltac expose_method :=
  cbn [decorate raw_client c_push_file c_upload_file c_push_link c_push_note].

(** X1.  Pushing content classified as a link issues exactly one remote
    call, [push_link], whose title and url are both the content itself;
    the device is routed as for a note and there is no other parameter. *)
Theorem push_link_parameters (device : option pyval) (raw_data : string) (w : world) :
  ∃ kw,
    snd (_push (decorate env (raw_client env)) device raw_data "url" w)
      = logged w [ECall push_link [] kw] ∧
    kw !! "title" = Some (PStr raw_data) ∧
    kw !! "url" = Some (PStr raw_data) ∧
    kw !! "device" = device ∧
    dom kw ⊆ {["title"; "url"; "device"]}.
Proof.
  eexists. split.
  - unfold _push. rewrite bool_decide_eq_false_2 by done.
    rewrite bool_decide_eq_true_2 by done.
    expose_method. unfold bind. rewrite wrapped_call.
    by destruct (remote env push_link [] _) as [[] data].
  - destruct device; simpl; rewrite !dom_insert_L, dom_empty_L;
      (split_and!; [done..|]); intros k;
      rewrite !elem_of_union, !elem_of_singleton, elem_of_empty; tauto.
Qed.

Lemma failure_message_unfold m args kw :
  failure_message env m args kw =
  "<bound method PushBullet." +:+ method_name m +:+ " of " +:+ obj_repr env
  +:+ "> failed: " +:+ payload_str env (snd (remote env m args kw)).
Proof. done. Qed.

Lemma push_link_run device raw_data w :
  let kw := <["title" := PStr raw_data]> (<["url" := PStr raw_data]> (routing device)) in
  _push (decorate env (raw_client env)) device raw_data "url" w =
    (call_outcome env push_link [] kw, logged w [ECall push_link [] kw]).
Proof.
  intros kw. unfold _push. rewrite bool_decide_eq_false_2 by done.
  rewrite bool_decide_eq_true_2 by done.
  expose_method. unfold bind. rewrite wrapped_call. fold (routing device). fold kw.
  unfold call_outcome. rewrite <- failure_message_unfold.
  by destruct (fst (remote env push_link [] kw)).
Qed.

Lemma push_file_opened device path w content :
  open_ path "rb" w = (Ret (path, content), logged w [EOpen path "rb"]) →
  let upload := remote env upload_file [PFile path content; PStr path] ∅ in
  _push (decorate env (raw_client env)) device path "file" w =
    if fst upload then
      (call_outcome env push_file [] (snd upload ∪ routing device),
       logged w [EOpen path "rb";
                 ECall upload_file [PFile path content; PStr path] ∅;
                 ECall push_file [] (snd upload ∪ routing device)])
    else
      (call_outcome env upload_file [PFile path content; PStr path] ∅,
       logged w [EOpen path "rb";
                 ECall upload_file [PFile path content; PStr path] ∅]).
Proof.
  intros Hopen upload.
  unfold _push. rewrite bool_decide_eq_true_2 by done. expose_method.
  fold (routing device). unfold with_open, call_outcome.
  rewrite <- !failure_message_unfold.
  destruct (fst upload) eqn:Hup.
  - erewrite bind_Ret; cycle 1.
    { erewrite bind_Ret by exact Hopen.
      rewrite try_finally_skip, wrapped_call. simpl. fold upload.
      by rewrite Hup. }
    unfold bind. rewrite wrapped_call.
    destruct (fst (remote env push_file [] _)); unfold ret;
      by rewrite !logged_logged.
  - fold upload. rewrite Hup.
    erewrite bind_Raise; cycle 1.
    { erewrite bind_Ret by exact Hopen.
      rewrite try_finally_skip, wrapped_call. simpl. fold upload.
      by rewrite Hup. }
    by rewrite logged_logged.
Qed.

Lemma push_file_run device path w content perm :
  fs w !! path = Some (RegFile content perm) →
  Z.land perm owner_read ≠ 0 →
  let upload := remote env upload_file [PFile path content; PStr path] ∅ in
  _push (decorate env (raw_client env)) device path "file" w =
    if fst upload then
      (call_outcome env push_file [] (snd upload ∪ routing device),
       logged w [EOpen path "rb";
                 ECall upload_file [PFile path content; PStr path] ∅;
                 ECall push_file [] (snd upload ∪ routing device)])
    else
      (call_outcome env upload_file [PFile path content; PStr path] ∅,
       logged w [EOpen path "rb";
                 ECall upload_file [PFile path content; PStr path] ∅]).
Proof.
  intros Hfile Hperm. apply push_file_opened.
  by apply (open_for_reading path "rb" w content perm).
Qed.

Lemma push_file_unreadable device path w :
  fs w !! path = None ∨ fs w !! path = Some Directory →
  _push (decorate env (raw_client env)) device path "file" w =
    (Raise (IOError path), logged w [EOpen path "rb"]).
Proof.
  intros Hnot.
  unfold _push. rewrite bool_decide_eq_true_2 by done. unfold with_open.
  erewrite bind_Raise; [done|].
  erewrite bind_Raise; [done|]. by apply open_for_reading_fails.
Qed.

(** X2.  Pushing a file.  If the path is a readable regular file, the file
    is opened, uploaded with its name, and only when the upload succeeds
    pushed with the upload's answer merged over the routing option (the
    answer wins on a common key); a failed upload ends the push before
    [push_file] is called.  A readable special file goes the same way, with
    what reading it yields.  If the path names nothing, or a directory, the
    push ends with [IOError] and nothing is sent. *)
Theorem push_file_sequence (device : option pyval) (path : string) (w : world) :
  let data : gmap string pyval :=
    match device with Some d => <["device" := d]> ∅ | None => ∅ end in
  (∀ content perm,
     fs w !! path = Some (RegFile content perm) ∨
     fs w !! path = Some (Special content perm) →
     Z.land perm owner_read ≠ 0 →
     let upload := remote env upload_file [PFile path content; PStr path] ∅ in
     _push (decorate env (raw_client env)) device path "file" w =
       if fst upload then
         (if fst (remote env push_file [] (snd upload ∪ data)) then Ret ()
          else Raise (PushbulletException
                        (failure_message env push_file [] (snd upload ∪ data))),
          logged w [EOpen path "rb";
                    ECall upload_file [PFile path content; PStr path] ∅;
                    ECall push_file [] (snd upload ∪ data)])
       else
         (Raise (PushbulletException
                   (failure_message env upload_file [PFile path content; PStr path] ∅)),
          logged w [EOpen path "rb";
                    ECall upload_file [PFile path content; PStr path] ∅])) ∧
  (fs w !! path = None ∨ fs w !! path = Some Directory →
   _push (decorate env (raw_client env)) device path "file" w =
     (Raise (IOError path), logged w [EOpen path "rb"])).
Proof.
  intros data. split.
  - intros content perm Hfile Hperm upload.
    rewrite (push_file_opened device path w content).
    + fold upload. fold (routing device). fold data. unfold call_outcome.
      rewrite <- !failure_message_unfold. fold upload.
      by destruct (fst upload).
    + destruct Hfile as [Hfile|Hfile].
      * by apply (open_for_reading path "rb" w content perm).
      * by apply (open_special_for_reading path "rb" w content perm).
  - apply push_file_unreadable.
Qed.

End MoreDispatch.

(** ** A message read from standard input *)

Section StdinMessage.
Context (env : Env).

Ltac expose_method :=
  cbn [decorate raw_client c_push_file c_upload_file c_push_link c_push_note].

(** [_push] for any kind other than ["file"] and ["url"]. *)
Lemma push_note_run device content data_type w :
  data_type ≠ "file" → data_type ≠ "url" →
  let kw := <["title" := PStr "Note"]> (<["body" := PStr content]> (routing device)) in
  _push (decorate env (raw_client env)) device content data_type w =
    (if fst (remote env push_note [] kw) then Ret ()
     else Raise (PushbulletException (failure_message env push_note [] kw)),
     logged w [ECall push_note [] kw]).
Proof.
  intros Hf Hu kw. unfold _push. rewrite !bool_decide_eq_false_2 by done.
  expose_method. unfold bind. rewrite wrapped_call. fold (routing device). fold kw.
  by destruct (fst (remote env push_note [] kw)).
Qed.

Lemma read_lines_all ls pos fuel :
  (∀ j l, ls !! j = Some l → stdin env (pos + j) = Some l) →
  stdin env (pos + length ls) = None →
  (length ls < fuel)%nat →
  read_lines env fuel pos = Some (whole_text ls, (pos + length ls)%nat).
Proof.
  revert pos fuel. induction ls as [|l ls IH]; intros pos fuel Hls Hend Hfuel.
  - destruct fuel; [simpl in Hfuel; lia|]. simpl in *.
    rewrite Nat.add_0_r in Hend |- *. by rewrite Hend.
  - destruct fuel; [simpl in Hfuel; lia|]. simpl.
    assert (Hl := Hls 0%nat l eq_refl). rewrite Nat.add_0_r in Hl. rewrite Hl.
    rewrite (IH (S pos) fuel).
    + do 2 f_equal. simpl. lia.
    + intros j l' Hj. rewrite <- (Hls (S j) l' Hj). f_equal. lia.
    + rewrite <- Hend. f_equal. simpl. lia.
    + simpl in Hfuel. lia.
Qed.

Lemma read_lines_endless pos fuel :
  (∀ n, (pos ≤ n)%nat → is_Some (stdin env n)) →
  read_lines env fuel pos = None.
Proof.
  revert pos. induction fuel as [|fuel IH]; intros pos Hall; [done|]. simpl.
  destruct (Hall pos ltac:(lia)) as [l ->].
  rewrite IH; [done|]. intros n Hn. apply Hall. lia.
Qed.

(** X3.  Without message words [main] asks for the message, reads standard
    input to its end and pushes the text as a note: the text is never
    tested for being a file or a link, whatever it looks like.  On an
    input that never ends, the read never returns and nothing is sent. *)
Theorem stdin_message_is_a_note (fuel : nat) (args : Namespace)
    (device : option Device) (w : world) :
  msg args = [] →
  (∀ ls : list string,
     (∀ j l, ls !! j = Some l → stdin env (stdin_pos w + j) = Some l) →
     stdin env (stdin_pos w + length ls) = None →
     (length ls < fuel)%nat →
     let kw := <["title" := PStr "Note"]>
                 (<["body" := PStr (whole_text ls)]> (routing (PDev <$> device))) in
     main_dispatch env fuel (decorate env (raw_client env)) args device w =
       (if fst (remote env push_note [] kw) then Ret 0
        else Raise (PushbulletException (failure_message env push_note [] kw)),
        {| fs := fs w; umask := umask w;
           stdin_pos := stdin_pos w + length ls;
           log := log w ++ [EPrint "Enter your message: "; EStdinRead;
                            ECall push_note [] kw] |})) ∧
  ((∀ n, (stdin_pos w ≤ n)%nat → is_Some (stdin env n)) →
   main_dispatch env fuel (decorate env (raw_client env)) args device w =
     (OutOfFuel, logged w [EPrint "Enter your message: "; EStdinRead])).
Proof.
  intros Hmsg. unfold main_dispatch. rewrite Hmsg. split.
  - intros ls Hls Hend Hfuel.
    set (kw := <["title" := PStr "Note"]> _).
    erewrite bind_Ret; cycle 1.
    { erewrite bind_Ret by apply emit_run.
      erewrite bind_Ret; [reflexivity|].
      unfold sys_stdin_read. erewrite bind_Ret by apply emit_run.
      simpl. rewrite (read_lines_all ls) by done. reflexivity. }
    simpl. unfold bind. rewrite push_note_run by done. fold kw.
    destruct (fst (remote env push_note [] kw)); unfold ret, logged; simpl;
      by rewrite <- !(assoc_L (++)).
  - intros Hendless.
    erewrite bind_OutOfFuel; [reflexivity|].
    erewrite bind_Ret by apply emit_run.
    erewrite bind_OutOfFuel; [reflexivity|].
    unfold sys_stdin_read. erewrite bind_Ret by apply emit_run.
    simpl. rewrite read_lines_endless by done.
    unfold out_of_fuel. by rewrite logged_logged.
Qed.

End StdinMessage.

(** ** More on the credential store *)

Section MoreCredential.
Context (env : Env).

(** X4.  When no key file exists and standard input is at its end, the
    prompt for the key raises [EOFError]: no key is made up, no file is
    created, the mask is never changed, and the only trace is the test for
    the file, the two lines of instructions and the prompt. *)
Theorem get_api_key_end_of_input (w : world) :
  isfile (fs w) (KEY_PATH env) = false →
  stdin env (stdin_pos w) = None →
  _get_api_key env w =
    (Raise EOFError,
     logged w [EIsFile (KEY_PATH env);
               EPrint "What's your API key?";
               EPrint "Find it at <https://www.pushbullet.com/account>.";
               EPrompt "> "]).
Proof.
  intros Hnot Hend. unfold _get_api_key.
  erewrite bind_Ret; cycle 1.
  { unfold os_path_isfile. erewrite bind_Ret by apply emit_run.
    unfold ret. by rewrite Hnot. }
  simpl. unfold print.
  do 2 erewrite bind_Ret by apply emit_run.
  erewrite bind_Raise; [reflexivity|].
  unfold read_line, raw_input. erewrite bind_Ret by apply emit_run.
  simpl. rewrite Hend. unfold raise. by rewrite !logged_logged.
Qed.

(** X5.  An existing key file is returned as it is, character for
    character: nothing is stripped (a final newline stays in the key),
    nothing is asked, and neither the file, its mode nor the mask change.
    A key file without read permission ends the call with [IOError]. *)
Theorem get_api_key_reads_verbatim (w : world) (content : string) (perm : Z) :
  fs w !! KEY_PATH env = Some (RegFile content perm) →
  _get_api_key env w =
    (if (Z.land perm owner_read =? 0)%Z then Raise (IOError (KEY_PATH env))
     else Ret content,
     logged w [EIsFile (KEY_PATH env); EOpen (KEY_PATH env) "r"]).
Proof.
  intros Hfile. unfold _get_api_key.
  erewrite bind_Ret; cycle 1.
  { unfold os_path_isfile. erewrite bind_Ret by apply emit_run.
    unfold ret, isfile. by rewrite Hfile. }
  simpl. unfold with_open.
  destruct (Z.land perm owner_read =? 0)%Z eqn:Hperm.
  - erewrite bind_Raise; cycle 1.
    { unfold open_. erewrite bind_Ret by apply emit_run. simpl.
      rewrite Hfile, Hperm. reflexivity. }
    by rewrite logged_logged.
  - apply Z.eqb_neq in Hperm.
    erewrite bind_Ret; cycle 1.
    { apply (open_for_reading _ "r" _ content perm); done. }
    rewrite try_finally_skip. unfold file_read, ret. simpl.
    by rewrite logged_logged.
Qed.

(** X6.  Whatever line is typed at the first run, the key returned is the
    line without its newline and surrounding blanks, the key file holds
    exactly that key with mode 0600 whatever the mask was, the line is the
    only input consumed, and every other file is as before.  In any later
    world with the same files, [_get_api_key] returns the same key and
    leaves the files alone. *)
Theorem credential_round_trip_any_key (w : world) (line : string) :
  fs w !! KEY_PATH env = None →
  stdin env (stdin_pos w) = Some line →
  write_ok env (KEY_PATH env) (strip (chomp line)) = true →
  let key := strip (chomp line) in
  let first := _get_api_key env w in
  fst first = Ret key ∧
  fs (snd first) = <[KEY_PATH env := RegFile key mode_0600]> (fs w) ∧
  umask (snd first) = umask w ∧
  stdin_pos (snd first) = S (stdin_pos w) ∧
  ∀ later : world,
    fs later = fs (snd first) →
    fst (_get_api_key env later) = Ret key ∧
    fs (snd (_get_api_key env later)) = fs later ∧
    stdin_pos (snd (_get_api_key env later)) = stdin_pos later.
Proof.
  intros Hnone Hline Hok key first. subst first.
  rewrite (get_api_key_first_run env w line Hnone Hline Hok). simpl.
  split_and!; try done.
  intros later Hfs.
  rewrite (get_api_key_existing env later key mode_0600); [done| |done].
  rewrite Hfs. apply lookup_insert_eq.
Qed.

End MoreCredential.

(** ** The shape of a run *)

Section RunShape.
Context (env : Env).

Lemma open_denied path mode w content perm :
  mode ≠ "w" →
  fs w !! path = Some (RegFile content perm) →
  Z.land perm owner_read = 0 →
  open_ path mode w = (Raise (IOError path), logged w [EOpen path mode]).
Proof.
  intros Hmode Hfile Hperm%Z.eqb_eq. unfold open_.
  rewrite (bind_Ret _ _ _ _ _ (emit_run _ _)). rewrite Hfile.
  by rewrite bool_decide_eq_false_2, Hperm.
Qed.

Lemma open_special_denied path mode w content perm :
  mode ≠ "w" →
  fs w !! path = Some (Special content perm) →
  Z.land perm owner_read = 0 →
  open_ path mode w = (Raise (IOError path), logged w [EOpen path mode]).
Proof.
  intros Hmode Hfile Hperm%Z.eqb_eq. unfold open_.
  rewrite (bind_Ret _ _ _ _ _ (emit_run _ _)). rewrite Hfile.
  by rewrite bool_decide_eq_false_2, Hperm.
Qed.

(** Opening a path for reading yields a file object for that path, or
    [IOError]. *)
Lemma open_rb_cases path w :
  (∃ content, open_ path "rb" w = (Ret (path, content), logged w [EOpen path "rb"])) ∨
  open_ path "rb" w = (Raise (IOError path), logged w [EOpen path "rb"]).
Proof.
  destruct (fs w !! path) as [[content perm| |content perm]|] eqn:Hnode.
  - destruct (decide (Z.land perm owner_read = 0)) as [Hperm|Hperm].
    + right. by eapply open_denied.
    + left. exists content. by eapply open_for_reading.
  - right. apply open_for_reading_fails; auto.
  - destruct (decide (Z.land perm owner_read = 0)) as [Hperm|Hperm].
    + right. by eapply open_special_denied.
    + left. exists content. by eapply open_special_for_reading.
  - right. apply open_for_reading_fails; auto.
Qed.

Lemma push_file_open_fails device path w e w' :
  open_ path "rb" w = (Raise e, w') →
  _push (decorate env (raw_client env)) device path "file" w = (Raise e, w').
Proof.
  intros Hopen.
  unfold _push. rewrite bool_decide_eq_true_2 by done. unfold with_open.
  erewrite bind_Raise; [done|]. by erewrite bind_Raise.
Qed.

(** Every push has one of the four shapes. *)
Lemma push_has_shape device raw_data data_type w :
  ∃ evs o,
    _push (decorate env (raw_client env)) device raw_data data_type w
      = (o, logged w evs) ∧
    push_shape env evs o.
Proof.
  destruct (decide (data_type = "file")) as [->|Hfile].
  - destruct (open_rb_cases raw_data w) as [[content Hopen]|Hopen].
    + rewrite (push_file_opened env device raw_data w content Hopen).
      destruct (fst (remote env upload_file _ ∅)) eqn:Hup.
      * do 2 eexists. split; [done|]. do 3 right. by do 3 eexists.
      * do 2 eexists. split; [done|]. do 2 right; left. by do 2 eexists.
    + do 2 eexists. split.
      { by apply push_file_open_fails. }
      right; left. by eexists.
  - destruct (decide (data_type = "url")) as [->|Hurl].
    + rewrite push_link_run. do 2 eexists. split; [done|].
      left. exists push_link. by eexists.
    + rewrite push_note_run by done. do 2 eexists. split.
      { unfold failure_message. reflexivity. }
      left. exists push_note. by eexists.
Qed.

Lemma run_shape_pointwise (c : M Z) :
  (∀ w, ∃ c' : M Z, c w = c' w ∧ run_shape env c') → run_shape env c.
Proof. intros H w. destruct (H w) as (c' & -> & Hq). apply Hq. Qed.

Lemma run_shape_bind_quiet {A} (c : M A) (k : A → M Z) :
  quiet c → (∀ a, run_shape env (k a)) → run_shape env (bind c k).
Proof.
  intros Hc Hk w. unfold bind. destruct (Hc w) as (evs1 & H1 & F1).
  destruct (c w) as [[a|e|] w1]; simpl in *.
  - destruct (Hk a w1) as (before & push & H2 & F2 & Hcase).
    exists (evs1 ++ before), push. split_and!.
    + by rewrite H2, H1, !(assoc_L (++)).
    + by apply Forall_app.
    + done.
  - exists evs1, []. rewrite app_nil_r. split_and!; try done. by left.
  - exists evs1, []. rewrite app_nil_r. split_and!; try done. by left.
Qed.

Lemma run_shape_exit_1 (c : M Z) :
  quiet c → (∀ w z, fst (c w) = Ret z → z = 1) → run_shape env c.
Proof.
  intros Hc Hz w. destruct (Hc w) as (evs & H1 & F1).
  exists evs, []. rewrite app_nil_r. split_and!; try done. left. eauto.
Qed.

Lemma run_shape_main_dispatch fuel args device :
  run_shape env (main_dispatch env fuel (decorate env (raw_client env)) args device).
Proof.
  unfold main_dispatch. apply run_shape_bind_quiet.
  { destruct (msg args); auto 6 with quiet. }
  intros content w.
  destruct (push_has_shape (PDev <$> device) content.1 content.2 w)
    as (evs & o & Hrun & Hshape).
  exists [], evs. unfold bind. rewrite Hrun. split_and!.
  - by destruct o.
  - constructor.
  - right. exists o. split; [done|]. by destruct o.
Qed.

Lemma run_shape_main fuel argv : run_shape env (main env fuel argv).
Proof.
  apply run_shape_pointwise. intros w. eexists. split; [apply main_unfold|].
  apply run_shape_bind_quiet; [auto with quiet|intros args].
  apply run_shape_bind_quiet; [auto with quiet|intros key].
  apply run_shape_bind_quiet; [auto with quiet|intros _].
  cbv zeta.
  destruct (negb (all_ args)); [|apply run_shape_main_dispatch].
  destruct (length (devices env) <? 1)%nat.
  { apply run_shape_exit_1; [auto with quiet|]. by intros w' z [= <-]. }
  destruct (interactive args).
  { apply run_shape_bind_quiet; [auto with quiet|intros d].
    apply run_shape_main_dispatch. }
  destruct (truthy (device args)); [|apply run_shape_main_dispatch].
  destruct (devices_by_names (devices env) !! default "" (device args)).
  - apply run_shape_main_dispatch.
  - apply run_shape_exit_1; [auto with quiet|]. by intros w' z [= <-].
Qed.

Lemma filter_calls_quiet (evs : list event) :
  Forall (λ e, is_call e = false) evs → filter (λ e, is_call e = true) evs = [].
Proof.
  induction 1 as [|e evs He _ IH]; [done|].
  rewrite filter_cons_False; [done|]. by rewrite He.
Qed.

(** X7.  What the exit status of [main] means.  [main] returns 0 or 1 and
    nothing else.  If it returns 0, the last thing that happened is a push
    call ([push_note], [push_link] or [push_file]) that the service
    reported as successful.  If it returns 1, no remote call was made at
    all. *)
Theorem exit_status_meaning (fuel : nat) (argv : list cli_arg) (w : world) :
  ∃ evs,
    log (snd (main env fuel argv w)) = log w ++ evs ∧
    (∀ z, fst (main env fuel argv w) = Ret z → z = 0 ∨ z = 1) ∧
    (fst (main env fuel argv w) = Ret 0 →
       ∃ m kw, last evs = Some (ECall m [] kw) ∧ m ≠ upload_file ∧
               fst (remote env m [] kw) = true) ∧
    (fst (main env fuel argv w) = Ret 1 →
       Forall (λ e, is_call e = false) evs).
Proof.
  destruct (run_shape_main fuel argv w) as (before & push & Hlog & Hq & Hcase).
  exists (before ++ push). split; [done|].
  destruct Hcase as [[-> Hone]|(o & Hshape & Ho)].
  - rewrite app_nil_r. split_and!.
    + intros z Hz. right. by apply Hone.
    + intros H0. apply Hone in H0. lia.
    + done.
  - rewrite Ho. split_and!.
    + intros z Hz. left. destruct o; simpl in Hz; by simplify_eq.
    + intros H0. destruct o as [[]|e|]; try done.
      unfold push_shape, call_outcome in Hshape.
      destruct Hshape as [(m & kw & Hm & _ & -> & Hout)
                         |[(path & -> & Hout)
                          |[(path & args & -> & Hfail & Hout)
                           |(path & args & kw & -> & Hup & Hout)]]].
      * exists m, kw. rewrite last_snoc. split_and!; try done.
        by destruct (fst (remote env m [] kw)).
      * done.
      * by rewrite Hfail in Hout.
      * exists push_file, kw. rewrite last_app. simpl.
        split_and!; try done. by destruct (fst (remote env push_file [] kw)).
    + intros H1. destruct o; simpl in H1; by simplify_eq.
Qed.

(** X8.  One run, one push.  The remote calls of a run of [main] are none,
    or a single call, or a successful [upload_file] followed by
    [push_file]: nothing is ever sent twice, and nothing is sent after a
    call. *)
Theorem one_push_per_run (fuel : nat) (argv : list cli_arg) (w : world) :
  ∃ evs,
    log (snd (main env fuel argv w)) = log w ++ evs ∧
    (filter (λ e, is_call e = true) evs = [] ∨
     (∃ m args kw, filter (λ e, is_call e = true) evs = [ECall m args kw] ∧
                   last evs = Some (ECall m args kw)) ∨
     (∃ args kw,
        filter (λ e, is_call e = true) evs
          = [ECall upload_file args ∅; ECall push_file [] kw] ∧
        fst (remote env upload_file args ∅) = true ∧
        last evs = Some (ECall push_file [] kw))).
Proof.
  destruct (run_shape_main fuel argv w) as (before & push & Hlog & Hq & Hcase).
  exists (before ++ push). split; [done|].
  rewrite filter_app, (filter_calls_quiet before Hq). simpl.
  destruct Hcase as [[-> _]|(o & Hshape & _)]; [by left|].
  destruct Hshape as [(m & kw & _ & _ & -> & _)
                     |[(path & -> & _)
                      |[(path & args & -> & _ & _)
                       |(path & args & kw & -> & Hup & _)]]].
  - right; left. exists m, [], kw. by rewrite last_snoc.
  - by left.
  - right; left. exists upload_file, args, ∅. by rewrite last_app.
  - right; right. exists args, kw. by rewrite last_app.
Qed.

End RunShape.

(** ** Files and mask *)

Section Frame.
Context (env : Env).

Lemma untouched_pointwise {A} (c : M A) :
  (∀ w, ∃ c' : M A, c w = c' w ∧ untouched c') → untouched c.
Proof. intros H w. destruct (H w) as (c' & -> & Hq). apply Hq. Qed.

Lemma untouched_ret {A} (a : A) : untouched (ret a).
Proof. by intros w. Qed.

Lemma untouched_raise {A} (e : exn) : untouched (raise (A:=A) e).
Proof. by intros w. Qed.

Lemma untouched_out_of_fuel {A} : untouched (out_of_fuel (A:=A)).
Proof. by intros w. Qed.

Lemma untouched_emit (e : event) : untouched (emit e).
Proof. by intros w. Qed.

Lemma untouched_bind {A B} (c : M A) (k : A → M B) :
  untouched c → (∀ a, untouched (k a)) → untouched (bind c k).
Proof.
  intros Hc Hk w. unfold bind. destruct (Hc w) as [H1 H2].
  destruct (c w) as [[a|e|] w1]; simpl in *; [|done..].
  destruct (Hk a w1) as [H3 H4]. by rewrite H3, H4.
Qed.

Lemma untouched_try_finally_skip {A} (c : M A) :
  untouched c → untouched (try_finally c (ret ())).
Proof. intros Hc w. rewrite try_finally_skip. apply Hc. Qed.

Create HintDb untouched discriminated.
#[local] Hint Resolve untouched_ret untouched_raise untouched_out_of_fuel
  untouched_emit untouched_try_finally_skip : untouched.
#[local] Hint Extern 1 (untouched (print _)) => apply untouched_emit : untouched.
#[local] Hint Extern 2 (untouched (bind _ _)) =>
  apply untouched_bind; [|intros ?] : untouched.
#[local] Hint Extern 3 (untouched (if ?b then _ else _)) => destruct b : untouched.

Ltac untouched_at_world f :=
  apply untouched_pointwise; intros ?w; eexists; split; [unfold f; reflexivity|].

Lemma untouched_os_path_isfile path : untouched (os_path_isfile path).
Proof. untouched_at_world os_path_isfile. auto with untouched. Qed.

Lemma untouched_open_for_reading path mode :
  mode ≠ "w" → untouched (open_ path mode).
Proof.
  intros Hmode. untouched_at_world open_.
  apply untouched_bind; [auto with untouched|intros _].
  rewrite bool_decide_eq_false_2 by done.
  destruct (fs w !! path) as [[content perm| |content perm]|]; auto with untouched.
Qed.

Lemma untouched_raw_input prompt : untouched (raw_input env prompt).
Proof.
  untouched_at_world raw_input.
  apply untouched_bind; [auto with untouched|intros _].
  destruct (stdin env (stdin_pos w)); [|auto with untouched]. by intros w'.
Qed.

Lemma untouched_sys_stdin_read fuel : untouched (sys_stdin_read env fuel).
Proof.
  untouched_at_world sys_stdin_read.
  apply untouched_bind; [auto with untouched|intros _].
  destruct (read_lines env fuel (stdin_pos w)) as [[text pos]|];
    [|auto with untouched]. by intros w'.
Qed.

Lemma untouched_wrapped_call m args kw :
  untouched (func_call (raise_for_status env (bound_method env m)) args kw).
Proof. intros w. by rewrite wrapped_call. Qed.
#[local] Hint Resolve untouched_os_path_isfile untouched_raw_input
  untouched_sys_stdin_read untouched_wrapped_call : untouched.

Lemma untouched_print_menu i devs : untouched (print_menu i devs).
Proof.
  revert i. induction devs as [|d devs IH]; intros i; simpl; auto with untouched.
Qed.

Lemma untouched_prompt_loop fuel devs : untouched (prompt_loop env fuel devs).
Proof.
  induction fuel as [|fuel IH]; simpl; [auto with untouched|].
  apply untouched_bind; [auto with untouched|intros line].
  destruct (py_int (strip line)) as [choice|]; [|done].
  destruct (in_range choice devs); [|done].
  destruct (devs !! Z.to_nat choice); auto with untouched.
Qed.

Lemma untouched_prompt_device fuel devs : untouched (_prompt_device env fuel devs).
Proof.
  unfold _prompt_device. apply untouched_bind; [apply untouched_print_menu|].
  intros _. apply untouched_prompt_loop.
Qed.

Lemma untouched_data_type argument : untouched (_data_type argument).
Proof.
  unfold _data_type. apply untouched_bind; [auto with untouched|intros b].
  destruct b; [auto with untouched|]. destruct (re_search _ _); auto with untouched.
Qed.

Lemma untouched_push device raw_data data_type :
  untouched (_push (decorate env (raw_client env)) device raw_data data_type).
Proof.
  unfold _push.
  cbn [decorate raw_client c_push_file c_upload_file c_push_link c_push_note].
  repeat case_bool_decide.
  - apply untouched_bind.
    + unfold with_open. apply untouched_bind.
      * by apply untouched_open_for_reading.
      * intros f. auto with untouched.
    + intros file_data. auto with untouched.
  - auto with untouched.
  - auto with untouched.
Qed.

Lemma untouched_main_dispatch fuel args device :
  untouched (main_dispatch env fuel (decorate env (raw_client env)) args device).
Proof.
  unfold main_dispatch. apply untouched_bind.
  - destruct (msg args); auto 6 using untouched_data_type with untouched.
  - intros content. apply untouched_bind; [apply untouched_push|].
    auto with untouched.
Qed.

(** Everything [main] does once the key is known. *)
Lemma untouched_after_key fuel args key :
  untouched
    (emit (EConnect key) ;;;
     let pb := decorate env (raw_client env) in
     if negb (all_ args) then
       if (length (devices env) <? 1)%nat then
         print "You don't have any devices!" ;;;
         print "Add one at <https://www.pushbullet.com/>." ;;;
         ret 1
       else if interactive args then
         let* d := _prompt_device env fuel (devices env) in
         main_dispatch env fuel pb args (Some d)
       else if truthy (device args) then
         match devices_by_names (devices env) !! default "" (device args) with
         | None =>
             print ("Unknown device " +:+ default "" (device args)
                    +:+ ". Available devices: "
                    +:+ join ", " (dict_keys (devices_by_names (devices env)))) ;;;
             ret 1
         | Some d => main_dispatch env fuel pb args (Some d)
         end
       else main_dispatch env fuel pb args None
     else main_dispatch env fuel pb args None).
Proof.
  apply untouched_bind; [auto with untouched|intros _]. cbv zeta.
  destruct (negb (all_ args)); [|apply untouched_main_dispatch].
  destruct (length (devices env) <? 1)%nat; [auto with untouched|].
  destruct (interactive args).
  { apply untouched_bind; [apply untouched_prompt_device|intros d].
    apply untouched_main_dispatch. }
  destruct (truthy (device args)); [|apply untouched_main_dispatch].
  destruct (devices_by_names (devices env) !! default "" (device args));
    [apply untouched_main_dispatch|auto with untouched].
Qed.

(** [main] leaves the files and the mask as they are before or as they are
    after the retrieval of the key. *)
Lemma main_frame_split fuel argv w :
  (fs (snd (main env fuel argv w)) = fs w ∧
   umask (snd (main env fuel argv w)) = umask w) ∨
  (fs (snd (main env fuel argv w)) = fs (snd (_get_api_key env w)) ∧
   umask (snd (main env fuel argv w)) = umask (snd (_get_api_key env w))).
Proof.
  rewrite main_unfold. pose proof (parse_args_world argv w) as Hw.
  destruct (_parse_args argv w) as [[args|e|] w0] eqn:Hc; simpl in Hw; subst w0.
  - erewrite bind_Ret by exact Hc.
    right. destruct (_get_api_key env w) as [[key|e|] w1] eqn:Hk.
    + erewrite bind_Ret by exact Hk. apply untouched_after_key.
    + by erewrite bind_Raise by exact Hk.
    + by erewrite bind_OutOfFuel by exact Hk.
  - erewrite bind_Raise by exact Hc. by left.
  - erewrite bind_OutOfFuel by exact Hc. by left.
Qed.

(** What the retrieval of the key can change. *)
Lemma get_api_key_frame w :
  umask (snd (_get_api_key env w)) = umask w ∧
  (∀ p, p ≠ KEY_PATH env → fs (snd (_get_api_key env w)) !! p = fs w !! p) ∧
  (isfile (fs w) (KEY_PATH env) = true → fs (snd (_get_api_key env w)) = fs w).
Proof.
  unfold _get_api_key, read_line, private_files, with_open, try_finally,
    os_path_isfile, os_umask, open_, file_write, file_read, raw_input,
    set_node, print, bind, emit, ret, raise, logged, isfile; simpl.
  destruct (fs w !! KEY_PATH env) as [[content perm| |content perm]|] eqn:Hfile; simpl.
  - rewrite Hfile. by destruct (Z.land perm owner_read =? 0)%Z.
  - destruct (stdin env (stdin_pos w)) as [line|]; simpl; [|done].
    rewrite Hfile. done.
  - destruct (stdin env (stdin_pos w)) as [line|]; simpl; [|done].
    rewrite Hfile. simpl.
    destruct (Z.land perm owner_write =? 0)%Z; simpl; [done|].
    destruct (write_ok env (KEY_PATH env) (strip (chomp line))); simpl; [|done].
    by rewrite Hfile.
  - destruct (stdin env (stdin_pos w)) as [line|]; simpl; [|done].
    rewrite Hfile. simpl.
    destruct (write_ok env (KEY_PATH env) (strip (chomp line))); simpl.
    + rewrite lookup_insert_eq. simpl. split_and!; [done| |done].
      intros p Hp. by rewrite !lookup_insert_ne.
    + split_and!; [done| |done]. intros p Hp. by rewrite lookup_insert_ne.
Qed.

(** X9.  The only file [main] can ever create or change is the key file,
    and only when that file does not exist yet as a regular file; the mask
    of the process is the same after [main] as before, however [main]
    ends. *)
Theorem main_changes_only_the_key_file (fuel : nat) (argv : list cli_arg) (w : world) :
  umask (snd (main env fuel argv w)) = umask w ∧
  (∀ p, p ≠ KEY_PATH env → fs (snd (main env fuel argv w)) !! p = fs w !! p) ∧
  (isfile (fs w) (KEY_PATH env) = true → fs (snd (main env fuel argv w)) = fs w).
Proof.
  destruct (get_api_key_frame w) as (Hmask & Hother & Hexists).
  destruct (main_frame_split fuel argv w) as [[-> ->]|[-> ->]]; done.
Qed.

End Frame.

(** ** What counts as a link *)

Lemma all_chars_app p s t : all_chars p (s +:+ t) = all_chars p s && all_chars p t.
Proof.
  induction s as [|c s IH]; [done|].
  rewrite str_app_cons. simpl. by rewrite IH, andb_assoc.
Qed.

Lemma is_alpha_is_dot c : is_alpha c = true → is_dot c = true.
Proof.
  unfold is_dot. intros Hc. case_bool_decide as Heq; [|done].
  by rewrite Heq in Hc.
Qed.

Lemma all_chars_alpha_dot s : all_chars is_alpha s = true → all_chars is_dot s = true.
Proof.
  induction s as [|c s IH]; [done|]. simpl.
  intros [Hc Hs]%andb_true_iff. by rewrite (is_alpha_is_dot c Hc), IH.
Qed.

Lemma join_cons sep x l :
  join sep (x :: l) = x +:+ match l with [] => "" | _ => sep +:+ join sep l end.
Proof. destruct l; [by rewrite str_app_nil_r|done]. Qed.

(** More text without a newline after a link still is a link. *)
Lemma url_shape_extend s t :
  url_shape s → all_chars is_dot (s +:+ t) = true → url_shape (s +:+ t).
Proof.
  intros (scheme & rest & tail & -> & Hne & Halpha & Hr & Hdots & Htail) Hall.
  assert (tail = "") as ->.
  { destruct Htail as [->| ->]; [done|].
    rewrite !all_chars_app in Hall. simpl in Hall.
    rewrite !andb_true_iff in Hall. by destruct Hall as [(_ & _ & ?) _]. }
  rewrite str_app_nil_r in Hall |- *.
  exists scheme, (rest +:+ t), "". split_and!; try done.
  - by rewrite str_app_nil_r, !str_app_assoc.
  - destruct rest; [done|]. by rewrite str_app_cons.
  - rewrite !str_app_assoc, !all_chars_app in Hall.
    rewrite !andb_true_iff in Hall. destruct Hall as (_ & _ & Hrest & Ht).
    by rewrite all_chars_app, Hrest, Ht.
Qed.

(** A newline that is not the last character lies beyond any newline-free
    prefix. *)
Lemma newline_after_prefix x y a b :
  all_chars is_dot x = true → x +:+ y = a +:+ nl +:+ b →
  ∃ c, y = c +:+ nl +:+ b.
Proof.
  revert a. induction x as [|ch x IH]; intros a Hdots Heq.
  - by exists a.
  - simpl in Hdots. apply andb_true_iff in Hdots as [Hch Hx].
    destruct a as [|ch' a].
    + rewrite str_app_cons in Heq. unfold nl in Heq. rewrite str_app_nil_l, str_app_cons in Heq.
      by simplify_eq.
    + rewrite !str_app_cons in Heq. simplify_eq. by eapply IH.
Qed.

Lemma url_shape_one_line a b : b ≠ "" → ¬ url_shape (a +:+ nl +:+ b).
Proof.
  intros Hb (scheme & rest & tail & Heq & Hne & Halpha & Hr & Hdots & Htail).
  assert (Hx : all_chars is_dot (scheme +:+ "://" +:+ rest) = true).
  { rewrite !all_chars_app, (all_chars_alpha_dot scheme Halpha), Hdots. done. }
  symmetry in Heq. rewrite <- !str_app_assoc in Heq.
  rewrite (str_app_assoc scheme) in Heq.
  rewrite (str_app_assoc a) in Heq.
  destruct (newline_after_prefix _ _ _ _ Hx Heq) as [c Hc].
  destruct Htail as [->| ->].
  - destruct c; by rewrite ?str_app_cons in Hc.
  - destruct c as [|ch [|ch' c]]; unfold nl in Hc;
      rewrite ?str_app_cons, ?str_app_nil_l in Hc; simplify_eq.
Qed.

Lemma data_type_run argument w :
  _data_type argument w =
    (Ret (if isfile (fs w) argument then "file"
          else if re_search URL_RE argument then "url" else "text"),
     logged w [EIsFile argument]).
Proof.
  unfold _data_type. erewrite bind_Ret; cycle 1.
  { unfold os_path_isfile. erewrite bind_Ret by apply emit_run. reflexivity. }
  destruct (isfile (fs w) argument); [done|]. by destruct (re_search _ _).
Qed.

(** X10.  Words after a link make a longer link.  When the first message
    word is shaped like a URL and no word holds a newline, the whole
    message, words joined by single spaces, is classified as a link (unless
    it names a file): the spaces and the words that follow are taken into
    the URL. *)
Theorem link_with_trailing_words (first : string) (others : list string) (w : world) :
  url_shape first →
  all_chars is_dot (join " " (first :: others)) = true →
  isfile (fs w) (join " " (first :: others)) = false →
  fst (_data_type (join " " (first :: others)) w) = Ret "url".
Proof.
  intros Hurl Hdots Hfile. rewrite data_type_run, Hfile.
  rewrite join_cons in Hdots |- *.
  apply url_shape_extend, URL_RE_search_iff in Hdots; [|done].
  by rewrite Hdots.
Qed.

(** X11.  A message with a line break inside is never a link: whatever
    stands before and after, a newline followed by at least one more
    character makes the message a file or a note. *)
Theorem multi_line_message_is_no_link (before after : string) (w : world) :
  after ≠ "" →
  fst (_data_type (before +:+ nl +:+ after) w) ≠ Ret "url".
Proof.
  intros Hafter. rewrite data_type_run. simpl.
  destruct (isfile (fs w) _); [done|].
  destruct (re_search URL_RE _) eqn:Hre; [|done].
  apply URL_RE_search_iff in Hre. by apply url_shape_one_line in Hre.
Qed.

(** ** Names and devices *)

Lemma filter_nickname_absent (devs : list Device) name :
  name ∉ nickname <$> devs → filter (λ d, nickname d = name) devs = [].
Proof.
  induction devs as [|x devs IH]; [done|]. simpl.
  intros [Hx Hdevs]%not_elem_of_cons.
  rewrite filter_cons_False by done. by apply IH.
Qed.

Lemma filter_nickname_unique (devs : list Device) d :
  NoDup (nickname <$> devs) → d ∈ devs →
  filter (λ x, nickname x = nickname d) devs = [d].
Proof.
  induction devs as [|x devs IH]; simpl.
  - by intros _ ?%elem_of_nil.
  - intros [Hx Hnd]%NoDup_cons [->|Hd]%elem_of_cons.
    + rewrite filter_cons_True by done. by rewrite filter_nickname_absent.
    + rewrite filter_cons_False.
      * by apply IH.
      * intros Heq. apply Hx. rewrite Heq. by apply list_elem_of_fmap_2.
Qed.

(** X12.  Which devices a name can reach.  When all nicknames differ,
    every device is reached by its own nickname and the dictionary has one
    entry per device.  A device listed before another one of the same
    nickname (and not again after it) is reached by no name at all. *)
Theorem devices_reachable_by_name (devs : list Device) :
  (NoDup (nickname <$> devs) →
     (∀ d, d ∈ devs → devices_by_names devs !! nickname d = Some d) ∧
     length (dict_keys (devices_by_names devs)) = length devs) ∧
  (∀ l1 d l2 d',
     devs = l1 ++ d :: l2 → d' ∈ l2 → nickname d' = nickname d → d ∉ l2 →
     ∀ name, devices_by_names devs !! name ≠ Some d).
Proof.
  split.
  - intros Hnd.
    assert (Hreach : ∀ d, d ∈ devs → devices_by_names devs !! nickname d = Some d).
    { intros d Hd. by rewrite devices_by_names_lookup, filter_nickname_unique. }
    split; [done|].
    rewrite <- (length_fmap nickname devs). apply Permutation_length.
    apply NoDup_Permutation; [apply dict_keys_NoDup|done|].
    intros n. rewrite dict_keys_spec, list_elem_of_fmap.
    split; intros (d & ? & ?); by exists d.
  - intros l1 d l2 d' -> Hd' Hnick Hnot name Hlook.
    pose proof (devices_by_names_Some _ _ _ Hlook) as [_ <-].
    rewrite devices_by_names_lookup, filter_app, filter_cons_True in Hlook by done.
    assert (Hin : d' ∈ filter (λ x, nickname x = nickname d) l2)
      by by apply list_elem_of_filter.
    destruct (filter (λ x, nickname x = nickname d) l2) as [|y l] eqn:Hf;
      [by apply elem_of_nil in Hin|].
    rewrite (assoc_L (++) _ [d] (y :: l)), last_app in Hlook.
    destruct (last (y :: l)) as [z|] eqn:Hlast; [|by apply last_None in Hlast].
    simplify_eq. apply last_Some_elem_of in Hlast. rewrite <- Hf in Hlast.
    apply list_elem_of_filter in Hlast as [_ ?]. done.
Qed.

(** ** Modes of a parsed command line *)

Lemma parse_args_modes argv w args :
  fst (_parse_args argv w) = Ret args → ∃ seen, modes_seen seen args.
Proof.
  intros Hc%parse_args_consume.
  apply (consume_modes _ _ _ _ _ _ _ (reflexivity _) Hc modes_seen_default).
Qed.

(** X13.  Parsing has no effect on the world, and a parsed command line
    has at most one of the three modes switched on: [--all] excludes
    [--interactive] and a device name, and so on in turn. *)
Theorem parse_args_at_most_one_mode (argv : list cli_arg) (w : world) (args : Namespace) :
  fst (_parse_args argv w) = Ret args →
  snd (_parse_args argv w) = w ∧
  (all_ args = true → interactive args = false ∧ device args = None) ∧
  (interactive args = true → all_ args = false ∧ device args = None) ∧
  (is_Some (device args) → all_ args = false ∧ interactive args = false).
Proof.
  intros Hparse.
  destruct (parse_args_modes _ _ _ Hparse) as (seen & Ha & Hi & Hd & Hsame).
  split; [by rewrite (parse_args_Ret _ _ _ Hparse)|].
  split_and!.
  - intros Hall. specialize (Ha Hall). split.
    + destruct (interactive args); [|done]. by specialize (Hsame _ _ Ha (Hi eq_refl)).
    + destruct (device args) eqn:Hdev; [|done].
      by specialize (Hsame _ _ Ha (Hd (mk_is_Some _ _ eq_refl))).
  - intros Hint. specialize (Hi Hint). split.
    + destruct (all_ args); [|done]. by specialize (Hsame _ _ Hi (Ha eq_refl)).
    + destruct (device args) eqn:Hdev; [|done].
      by specialize (Hsame _ _ Hi (Hd (mk_is_Some _ _ eq_refl))).
  - intros Hdev. specialize (Hd Hdev). split.
    + destruct (all_ args); [|done]. by specialize (Hsame _ _ Hd (Ha eq_refl)).
    + destruct (interactive args); [|done]. by specialize (Hsame _ _ Hd (Hi eq_refl)).
Qed.

(** ** From the prompt to the push *)

Section Interactive.
Context (env : Env).

Lemma prompt_device_returns devs w k d fuel :
  (∀ j, (j < k)%nat → ∃ line,
     stdin env (stdin_pos w + j) = Some line ∧ selection devs line = None) →
  (∃ line,
     stdin env (stdin_pos w + k) = Some line ∧ selection devs line = Some d) →
  (k < fuel)%nat →
  _prompt_device env fuel devs w
    = (Ret d, prompted (S k) (logged w (menu_lines devs))).
Proof.
  intros Hbad (line & Hline & Hsel) Hfuel.
  rewrite prompt_device_menu.
  replace fuel with (k + S (fuel - S k))%nat by lia.
  rewrite prompt_loop_skip by done.
  rewrite (prompt_loop_return _ _ _ _ line d), ?prompted_S; done.
Qed.

(** X14.  When useless answers are followed by the end of input.  If the
    first [k] lines select nothing and no further line comes,
    [_prompt_device] ends with [EOFError] after [k+1] prompts: it returns
    no device, and the files and the mask are as before. *)
Theorem prompt_device_end_of_input (devs : list Device) (w : world) (k fuel : nat) :
  (∀ j, (j < k)%nat → ∃ line,
     stdin env (stdin_pos w + j) = Some line ∧ selection devs line = None) →
  stdin env (stdin_pos w + k) = None →
  (k < fuel)%nat →
  _prompt_device env fuel devs w =
    (Raise EOFError,
     {| fs := fs w; umask := umask w; stdin_pos := stdin_pos w + k;
        log := log w ++ menu_lines devs
                 ++ replicate (S k) (EPrompt "Push to which device? ") |}).
Proof.
  intros Hbad Hend Hfuel. rewrite prompt_device_menu.
  replace fuel with (k + S (fuel - S k))%nat by lia.
  rewrite prompt_loop_skip by done.
  rewrite prompt_loop_eof by done.
  unfold logged, prompted; simpl. do 2 f_equal.
  rewrite <- !(assoc_L (++)). do 2 f_equal.
  by rewrite replicate_cons_app.
Qed.

(** X15.  The device chosen at the prompt is the device pushed to.  With
    [--interactive], a message in words that is neither a file nor a link,
    and answers of which the first [k] select nothing and the next selects
    [d]: [main] connects, shows the menu, prompts [k+1] times, tests the
    message and sends one note whose body is the words joined by spaces and
    whose device is [d]; it returns 0 when the service accepts the note. *)
Theorem interactive_choice_is_the_target (fuel : nat) (argv : list cli_arg)
    (args : Namespace) (w : world) (key : string) (w1 : world) (k : nat) (d : Device) :
  fst (_parse_args argv w) = Ret args →
  interactive args = true →
  msg args ≠ [] →
  _get_api_key env w = (Ret key, w1) →
  isfile (fs w1) (join " " (msg args)) = false →
  re_search URL_RE (join " " (msg args)) = false →
  (∀ j, (j < k)%nat → ∃ line,
     stdin env (stdin_pos w1 + j) = Some line ∧
     selection (devices env) line = None) →
  (∃ line,
     stdin env (stdin_pos w1 + k) = Some line ∧
     selection (devices env) line = Some d) →
  (k < fuel)%nat →
  let kw := <["title" := PStr "Note"]>
              (<["body" := PStr (join " " (msg args))]> (<["device" := PDev d]> ∅)) in
  main env fuel argv w =
    (exit_after (call_outcome env push_note [] kw),
     logged
       (prompted (S k) (logged w1 (EConnect key :: menu_lines (devices env))))
       [EIsFile (join " " (msg args)); ECall push_note [] kw]).
Proof.
  intros Hparse Hint Hmsg Hkey Hfile Hre Hbad Hgood Hfuel kw.
  destruct (parse_args_modes _ _ _ Hparse) as (seen & Ha & Hi & _ & Hsame).
  assert (Hall : all_ args = false).
  { destruct (all_ args); [|done]. by specialize (Hsame _ _ (Hi Hint) (Ha eq_refl)). }
  assert (Hdevs : (length (devices env) <? 1)%nat = false).
  { destruct Hgood as (line & _ & (i & _ & Hi' & Hd)%selection_Some).
    apply Nat.ltb_ge. apply lookup_lt_Some in Hd. lia. }
  rewrite (main_resolution env fuel argv args w key w1 Hparse Hkey).
  cbv zeta. rewrite Hall, Hint, Hdevs. change (negb false) with true. cbv iota.
  erewrite bind_Ret; cycle 1.
  { apply prompt_device_returns; [..|exact Hfuel]; simpl; done. }
  rewrite logged_logged. simpl app.
  unfold main_dispatch. destruct (msg args) as [|word words] eqn:Hwords; [done|].
  erewrite bind_Ret; cycle 1.
  { erewrite bind_Ret; [reflexivity|]. rewrite data_type_run. simpl fs.
    rewrite Hfile, Hre. reflexivity. }
  cbn [fst snd fmap option_fmap option_map].
  unfold bind. rewrite push_note_run by done.
  cbn [routing]. fold kw.
  unfold call_outcome, failure_message.
  destruct (fst (remote env push_note [] kw)); unfold ret, exit_after;
    by rewrite logged_logged.
Qed.

End Interactive.

(** ** From the name of a device to the push of a file *)

Section NamedFile.
Context (env : Env).

(** X16.  A file sent to a device given by name.  With [--device NAME]
    for a known nickname and a message that names a readable regular file
    (whatever the name looks like), [main] connects, tests the message,
    opens the file, uploads it under its name and, the upload accepted,
    pushes the file with the upload's answer merged over the device; it
    returns 0 when that push is accepted. *)
Theorem named_device_file_push (fuel : nat) (argv : list cli_arg)
    (args : Namespace) (name : string) (w : world) (key : string) (w1 : world)
    (d : Device) (content : string) (perm : Z) :
  fst (_parse_args argv w) = Ret args →
  device args = Some name → name ≠ "" →
  devices_by_names (devices env) !! name = Some d →
  msg args ≠ [] →
  _get_api_key env w = (Ret key, w1) →
  fs w1 !! join " " (msg args) = Some (RegFile content perm) →
  Z.land perm owner_read ≠ 0 →
  let path := join " " (msg args) in
  let upload := remote env upload_file [PFile path content; PStr path] ∅ in
  fst upload = true →
  main env fuel argv w =
    (exit_after
       (call_outcome env push_file [] (snd upload ∪ <["device" := PDev d]> ∅)),
     logged w1
       [EConnect key; EIsFile path; EOpen path "rb";
        ECall upload_file [PFile path content; PStr path] ∅;
        ECall push_file [] (snd upload ∪ <["device" := PDev d]> ∅)]).
Proof.
  intros Hparse Hdev Hname Hlook Hmsg Hkey Hfile Hperm path upload Hup.
  assert (Hdevs : devices env ≠ []).
  { apply devices_by_names_Some in Hlook as [Hd _]. intros Heq.
    rewrite Heq in Hd. by apply elem_of_nil in Hd. }
  rewrite (main_named_device env fuel argv args name w key w1
             Hparse Hdev Hname Hdevs Hkey), Hlook.
  unfold main_dispatch. destruct (msg args) as [|word words] eqn:Hwords; [done|].
  erewrite bind_Ret; cycle 1.
  { erewrite bind_Ret; [reflexivity|]. rewrite data_type_run.
    unfold isfile. change (fs (logged w1 [EConnect key])) with (fs w1).
    rewrite Hfile. reflexivity. }
  cbn [fst snd fmap option_fmap option_map].
  unfold bind.
  rewrite (push_file_run env (Some (PDev d)) path _ content perm) by done.
  cbn [routing]. fold upload. rewrite Hup.
  destruct (call_outcome env push_file [] _); unfold ret, exit_after;
    by rewrite !logged_logged.
Qed.

End NamedFile.

(** ** The dispatch of [main] *)

Section MainDispatch.
Context (env : Env).

(** The dispatch of a message given on the command line that names no
    regular file: one push, of a link or of a note. *)
Lemma main_dispatch_words fuel args device w :
  msg args ≠ [] →
  isfile (fs w) (join " " (msg args)) = false →
  let arg := join " " (msg args) in
  let m := if re_search URL_RE arg then push_link else push_note in
  let kw : gmap string pyval :=
    if re_search URL_RE arg
    then <["title" := PStr arg]> (<["url" := PStr arg]> (routing (PDev <$> device)))
    else <["title" := PStr "Note"]> (<["body" := PStr arg]> (routing (PDev <$> device))) in
  main_dispatch env fuel (decorate env (raw_client env)) args device w =
    (exit_after (call_outcome env m [] kw), logged w [EIsFile arg; ECall m [] kw]).
Proof.
  intros Hmsg Hnot arg m kw.
  unfold main_dispatch. destruct (msg args) as [|word words] eqn:Hwords; [done|].
  fold arg. erewrite bind_Ret; cycle 1.
  { erewrite bind_Ret; [reflexivity|]. rewrite data_type_run.
    fold arg in Hnot. rewrite Hnot. reflexivity. }
  cbn [fst snd]. unfold bind. subst m kw.
  destruct (re_search URL_RE arg).
  - rewrite push_link_run.
    destruct (call_outcome env push_link [] _); unfold ret, exit_after;
      by rewrite !logged_logged.
  - rewrite push_note_run by done. unfold call_outcome, failure_message.
    destruct (fst (remote env push_note [] _)); unfold ret, exit_after;
      by rewrite !logged_logged.
Qed.

(** The same for a message that names a readable regular file. *)
Lemma main_dispatch_file fuel args device w content perm :
  msg args ≠ [] →
  fs w !! join " " (msg args) = Some (RegFile content perm) →
  Z.land perm owner_read ≠ 0 →
  let path := join " " (msg args) in
  let upload := remote env upload_file [PFile path content; PStr path] ∅ in
  main_dispatch env fuel (decorate env (raw_client env)) args device w =
    if fst upload then
      (exit_after (call_outcome env push_file [] (snd upload ∪ routing (PDev <$> device))),
       logged w [EIsFile path; EOpen path "rb";
                 ECall upload_file [PFile path content; PStr path] ∅;
                 ECall push_file [] (snd upload ∪ routing (PDev <$> device))])
    else
      (exit_after (call_outcome env upload_file [PFile path content; PStr path] ∅),
       logged w [EIsFile path; EOpen path "rb";
                 ECall upload_file [PFile path content; PStr path] ∅]).
Proof.
  intros Hmsg Hfile Hperm path upload.
  unfold main_dispatch. destruct (msg args) as [|word words] eqn:Hwords; [done|].
  fold path. erewrite bind_Ret; cycle 1.
  { erewrite bind_Ret; [reflexivity|]. rewrite data_type_run.
    unfold isfile. fold path in Hfile. rewrite Hfile. reflexivity. }
  cbn [fst snd]. unfold bind.
  rewrite (push_file_run env (PDev <$> device) path _ content perm) by done.
  fold upload. destruct (fst upload).
  - destruct (call_outcome env push_file [] _); unfold ret, exit_after;
      by rewrite !logged_logged.
  - destruct (call_outcome env upload_file _ _); unfold ret, exit_after;
      by rewrite !logged_logged.
Qed.

(** C2.  Pushing content classified as a note issues exactly one remote
    call, [push_note], whose keyword parameters are [title = "Note"],
    [body =] the content and, under [device], the resolved device itself,
    the object that [main] took from the client's listing and hands to
    [_push]; without a device there is no [device] key at all.  This is
    what the dispatch of [main] does with its [device] for a message on the
    command line that is neither a file nor a link: it tests the message
    and makes that one call. *)
Theorem push_note_parameters (device : option Device) (content : string) (w : world) :
  (∃ kw,
     snd (_push (decorate env (raw_client env)) (PDev <$> device) content "text" w)
       = logged w [ECall push_note [] kw] ∧
     kw !! "title" = Some (PStr "Note") ∧
     kw !! "body" = Some (PStr content) ∧
     kw !! "device" = PDev <$> device ∧
     dom kw ⊆ {["title"; "body"; "device"]}) ∧
  (∀ (fuel : nat) (args : Namespace),
     msg args ≠ [] → join " " (msg args) = content →
     isfile (fs w) content = false → re_search URL_RE content = false →
     let kw : gmap string pyval :=
       <["title" := PStr "Note"]> (<["body" := PStr content]>
         match device with Some d => <["device" := PDev d]> ∅ | None => ∅ end) in
     main_dispatch env fuel (decorate env (raw_client env)) args device w =
       (exit_after (call_outcome env push_note [] kw),
        logged w [EIsFile content; ECall push_note [] kw])).
Proof.
  split.
  - eexists. split.
    + rewrite push_note_run by done. reflexivity.
    + destruct device; simpl; rewrite !dom_insert_L, dom_empty_L;
        (split_and!; [done..|]); intros k;
        rewrite !elem_of_union, !elem_of_singleton, elem_of_empty; tauto.
  - intros fuel args Hmsg <- Hnot Hre kw.
    rewrite (main_dispatch_words fuel args device w Hmsg Hnot). cbv zeta.
    rewrite Hre. by destruct device.
Qed.

(** C6.  With the options parsed and the key at hand.  When [--all] is not
    given and the account has no device, [main] prints the two lines of the
    no-devices report and returns 1, and nothing else happens (no test of
    the message, no remote call).  When [--all] is given, whatever the
    device list (be it empty), there is no check, no prompt and no lookup:
    [main] goes straight to the dispatch, with no device.  For a message
    on the command line this is the test whether it names a file followed
    by the push itself: of a link or of a note whose only parameters are
    the two of its kind, without a [device]; or of the file, uploaded and
    then pushed with the upload's answer and nothing else. *)
Theorem no_devices_check fuel argv args w key w1 :
  fst (_parse_args argv w) = Ret args →
  _get_api_key env w = (Ret key, w1) →
  (all_ args = false → devices env = [] →
     main env fuel argv w =
       (Ret 1,
        logged w1 [EConnect key;
                   EPrint "You don't have any devices!";
                   EPrint "Add one at <https://www.pushbullet.com/>."])) ∧
  (all_ args = true →
     main env fuel argv w =
       main_dispatch env fuel (decorate env (raw_client env)) args None
         (logged w1 [EConnect key]) ∧
     (msg args ≠ [] →
      let arg := join " " (msg args) in
      (isfile (fs w1) arg = false →
       let m := if re_search URL_RE arg then push_link else push_note in
       let kw : gmap string pyval :=
         if re_search URL_RE arg
         then <["title" := PStr arg]> (<["url" := PStr arg]> ∅)
         else <["title" := PStr "Note"]> (<["body" := PStr arg]> ∅) in
       main env fuel argv w =
         (exit_after (call_outcome env m [] kw),
          logged w1 [EConnect key; EIsFile arg; ECall m [] kw])) ∧
      (∀ content perm,
         fs w1 !! arg = Some (RegFile content perm) →
         Z.land perm owner_read ≠ 0 →
         let upload := remote env upload_file [PFile arg content; PStr arg] ∅ in
         main env fuel argv w =
           if fst upload then
             (exit_after (call_outcome env push_file [] (snd upload ∪ ∅)),
              logged w1 [EConnect key; EIsFile arg; EOpen arg "rb";
                         ECall upload_file [PFile arg content; PStr arg] ∅;
                         ECall push_file [] (snd upload ∪ ∅)])
           else
             (exit_after (call_outcome env upload_file [PFile arg content; PStr arg] ∅),
              logged w1 [EConnect key; EIsFile arg; EOpen arg "rb";
                         ECall upload_file [PFile arg content; PStr arg] ∅])))).
Proof.
  intros Hparse Hkey. rewrite (main_resolution _ _ _ _ _ _ _ Hparse Hkey). split.
  - intros -> ->. simpl. unfold print, bind, emit, ret. by rewrite !logged_logged.
  - intros ->. cbn [negb]. cbv zeta. split; [done|]. intros Hmsg. split.
    + intros Hnot. rewrite (main_dispatch_words fuel args None) by done.
      cbn [fmap option_fmap option_map routing]. by rewrite logged_logged.
    + intros content perm Hfile Hperm.
      rewrite (main_dispatch_file fuel args None _ content perm) by done.
      cbn [fmap option_fmap option_map routing].
      destruct (fst (remote env upload_file _ ∅)); by rewrite logged_logged.
Qed.

End MainDispatch.

(** The specification's example, run from the command line: with the key
    [ABC123] typed at the prompt, [--device Phone hi] on an account whose
    device [Phone] has the identifier [dev1] ends in one call of
    [push_note], and the value under [device] is the device, not the
    string [dev1]. *)
Lemma push_note_device_not_identifier :
  let w' := snd (main two_devices_env 1 ["--device"; "Phone"; "hi"] fresh_world) in
  device_iden phone = "dev1" ∧
  filter (λ e, is_call e = true) (log w') =
    [ECall push_note []
       (<["title" := PStr "Note"]> (<["body" := PStr "hi"]> {["device" := PDev phone]}))] ∧
  (<["title" := PStr "Note"]> (<["body" := PStr "hi"]> {["device" := PDev phone]})
     : gmap string pyval) !! "device" ≠ Some (PStr "dev1").
Proof. split_and!; [reflexivity|by vm_compute|by vm_compute]. Qed.

(** * Further instances on sample data *)

Lemma push_note_parameters_witness :
  (msg (choice_namespace ["hi"] (ChooseDevice "Phone" false)) ≠ [] ∧
   join " " (msg (choice_namespace ["hi"] (ChooseDevice "Phone" false))) = "hi" ∧
   isfile (fs fresh_world) "hi" = false ∧ re_search URL_RE "hi" = false) ∧
  main_dispatch two_devices_env 1 (decorate two_devices_env (raw_client two_devices_env))
    (choice_namespace ["hi"] (ChooseDevice "Phone" false)) (Some phone) fresh_world =
    (Ret 0,
     logged fresh_world
       [EIsFile "hi";
        ECall push_note []
          (<["title" := PStr "Note"]> (<["body" := PStr "hi"]> {["device" := PDev phone]}))]).
Proof.
  split; [repeat split; discriminate|].
  exact (proj2 (push_note_parameters two_devices_env (Some phone) "hi" fresh_world)
           1%nat (choice_namespace ["hi"] (ChooseDevice "Phone" false))
           ltac:(discriminate) eq_refl eq_refl eq_refl).
Defined.

Lemma no_devices_check_witness :
  (fst (_parse_args ["hi"] fresh_world) = Ret (choice_namespace ["hi"] ChooseNothing) ∧
   _get_api_key no_devices_env fresh_world = (Ret "ABC123", keyed_world) ∧
   all_ (choice_namespace ["hi"] ChooseNothing) = false ∧
   devices no_devices_env = []) ∧
  main no_devices_env 1 ["hi"] fresh_world =
    (Ret 1,
     logged keyed_world
       [EConnect "ABC123";
        EPrint "You don't have any devices!";
        EPrint "Add one at <https://www.pushbullet.com/>."]) ∧
  (fst (_parse_args ["--all"; "hi"] fresh_world) = Ret (choice_namespace ["hi"] ChooseAll) ∧
   all_ (choice_namespace ["hi"] ChooseAll) = true ∧
   msg (choice_namespace ["hi"] ChooseAll) ≠ [] ∧
   isfile (fs keyed_world) "hi" = false) ∧
  main no_devices_env 1 ["--all"; "hi"] fresh_world =
    (Ret 0,
     logged keyed_world
       [EConnect "ABC123";
        EIsFile "hi";
        ECall push_note [] (<["title" := PStr "Note"]> (<["body" := PStr "hi"]> ∅))]).
Proof.
  split; [repeat split|].
  split.
  { apply (proj1 (no_devices_check no_devices_env 1%nat ["hi"]
                    (choice_namespace ["hi"] ChooseNothing) fresh_world
                    "ABC123" keyed_world eq_refl eq_refl));
      reflexivity. }
  split; [repeat split; discriminate|].
  exact (proj1 (proj2 (proj2 (no_devices_check no_devices_env 1%nat ["--all"; "hi"]
                                (choice_namespace ["hi"] ChooseAll) fresh_world
                                "ABC123" keyed_world eq_refl eq_refl) eq_refl)
                  ltac:(discriminate)) eq_refl).
Defined.

Lemma push_file_sequence_witness :
  (fs picture_world !! "photo.jpg" = Some (RegFile "JFIF" (6 * 64 + 4 * 8 + 4)) ∧
   Z.land (6 * 64 + 4 * 8 + 4) owner_read ≠ 0 ∧
   fs fresh_world !! "photo.jpg" = None ∧
   fs null_world !! "/dev/null" = Some (Special "" (6 * 64 + 6 * 8 + 6)) ∧
   Z.land (6 * 64 + 6 * 8 + 6) owner_read ≠ 0 ∧
   isfile (fs null_world) "/dev/null" = false) ∧
  _push (decorate two_devices_env (raw_client two_devices_env))
        (Some (PDev phone)) "photo.jpg" "file" picture_world =
    (Ret (),
     logged picture_world
       [EOpen "photo.jpg" "rb";
        ECall upload_file [PFile "photo.jpg" "JFIF"; PStr "photo.jpg"] ∅;
        ECall push_file []
          ({["iden" := PStr "p1"]} ∪ <["device" := PDev phone]> ∅)]) ∧
  _push (decorate two_devices_env (raw_client two_devices_env))
        (Some (PDev phone)) "photo.jpg" "file" fresh_world =
    (Raise (IOError "photo.jpg"), logged fresh_world [EOpen "photo.jpg" "rb"]) ∧
  _push (decorate two_devices_env (raw_client two_devices_env))
        None "/dev/null" "file" null_world =
    (Ret (),
     logged null_world
       [EOpen "/dev/null" "rb";
        ECall upload_file [PFile "/dev/null" ""; PStr "/dev/null"] ∅;
        ECall push_file [] ({["iden" := PStr "p1"]} ∪ ∅)]).
Proof.
  split; [repeat split; discriminate|].
  destruct (push_file_sequence two_devices_env (Some (PDev phone)) "photo.jpg"
              picture_world) as [Hok _].
  destruct (push_file_sequence two_devices_env (Some (PDev phone)) "photo.jpg"
              fresh_world) as [_ Hbad].
  destruct (push_file_sequence two_devices_env None "/dev/null" null_world)
    as [Hnull _].
  split_and!.
  - exact (Hok "JFIF" (6 * 64 + 4 * 8 + 4) (or_introl eq_refl) ltac:(discriminate)).
  - exact (Hbad (or_introl eq_refl)).
  - exact (Hnull "" (6 * 64 + 6 * 8 + 6) (or_intror eq_refl) ltac:(discriminate)).
Defined.

Lemma stdin_message_is_a_note_witness :
  (msg default_namespace = [] ∧
   stdin piped_env (stdin_pos fresh_world + 2) = None) ∧
  main_dispatch piped_env 3 (decorate piped_env (raw_client piped_env))
    default_namespace None fresh_world =
    (Ret 0,
     {| fs := ∅; umask := 2 * 8 + 2; stdin_pos := 2;
        log := [EPrint "Enter your message: "; EStdinRead;
                ECall push_note []
                  (<["title" := PStr "Note"]>
                     (<["body" := PStr ("hello" +:+ nl +:+ "world" +:+ nl)]> ∅))] |}).
Proof.
  split; [done|].
  refine (proj1 (stdin_message_is_a_note piped_env 3%nat default_namespace None
                   fresh_world eq_refl)
            ["hello" +:+ nl; "world" +:+ nl] _ eq_refl ltac:(simpl; lia)).
  intros [|[|j]] l Hl; simpl in Hl; by simplify_eq.
Defined.

Lemma get_api_key_end_of_input_witness :
  (isfile (fs fresh_world) (KEY_PATH (sample_env [] [] true)) = false ∧
   stdin (sample_env [] [] true) (stdin_pos fresh_world) = None) ∧
  fst (_get_api_key (sample_env [] [] true) fresh_world) = Raise EOFError ∧
  fs (snd (_get_api_key (sample_env [] [] true) fresh_world)) = ∅.
Proof.
  split; [done|].
  rewrite (get_api_key_end_of_input (sample_env [] [] true) fresh_world
             eq_refl eq_refl).
  done.
Defined.

Lemma get_api_key_reads_verbatim_witness :
  fs edited_key_world !! KEY_PATH no_devices_env
    = Some (RegFile ("ABC123" +:+ nl) (6 * 64 + 4 * 8 + 4)) ∧
  _get_api_key no_devices_env edited_key_world
    = (Ret ("ABC123" +:+ nl),
       logged edited_key_world
         [EIsFile "/home/u/.pushbulletkey"; EOpen "/home/u/.pushbulletkey" "r"]).
Proof.
  split; [done|].
  exact (get_api_key_reads_verbatim no_devices_env edited_key_world
           ("ABC123" +:+ nl) (6 * 64 + 4 * 8 + 4) eq_refl).
Defined.

Lemma credential_round_trip_any_key_witness :
  (fs fresh_world !! KEY_PATH (sample_env ["  s3cret " +:+ nl] [] true) = None ∧
   stdin (sample_env ["  s3cret " +:+ nl] [] true) (stdin_pos fresh_world)
     = Some ("  s3cret " +:+ nl) ∧
   write_ok (sample_env ["  s3cret " +:+ nl] [] true)
     (KEY_PATH (sample_env ["  s3cret " +:+ nl] [] true))
     (strip (chomp ("  s3cret " +:+ nl))) = true) ∧
  fst (_get_api_key (sample_env ["  s3cret " +:+ nl] [] true) fresh_world) = Ret "s3cret" ∧
  fs (snd (_get_api_key (sample_env ["  s3cret " +:+ nl] [] true) fresh_world))
    = <["/home/u/.pushbulletkey" := RegFile "s3cret" (6 * 64)]> ∅.
Proof.
  split; [done|].
  destruct (credential_round_trip_any_key (sample_env ["  s3cret " +:+ nl] [] true)
              fresh_world ("  s3cret " +:+ nl) eq_refl eq_refl eq_refl)
    as (H1 & H2 & _).
  split; [exact H1|exact H2].
Defined.

Lemma exit_status_meaning_witness :
  fst (main two_devices_env 1 ["hi"] fresh_world) = Ret 0 ∧
  ∃ evs m kw,
    log (snd (main two_devices_env 1 ["hi"] fresh_world)) = evs ∧
    last evs = Some (ECall m [] kw) ∧ m ≠ upload_file ∧
    fst (remote two_devices_env m [] kw) = true.
Proof.
  split; [reflexivity|].
  destruct (exit_status_meaning two_devices_env 1%nat ["hi"] fresh_world)
    as (evs & Hlog & _ & Hzero & _).
  destruct (Hzero eq_refl) as (m & kw & Hlast & Hm & Hok).
  exists evs, m, kw. split_and!; done.
Defined.

Lemma main_changes_only_the_key_file_witness :
  "photo.jpg" ≠ KEY_PATH two_devices_env ∧
  fs (snd (main two_devices_env 1 ["photo.jpg"] picture_world)) !! "photo.jpg"
    = Some (RegFile "JFIF" (6 * 64 + 4 * 8 + 4)) ∧
  umask (snd (main two_devices_env 1 ["photo.jpg"] picture_world)) = 2 * 8 + 2.
Proof.
  assert (Hne : "photo.jpg" ≠ KEY_PATH two_devices_env) by discriminate.
  split; [exact Hne|].
  destruct (main_changes_only_the_key_file two_devices_env 1%nat
              ["photo.jpg"] picture_world) as (Hmask & Hother & _).
  split; [|exact Hmask].
  exact (Hother "photo.jpg" Hne).
Defined.

Lemma link_with_trailing_words_witness :
  (url_shape "http://example.com" ∧
   all_chars is_dot (join " " ["http://example.com"; "see"; "this"]) = true ∧
   isfile (fs fresh_world) (join " " ["http://example.com"; "see"; "this"]) = false) ∧
  fst (_data_type "http://example.com see this" fresh_world) = Ret "url".
Proof.
  assert (Hurl : url_shape "http://example.com").
  { exists "http", "example.com", "". repeat split; try done. by left. }
  split; [done|].
  exact (link_with_trailing_words "http://example.com" ["see"; "this"]
           fresh_world Hurl eq_refl eq_refl).
Defined.

Lemma multi_line_message_is_no_link_witness :
  "second line" ≠ "" ∧
  fst (_data_type ("http://example.com" +:+ nl +:+ "second line") fresh_world)
    ≠ Ret "url".
Proof.
  assert (Hne : "second line" ≠ "") by discriminate.
  split; [exact Hne|].
  exact (multi_line_message_is_no_link "http://example.com" "second line"
           fresh_world Hne).
Defined.

Lemma devices_reachable_by_name_witness :
  (NoDup (nickname <$> [phone; tablet]) ∧
   [old_phone; tablet; phone] = [] ++ old_phone :: [tablet; phone] ∧
   phone ∈ [tablet; phone] ∧ nickname phone = nickname old_phone ∧
   old_phone ∉ [tablet; phone]) ∧
  devices_by_names [phone; tablet] !! "Tablet" = Some tablet ∧
  devices_by_names [old_phone; tablet; phone] !! "Phone" ≠ Some old_phone.
Proof.
  assert (Hnd : NoDup (nickname <$> [phone; tablet])).
  { simpl. repeat constructor; intros H;
      repeat (apply elem_of_cons in H as [H|H]; [discriminate|]);
      by apply elem_of_nil in H. }
  assert (Hin : phone ∈ [tablet; phone]) by repeat constructor.
  assert (Hnot : old_phone ∉ [tablet; phone]).
  { intros H. repeat (apply elem_of_cons in H as [H|H]; [discriminate|]).
    by apply elem_of_nil in H. }
  split; [done|]. split.
  - exact (proj1 (proj1 (devices_reachable_by_name [phone; tablet]) Hnd)
             tablet ltac:(repeat constructor)).
  - exact (proj2 (devices_reachable_by_name [old_phone; tablet; phone])
             [] old_phone [tablet; phone] phone eq_refl Hin eq_refl Hnot "Phone").
Defined.

Lemma parse_args_at_most_one_mode_witness :
  fst (_parse_args ["--device=Phone"; "hi"] fresh_world)
    = Ret (choice_namespace ["hi"] (ChooseDevice "Phone" true)) ∧
  all_ (choice_namespace ["hi"] (ChooseDevice "Phone" true)) = false ∧
  interactive (choice_namespace ["hi"] (ChooseDevice "Phone" true)) = false.
Proof.
  split; [done|].
  destruct (parse_args_at_most_one_mode ["--device=Phone"; "hi"]
              fresh_world (choice_namespace ["hi"] (ChooseDevice "Phone" true))
              eq_refl) as (_ & _ & _ & Hdev).
  exact (Hdev (mk_is_Some _ _ eq_refl)).
Defined.

Lemma prompt_device_end_of_input_witness :
  ((∀ j, (j < 1)%nat → ∃ line,
      stdin short_input_env (stdin_pos fresh_world + j) = Some line ∧
      selection [phone; tablet] line = None) ∧
   stdin short_input_env (stdin_pos fresh_world + 1) = None) ∧
  _prompt_device short_input_env 5 [phone; tablet] fresh_world =
    (Raise EOFError,
     {| fs := ∅; umask := 2 * 8 + 2; stdin_pos := 1;
        log := [EPrint "[0] Phone"; EPrint "[1] Tablet";
                EPrompt "Push to which device? ";
                EPrompt "Push to which device? "] |}).
Proof.
  assert (Hbad : ∀ j, (j < 1)%nat → ∃ line,
            stdin short_input_env (stdin_pos fresh_world + j) = Some line ∧
            selection [phone; tablet] line = None).
  { intros [|j] Hj; [eexists; split; reflexivity|lia]. }
  split; [done|].
  exact (prompt_device_end_of_input short_input_env [phone; tablet] fresh_world
           1%nat 5%nat Hbad eq_refl ltac:(lia)).
Defined.

Lemma interactive_choice_is_the_target_witness :
  (fst (_parse_args ["-i"; "hi"; "there"] fresh_world)
     = Ret (choice_namespace ["hi"; "there"] ChooseInteractive) ∧
   _get_api_key choosing_env fresh_world = (Ret "ABC123", keyed_world) ∧
   isfile (fs keyed_world) "hi there" = false ∧
   re_search URL_RE "hi there" = false) ∧
  main choosing_env 3 ["-i"; "hi"; "there"] fresh_world =
    (Ret 0,
     logged
       (prompted 2 (logged keyed_world
                      [EConnect "ABC123"; EPrint "[0] Phone"; EPrint "[1] Tablet"]))
       [EIsFile "hi there";
        ECall push_note []
          (<["title" := PStr "Note"]>
             (<["body" := PStr "hi there"]> (<["device" := PDev tablet]> ∅)))]).
Proof.
  split; [done|].
  refine (interactive_choice_is_the_target choosing_env 3%nat
            ["-i"; "hi"; "there"]
            (choice_namespace ["hi"; "there"] ChooseInteractive)
            fresh_world "ABC123" keyed_world 1%nat tablet
            eq_refl eq_refl ltac:(discriminate) eq_refl eq_refl eq_refl _ _
            ltac:(lia)).
  - intros [|j] Hj; [eexists; split; reflexivity|lia].
  - eexists; split; reflexivity.
Defined.

Lemma named_device_file_push_witness :
  (fst (_parse_args ["-d"; "Phone"; "photo.jpg"] fresh_world)
     = Ret (choice_namespace ["photo.jpg"] (ChooseDevice "Phone" false)) ∧
   devices_by_names (devices two_devices_env) !! "Phone" = Some phone ∧
   _get_api_key two_devices_env picture_world
     = (Ret "ABC123", snd (_get_api_key two_devices_env picture_world)) ∧
   fst (remote two_devices_env upload_file
          [PFile "photo.jpg" "JFIF"; PStr "photo.jpg"] ∅) = true) ∧
  fst (main two_devices_env 1 ["-d"; "Phone"; "photo.jpg"]
         picture_world) = Ret 0 ∧
  last (log (snd (main two_devices_env 1
                    ["-d"; "Phone"; "photo.jpg"]
                    picture_world)))
    = Some (ECall push_file []
              ({["iden" := PStr "p1"]} ∪ <["device" := PDev phone]> ∅)).
Proof.
  split; [done|].
  rewrite (named_device_file_push two_devices_env 1%nat
             ["-d"; "Phone"; "photo.jpg"]
             (choice_namespace ["photo.jpg"] (ChooseDevice "Phone" false))
             "Phone" picture_world "ABC123"
             (snd (_get_api_key two_devices_env picture_world))
             phone "JFIF" (6 * 64 + 4 * 8 + 4)
             eq_refl eq_refl ltac:(discriminate) eq_refl ltac:(discriminate)
             eq_refl eq_refl ltac:(discriminate) eq_refl).
  done.
Defined.
